(** * RTOA: an RPL storing-mode mesh under a routing-table overload attack

    A shallow embedding of the protocol state machine of [node.py], the
    topology builder of [environment.py], the attack agent of
    [malicious.py], the counters of [performance.py] and the traffic
    generator of [run_simulation.py].

    Nodes live in an arena ([all_nodes], the Python list shared by every
    node); each Python reference to a node object (parent, neighbours,
    route targets, message senders) is the index of that object in the
    arena.  Python compares node objects by identity, which is equality of
    indices here.

    The generators of the source run under a cooperative scheduler; a
    handler body between two [yield]s runs without interruption.  Each such
    body is one function on the world below.  Virtual time itself is not
    modelled: the world only keeps what the protocol reads and writes, and
    the step relation at the end of the first part lists the bodies the
    scheduler can run.  [log] only writes text and is left out.  An index
    outside the arena stands for no object: a handler called with one
    returns the world as it is. *)

From Stdlib Require Import ZArith NArith QArith Lqa String Ascii.
From Stdlib Require Import DecimalString HexadecimalString DecimalPos DecimalN.
From Stdlib Require Import HexadecimalPos HexadecimalN.
From stdpp Require Import gmap strings list fin_maps relations.

Local Open Scope string_scope.

(** ** String formatting used for identifiers and prefixes *)

Module Fmt.

(** [str(n)] in base ten. *)
Definition dec (n : N) : string :=
  DecimalString.NilZero.string_of_uint (N.to_uint n).

(** [format(n, "x")]: lower-case hexadecimal. *)
Definition hex (n : N) : string :=
  HexadecimalString.NilZero.string_of_uint (N.to_hex_uint n).

(** Zero padding on the left up to a minimal width, the [0w] of a format
    specification. *)
Fixpoint zeros (k : nat) : string :=
  match k with
  | O => ""
  | S k' => String "0" (zeros k')
  end.

Definition pad (width : nat) (s : string) : string :=
  zeros (width - String.length s) ++ s.

(** [f"{n:02d}"] and [f"{n:02x}"]. *)
Definition d02 (n : N) : string := pad 2 (dec n).
Definition x02 (n : N) : string := pad 2 (hex n).

(** [int(s)] on a string of decimal digits; [None] stands for the
    ValueError of Python. *)
Definition int (s : string) : option N :=
  match DecimalString.NilZero.uint_of_string s with
  | Some d => Some (N.of_uint d)
  | None => None
  end.

(** [s[k:]] *)
Fixpoint drop_prefix (k : nat) (s : string) : string :=
  match k, s with
  | O, _ => s
  | S k', String _ r => drop_prefix k' r
  | S _, EmptyString => EmptyString
  end.

End Fmt.

(** ** Data model *)

(** A position is a pair of coordinates; [environment.py] rounds them to
    four decimals, so they are rationals. *)
Definition Position : Type := (Q * Q)%type.

(** [class Packet] of [node.py]. *)
Record Packet := mkPacket {
  src_id : string;
  dst_prefix : string;
  packet_size : N;
  packet_id : nat
}.

(** The items found in an inbox: the tagged tuples of the source, and data
    packets. *)
Inductive Message :=
| DIS (sender : nat)
| DIO (sender : nat)
| DAO (child_node : nat) (child_prefix : string)
| DAO_ACK (from_node : nat) (child_prefix : string) (status : Z)
| DATA (pkt : Packet).

(** [class Node].  [node_num] is the number [i] that [environment.py]
    formats into the identifier [f"Node{i:02d}"]; the identifier is the
    function [node_id] below and [int(self.node_id[4:])] gives [i] back
    (lemma [node_id_suffix]).  [trickle_I] and [trickle_t] are the fields
    [I] and [t]. *)
Record Node := mkNode {
  node_num : N;
  position : Position;
  is_root : bool;
  parent : option nat;
  neighbors : list nat;
  lost_neighbors : list nat;
  downward_routes : gmap string nat;
  max_downward_routes : nat;
  prefix : string;
  Imin : Z;
  Imax : Z;
  trickle_I : Z;
  trickle_t : Q;
  inbox : list Message
}.

Definition node_id (n : Node) : string := "Node" ++ Fmt.d02 (node_num n).

(** [class PerformanceMonitor], without the fields that are computed from
    the virtual clock (delays, first and last times, delivered bytes). *)
Record PerformanceMonitor := mkMonitor {
  total_data_sent : nat;
  total_data_delivered : nat;
  control_packets_sent : nat;
  data_packets_sent : nat;
  energy_used : Q
}.

(** The world: the shared list of nodes, the messages that a sender has
    handed to a delayed transmission ([_delay_tx], [_delay_ack]: every one
    of them waits the same 0.1, so they land in the order they were sent),
    and the one monitor every node reports to. *)
Record World := mkWorld {
  all_nodes : list Node;
  in_flight : list (nat * Message);
  monitor : PerformanceMonitor
}.

Definition root_prefix : string := "2001:db8::1".

(** [f"{sender.prefix}:{int(self.node_id[4:]):02x}"] *)
Definition derive (parent_prefix : string) (num : N) : string :=
  parent_prefix ++ ":" ++ Fmt.x02 num.

(** [random.uniform(a, b)] is [a + (b - a) * random()], the draw [u] of
    [random()] being in [0, 1). *)
Definition uniform (a b : Z) (u : Q) : Q :=
  (inject_Z a + (inject_Z b - inject_Z a) * u)%Q.

Definition Qltb (x y : Q) : bool := negb (Qle_bool y x).

(** ** Field updates *)

Definition set_inbox (q : list Message) (n : Node) : Node :=
  mkNode (node_num n) (position n) (is_root n) (parent n) (neighbors n)
    (lost_neighbors n) (downward_routes n) (max_downward_routes n) (prefix n)
    (Imin n) (Imax n) (trickle_I n) (trickle_t n) q.

Definition append_inbox (m : Message) (n : Node) : Node :=
  set_inbox (inbox n ++ [m]) n.

Definition append_neighbor (a : nat) (n : Node) : Node :=
  mkNode (node_num n) (position n) (is_root n) (parent n) (neighbors n ++ [a])
    (lost_neighbors n) (downward_routes n) (max_downward_routes n) (prefix n)
    (Imin n) (Imax n) (trickle_I n) (trickle_t n) (inbox n).

(** [self.parent = sender; self.prefix = ...] *)
Definition set_parent_prefix (p : nat) (pfx : string) (n : Node) : Node :=
  mkNode (node_num n) (position n) (is_root n) (Some p) (neighbors n)
    (lost_neighbors n) (downward_routes n) (max_downward_routes n) pfx
    (Imin n) (Imax n) (trickle_I n) (trickle_t n) (inbox n).

(** [self.downward_routes[child_prefix] = child_node] *)
Definition store_route (child_prefix : string) (child_node : nat) (n : Node) : Node :=
  mkNode (node_num n) (position n) (is_root n) (parent n) (neighbors n)
    (lost_neighbors n) (<[child_prefix := child_node]> (downward_routes n))
    (max_downward_routes n) (prefix n)
    (Imin n) (Imax n) (trickle_I n) (trickle_t n) (inbox n).

Definition set_trickle (i : Z) (t : Q) (n : Node) : Node :=
  mkNode (node_num n) (position n) (is_root n) (parent n) (neighbors n)
    (lost_neighbors n) (downward_routes n) (max_downward_routes n) (prefix n)
    (Imin n) (Imax n) i t (inbox n).

Definition upd_node (i : nat) (f : Node → Node) (w : World) : World :=
  mkWorld (alter f i (all_nodes w)) (in_flight w) (monitor w).

Definition upd_monitor (f : PerformanceMonitor → PerformanceMonitor) (w : World) : World :=
  mkWorld (all_nodes w) (in_flight w) (f (monitor w)).

(** [target.inbox.append(m)] *)
Definition push_inbox (target : nat) (m : Message) (w : World) : World :=
  upd_node target (append_inbox m) w.

(** Start of a delayed transmission of [m] to [target]. *)
Definition transmit_later (target : nat) (m : Message) (w : World) : World :=
  mkWorld (all_nodes w) (in_flight w ++ [(target, m)]) (monitor w).

(** ** The monitor's callbacks *)

Definition on_data_packet_created (m : PerformanceMonitor) : PerformanceMonitor :=
  mkMonitor (S (total_data_sent m)) (total_data_delivered m)
    (control_packets_sent m) (S (data_packets_sent m)) (energy_used m).

Definition on_data_packet_delivered (m : PerformanceMonitor) : PerformanceMonitor :=
  mkMonitor (total_data_sent m) (S (total_data_delivered m))
    (control_packets_sent m) (data_packets_sent m) (energy_used m).

Definition on_control_packet_sent (m : PerformanceMonitor) : PerformanceMonitor :=
  mkMonitor (total_data_sent m) (total_data_delivered m)
    (S (control_packets_sent m)) (data_packets_sent m) (energy_used m).

Definition on_transmit (m : PerformanceMonitor) : PerformanceMonitor :=
  mkMonitor (total_data_sent m) (total_data_delivered m)
    (control_packets_sent m) (data_packets_sent m) (energy_used m + (3 # 4))%Q.

Definition on_receive (m : PerformanceMonitor) : PerformanceMonitor :=
  mkMonitor (total_data_sent m) (total_data_delivered m)
    (control_packets_sent m) (data_packets_sent m) (energy_used m + (1 # 4))%Q.

(** The pair of calls that accompanies every control message. *)
Definition control_tx (w : World) : World :=
  upd_monitor on_transmit (upd_monitor on_control_packet_sent w).

(** ** Node construction ([Node.__init__]) *)

Definition Node_init (num : N) (pos : Position) (root : bool) (u : Q) : Node :=
  let imin := 1%Z in
  let imax := 8%Z in
  let i := imin in
  mkNode num pos root None [] [] ∅ 800
    (if root then root_prefix else "2001:db8::" ++ Fmt.x02 num)
    imin imax i (uniform imin i u) [].

(** ** The protocol handlers of [node.py]

    [calculate_distance p q] is the value of
    [((p[0]-q[0])**2 + (p[1]-q[1])**2)**0.5], a floating-point number; the
    handlers only compare such values, so the development takes the
    function as given and reads its results as rationals.  The three
    configuration entries read by the protocol are section variables as
    well. *)

Section Protocol.

Variable calculate_distance : Position → Position → Q.
Variable CONNECTION_RANGE : Q.
Variable MINIMUM_DISTANCE : Q.

(** [self.calculate_distance(other.position) <= config["CONNECTION_RANGE"]] *)
Definition in_range (self other : Node) : bool :=
  Qle_bool (calculate_distance (position self) (position other)) CONNECTION_RANGE.

(** [send_packet]: one transmission is counted and the packet lands in
    the inbox of [next_hop] 0.1 later. *)
Definition send_packet (w : World) (packet : Packet) (next_hop : nat) : World :=
  transmit_later next_hop (DATA packet) (upd_monitor on_transmit w).

(** [handle_packet] *)
Definition handle_packet (w : World) (self : nat) (packet : Packet) : World :=
  match all_nodes w !! self with
  | None => w
  | Some n =>
    if bool_decide (dst_prefix packet = prefix n) then
      upd_monitor on_data_packet_delivered w
    else
      match downward_routes n !! dst_prefix packet with
      | Some child => send_packet w packet child
      | None =>
        match parent n with
        | Some p => send_packet w packet p
        | None => w
        end
      end
  end.

(** [send_dao_ack] *)
Definition send_dao_ack (w : World) (self child_node : nat)
    (child_prefix : string) (status : Z) : World :=
  transmit_later child_node (DAO_ACK self child_prefix status) (control_tx w).

(** [receive_dao_ack] only writes a log line. *)
Definition receive_dao_ack (w : World) (self from_node : nat)
    (child_prefix : string) (status : Z) : World := w.

(** [discover_neighbors], after its start-up delay. *)
Definition discover_neighbors (w : World) (self : nat) : World :=
  match all_nodes w !! self with
  | None => w
  | Some n =>
    foldl (λ acc j,
             match all_nodes acc !! j with
             | Some node =>
               if bool_decide (j ≠ self) && in_range n node
               then push_inbox j (DIS self) acc
               else acc
             | None => acc
             end)
          (control_tx w) (seq 0 (length (all_nodes w)))
  end.

(** [receive_dis] *)
Definition receive_dis (w : World) (self sender : nat) : World :=
  match all_nodes w !! self, all_nodes w !! sender with
  | Some n, Some s =>
    if negb (bool_decide (sender ∈ neighbors n)) && in_range n s then
      let w1 := upd_node self (append_neighbor sender) w in
      let w2 :=
        match all_nodes w1 !! sender with
        | Some s1 =>
          if bool_decide (self ∈ neighbors s1) then w1
          else upd_node sender (append_neighbor self) w1
        | None => w1
        end in
      push_inbox sender (DIO self) (control_tx w2)
    else w
  | _, _ => w
  end.

(** One round of the loop of [send_dio]. *)
Definition send_dio (w : World) (self : nat) : World :=
  match all_nodes w !! self with
  | None => w
  | Some n =>
    foldl (λ acc nbr,
             match all_nodes acc !! nbr with
             | Some m =>
               if bool_decide (parent m ≠ Some self)
               then push_inbox nbr (DIO self) (control_tx acc)
               else acc
             | None => acc
             end)
          w (neighbors n)
  end.

(** [send_dao]: called only once a parent is set. *)
Definition send_dao (w : World) (self : nat) : World :=
  match all_nodes w !! self with
  | Some n =>
    match parent n with
    | Some p => push_inbox p (DAO self (prefix n)) (control_tx w)
    | None => w
    end
  | None => w
  end.

(** The two assignments shared by both branches of [receive_dio], followed
    by the [send_dao] sub-process, which the scheduler runs next. *)
Definition adopt (w : World) (self sender : nat) : World :=
  match all_nodes w !! self, all_nodes w !! sender with
  | Some n, Some s =>
    send_dao (upd_node self (set_parent_prefix sender (derive (prefix s) (node_num n))) w) self
  | _, _ => w
  end.

(** The guard of the parent switch:
    [dist_sender < dist_curr and sender.parent != self]. *)
Definition switch_guard (self : nat) (n s cur : Node) : bool :=
  Qltb (calculate_distance (position n) (position s))
       (calculate_distance (position n) (position cur))
  && bool_decide (parent s ≠ Some self).

(** [receive_dio] *)
Definition receive_dio (w : World) (self sender : nat) : World :=
  match all_nodes w !! self, all_nodes w !! sender with
  | Some n, Some s =>
    if is_root n then w
    else
      match parent n with
      | None => adopt w self sender
      | Some p =>
        match all_nodes w !! p with
        | Some cur =>
          if switch_guard self n s cur then adopt w self sender else w
        | None => w
        end
      end
  | _, _ => w
  end.

(** [receive_dao] *)
Definition receive_dao (w : World) (self : nat) (child_prefix : string)
    (child_node : nat) : World :=
  match all_nodes w !! self with
  | None => w
  | Some n =>
    if bool_decide (downward_routes n !! child_prefix = Some child_node) then w
    else if bool_decide (max_downward_routes n ≤ size (downward_routes n))%nat then w
    else
      let w1 := upd_node self (store_route child_prefix child_node) w in
      let w2 :=
        match parent n with
        | Some p => push_inbox p (DAO child_node child_prefix) (control_tx w1)
        | None => w1
        end in
      send_dao_ack w2 self child_node child_prefix 0
  end.

(** [send_dis] *)
Definition send_dis (w : World) (self : nat) : World :=
  match all_nodes w !! self with
  | None => w
  | Some n =>
    foldl (λ acc j,
             match all_nodes acc !! j with
             | Some node =>
               if bool_decide (j ≠ self) && in_range n node
               then push_inbox j (DIS self) (control_tx acc)
               else acc
             | None => acc
             end)
          w (seq 0 (length (all_nodes w)))
  end.

(** The two assignments that end a round of [trickle_timer]. *)
Definition trickle_update (u : Q) (n : Node) : Node :=
  let i := Z.min (trickle_I n * 2) (Imax n) in
  set_trickle i (uniform (Imin n) i u) n.

(** One round of [trickle_timer], from the moment the timer fires; [u] is
    the draw of [random()].  When [send_dis] runs, the two assignments
    follow it 0.1 later; no other code reads or writes [I] and [t], so the
    round is taken as one step. *)
Definition trickle_timer (w : World) (self : nat) (u : Q) : World :=
  match all_nodes w !! self with
  | None => w
  | Some n =>
    let w1 := match neighbors n with
              | [] => send_dis w self
              | _ :: _ => w
              end in
    upd_node self (trickle_update u) w1
  end.

(** One round of [run_inbox] on a non-empty inbox: the oldest item is
    taken out and handed to its handler.  The source waits 0.2 between the
    two; only the owner reads its inbox and everybody else appends at the
    far end, so the item is taken out here at the moment it is handled. *)
Definition run_inbox (w : World) (self : nat) : World :=
  match all_nodes w !! self with
  | None => w
  | Some n =>
    match inbox n with
    | [] => w
    | item :: rest =>
      let w1 := upd_node self (set_inbox rest) w in
      match item with
      | DAO_ACK from_node child_prefix status =>
          receive_dao_ack w1 self from_node child_prefix status
      | DIS sender => receive_dis w1 self sender
      | DIO sender => receive_dio w1 self sender
      | DAO child_node child_prefix => receive_dao w1 self child_prefix child_node
      | DATA pkt => handle_packet (upd_monitor on_receive w1) self pkt
      end
    end
  end.

(** End of a delayed transmission: the oldest message in flight is
    appended to the inbox of its target. *)
Definition deliver (w : World) : World :=
  match in_flight w with
  | [] => w
  | (target, m) :: rest =>
    push_inbox target m (mkWorld (all_nodes w) rest (monitor w))
  end.

(** ** The attack agent of [malicious.py] *)

(** [node != self.attacker_node and len(node.downward_routes) > 0] *)
Definition eligible (w : World) (attacker j : nat) : bool :=
  match all_nodes w !! j with
  | Some node => bool_decide (j ≠ attacker) && bool_decide (0 < size (downward_routes node))%nat
  | None => false
  end.

Definition possible_victims (w : World) (attacker : nat) : list nat :=
  List.filter (eligible w attacker) (seq 0 (length (all_nodes w))).

(** [f"2001:db8::{fake_num:x}"] *)
Definition fake_prefix (fake_num : N) : string := "2001:db8::" ++ Fmt.hex fake_num.

(** One round of the loop of [launch] after its wait.  [k] is the random
    number behind [random.choice] (reduced below the length of the
    list), [fake_num] the result of [random.randint(1000, 9999)]; the
    result carries the new value of [count]. *)
Definition launch_round (w : World) (attacker : nat) (k : nat) (fake_num : N)
    (count : nat) : World * nat :=
  let victims := possible_victims w attacker in
  match victims with
  | [] => (w, count)
  | _ :: _ =>
    match victims !! (k `mod` length victims) with
    | Some victim_node =>
      (receive_dao w victim_node (fake_prefix fake_num) attacker, S count)
    | None => (w, count)
    end
  end.

(** ** The topology builder of [environment.py] and the traffic source *)

(** The rejection test on a candidate position: no node placed so far is
    closer than the minimum. *)
Definition valid_pos (w : World) (pos : Position) : bool :=
  forallb (λ n, negb (Qltb (calculate_distance (position n) pos) MINIMUM_DISTANCE))
          (all_nodes w).

(** One round of [create_nodes] with an accepted position: node [i] is
    built and joins the arena; node 0 is the root. *)
Definition create_node (w : World) (pos : Position) (u : Q) : World :=
  let i := length (all_nodes w) in
  mkWorld (all_nodes w ++ [Node_init (N.of_nat i) pos (bool_decide (i = 0)) u])
          (in_flight w) (monitor w).

(** One round of [generate_traffic] with the drawn source and
    destination. *)
Definition generate_traffic (w : World) (src dst : nat) (pid : nat) : World :=
  match all_nodes w !! src, all_nodes w !! dst with
  | Some s, Some d =>
    if bool_decide (length (all_nodes w) < 2)%nat then w
    else if bool_decide (src = dst) then w
    else
      let pkt := mkPacket (node_id s) (prefix d) 64 pid in
      send_packet (upd_monitor on_data_packet_created w) pkt src
  | _, _ => w
  end.

Definition initial_world : World :=
  mkWorld [] [] (mkMonitor 0 0 0 0 0).

(** ** The run

    One step is one handler body run by the scheduler.  The process
    [network_disruption] is guarded by [if False] and changes nothing, so
    it contributes no step.  Attackers are taken among the nodes other
    than node 0, as [run_simulation.py] samples them. *)
Inductive step : World → World → Prop :=
| step_create w pos u :
    valid_pos w pos = true → (0 <= u)%Q → (u < 1)%Q →
    step w (create_node w pos u)
| step_discover w self :
    step w (discover_neighbors w self)
| step_inbox w self :
    step w (run_inbox w self)
| step_deliver w :
    step w (deliver w)
| step_send_dio w self :
    step w (send_dio w self)
| step_trickle w self u :
    (0 <= u)%Q → (u < 1)%Q →
    step w (trickle_timer w self u)
| step_attack w attacker k fake_num count :
    (1 ≤ attacker < length (all_nodes w))%nat →
    (1000 ≤ fake_num ≤ 9999)%N →
    step w (launch_round w attacker k fake_num count).1
| step_traffic w src dst pid :
    step w (generate_traffic w src dst pid).

Definition reachable (w : World) : Prop := rtc step initial_world w.

End Protocol.

(** ** A concrete geometry and sample worlds for the examples *)

(** The Euclidean distance of two points, exact whenever the squared
    distance is the square of a rational (as for points with integer
    coordinates on one horizontal line), and rounded down otherwise. *)
Definition euclid (p q : Position) : Q :=
  let s := Qred ((p.1 - q.1) * (p.1 - q.1) + (p.2 - q.2) * (p.2 - q.2))%Q in
  (Z.sqrt (Qnum s * Zpos (Qden s)) # Qden s)%Q.

(** Three nodes on a line, ten and three apart, with a connection range
    of four: the root hears nobody, nodes 1 and 2 hear each other. *)
Definition line_created : World :=
  let w := create_node initial_world (0, 0)%Q 0 in
  let w := create_node w (10, 0)%Q 0 in
  create_node w (13, 0)%Q 0.

(** Node 2 looks for neighbours and node 1 answers with a DIO. *)
Definition line_answered : World :=
  let w := discover_neighbors euclid 4 line_created 2 in
  run_inbox euclid 4 w 1.

(** Node 2 takes node 1 as parent and announces its prefix; node 1 stores
    the route. *)
Definition line_joined : World :=
  let w := run_inbox euclid 4 line_answered 2 in
  run_inbox euclid 4 w 1.

(** Then node 2 advertises itself to node 1, which still has no parent and
    takes node 2. *)
Definition line_crossed : World :=
  let w := send_dio line_joined 2 in
  run_inbox euclid 4 w 1.

(** The root at 0 and three nodes at 6, 3 and 10 on a line, with a
    connection range of six: the root hears nodes 1 and 2, node 1 hears
    everybody, node 3 hears node 1 only. *)
Definition tree_created : World :=
  let w := create_node initial_world (0, 0)%Q 0 in
  let w := create_node w (6, 0)%Q 0 in
  let w := create_node w (3, 0)%Q 0 in
  create_node w (10, 0)%Q 0.

(** The root looks for neighbours, nodes 1 and 2 answer; the root
    advertises itself and both take it as parent. *)
Definition tree_rooted : World :=
  let w := discover_neighbors euclid 6 tree_created 0 in
  let w := run_inbox euclid 6 (run_inbox euclid 6 w 1) 2 in
  let w := send_dio w 0 in
  run_inbox euclid 6 (run_inbox euclid 6 w 1) 2.

(** Node 3 looks for neighbours, node 1 answers and node 3 takes node 1 as
    parent. *)
Definition tree_grown : World :=
  let w := discover_neighbors euclid 6 tree_rooted 3 in
  run_inbox euclid 6 (run_inbox euclid 6 w 1) 3.

(** Node 2 looks for neighbours; node 1 stores the route of node 3, then
    registers node 2; node 2 advertises itself. *)
Definition tree_offered : World :=
  let w := discover_neighbors euclid 6 tree_grown 2 in
  let w := run_inbox euclid 6 (run_inbox euclid 6 w 1) 1 in
  send_dio w 2.

(** Node 1 handles the DIO of node 2, which is closer than the root, and
    switches to it. *)
Definition tree_switched : World := run_inbox euclid 6 tree_offered 1.

(** A node as built by the constructor, with a given capacity, routes and
    parent. *)
Definition relay (num : N) (cap : nat) (routes : gmap string nat)
    (par : option nat) : Node :=
  mkNode num (0, 0)%Q false par [] [] routes cap ("2001:db8::" ++ Fmt.x02 num)
    1 8 1 1 [].

Definition route_a : string := "2001:db8::01:02".
Definition route_b : string := "2001:db8::01:03".

(** Node 1 has room for one route and holds [route_a] for node 2; node 0
    is its parent. *)
Definition full_world : World :=
  mkWorld [Node_init 0 (0, 0)%Q true 0;
           relay 1 1 {[route_a := 2]} (Some 0);
           relay 2 800 ∅ (Some 1);
           relay 3 800 ∅ (Some 1)]
          [] (mkMonitor 0 0 0 0 0).

(** The same with room for two routes. *)
Definition roomy_world : World :=
  mkWorld [Node_init 0 (0, 0)%Q true 0;
           relay 1 2 {[route_a := 2]} (Some 0);
           relay 2 800 ∅ (Some 1);
           relay 3 800 ∅ (Some 1)]
          [] (mkMonitor 0 0 0 0 0).

(** A node on the horizontal axis with a given parent and prefix. *)
Definition member (num : N) (x : Z) (par : option nat) (pfx : string) : Node :=
  mkNode num (inject_Z x, 0)%Q false par [] [] ∅ 800 pfx 1 8 1 1 [].

(** The root at 0 and three of its children, at 6, 3 and 12: seen from
    node 1, node 2 is closer than the root and node 3 exactly as far. *)
Definition switch_world : World :=
  mkWorld [Node_init 0 (0, 0)%Q true 0;
           member 1 6 (Some 0) "2001:db8::1:01";
           member 2 3 (Some 0) "2001:db8::1:02";
           member 3 12 (Some 0) "2001:db8::1:03"]
          [] (mkMonitor 0 0 0 0 0).

(** A packet for a prefix nobody owns. *)
Definition stray_packet : Packet := mkPacket "Node01" "2001:db8::ff" 64 0.

(** ** Vocabulary of the statements *)

(** What can become of a data packet at a node. *)
Inductive Outcome :=
| Delivered
| ForwardedTo (hop : nat)
| Dropped.

(** The forwarding priority in the words of the specification: own prefix
    first, then the downward-route table, then the parent, else no route.
    It is compared with [handle_packet] in the section on data packets. *)
Definition forwarding_priority (n : Node) (d : string) : Outcome :=
  if bool_decide (d = prefix n) then Delivered
  else match downward_routes n !! d with
       | Some child => ForwardedTo child
       | None =>
         match parent n with
         | Some p => ForwardedTo p
         | None => Dropped
         end
       end.

(** How an outcome shows in the world: a delivery is one more delivered
    packet on the monitor and nothing sent; a forward is one transmission
    of the packet towards the hop, the delivery counter staying put; a drop
    leaves the world as it was. *)
Definition shows (w w' : World) (pkt : Packet) (o : Outcome) : Prop :=
  match o with
  | Delivered =>
      all_nodes w' = all_nodes w ∧ in_flight w' = in_flight w
      ∧ total_data_delivered (monitor w') = S (total_data_delivered (monitor w))
  | ForwardedTo hop =>
      all_nodes w' = all_nodes w
      ∧ in_flight w' = (in_flight w ++ [(hop, DATA pkt)])%list
      ∧ total_data_delivered (monitor w') = total_data_delivered (monitor w)
  | Dropped => w' = w
  end.

(** The prefix invariant as the specification words it: every non-root
    node with a parent carries the parent's prefix extended by its own
    suffix. *)
Definition prefix_invariant (w : World) : Prop :=
  ∀ i n p np,
    all_nodes w !! i = Some n → is_root n = false →
    parent n = Some p → all_nodes w !! p = Some np →
    prefix n = derive (prefix np) (node_num n).

(** Node [self] has taken [sender] as parent between [w] and [w']: its
    parent field names the sender, its prefix is the sender's prefix
    extended by its own suffix, and a DAO for that prefix is the last item
    of the sender's inbox. *)
Definition adopted (w w' : World) (self sender : nat) : Prop :=
  ∃ n s n' s',
    all_nodes w !! self = Some n ∧ all_nodes w !! sender = Some s
    ∧ all_nodes w' !! self = Some n' ∧ all_nodes w' !! sender = Some s'
    ∧ parent n' = Some sender
    ∧ prefix n' = derive (prefix s) (node_num n)
    ∧ inbox s' = (inbox s ++ [DAO self (prefix n')])%list.

(** What places a node in the tree: its number, whether it is the root,
    its parent and its prefix. *)
Definition kin (n : Node) : N * bool * option nat * string :=
  (node_num n, is_root n, parent n, prefix n).

(** Nothing of that kind differs between two worlds. *)
Definition same_kin (w w' : World) : Prop :=
  kin <$> all_nodes w' = kin <$> all_nodes w.

(** Node [i] has a parent and carries the parent's prefix extended by its
    own suffix. *)
Definition derives_from_parent (w : World) (i : nat) : Prop :=
  ∃ n p np,
    all_nodes w !! i = Some n ∧ parent n = Some p
    ∧ all_nodes w !! p = Some np
    ∧ prefix n = derive (prefix np) (node_num n).

(** No node that is the parent of some node in [w] has another prefix in
    [w']. *)
Definition settled (w w' : World) : Prop :=
  ∀ p np np' c nc,
    all_nodes w !! p = Some np → all_nodes w' !! p = Some np' →
    all_nodes w !! c = Some nc → parent nc = Some p →
    prefix np' = prefix np.

(** [a] is in the neighbour list of node [b]. *)
Definition neighbor_of (w : World) (a b : nat) : Prop :=
  ∃ nb, all_nodes w !! b = Some nb ∧ a ∈ neighbors nb.

(** ** Elementary updates

    Every handler is a sequence of a few elementary updates of the world.
    They are listed here with the conditions under which the handlers
    perform them; the invariants of a run are checked once against this
    list, and [step_prims] shows that every step of a run is such a
    sequence. *)

(** The node a DIS or a DIO names as its sender. *)
Definition announced_sender (m : Message) : option nat :=
  match m with
  | DIS s | DIO s => Some s
  | _ => None
  end.

Inductive prim : World → World → Prop :=
| prim_push j m w :
    (∀ s, announced_sender m = Some s → s ≠ j ∧ s < length (all_nodes w))%nat →
    prim w (push_inbox j m w)
| prim_pop i n m rest w :
    all_nodes w !! i = Some n → inbox n = m :: rest →
    prim w (upd_node i (set_inbox rest) w)
| prim_handshake self sender n s w :
    all_nodes w !! self = Some n → all_nodes w !! sender = Some s →
    self ≠ sender → sender ∉ neighbors n → self ∉ neighbors s →
    prim w (upd_node sender (append_neighbor self)
              (upd_node self (append_neighbor sender) w))
| prim_parent i n p pfx w :
    all_nodes w !! i = Some n → is_root n = false →
    prim w (upd_node i (set_parent_prefix p pfx) w)
| prim_route i n p c w :
    all_nodes w !! i = Some n →
    (size (downward_routes n) < max_downward_routes n)%nat →
    prim w (upd_node i (store_route p c) w)
| prim_trickle i u w :
    (0 <= u)%Q → (u < 1)%Q →
    prim w (upd_node i (trickle_update u) w)
| prim_monitor f w :
    prim w (upd_monitor f w)
| prim_transmit j m w :
    announced_sender m = None →
    prim w (transmit_later j m w)
| prim_land j m rest w :
    in_flight w = (j, m) :: rest →
    prim w (push_inbox j m (mkWorld (all_nodes w) rest (monitor w)))
| prim_create pos u w :
    (0 <= u)%Q → (u < 1)%Q →
    prim w (create_node w pos u).

(** ** Invariants of a run *)

(** Neighbour lists are mutual and never name their owner; the sender
    named by a DIS or DIO waiting in an inbox is another, existing node;
    no DIS or DIO travels by delayed transmission. *)
Record link_inv (w : World) : Prop := mkLinkInv {
  link_mutual : ∀ i n a,
    all_nodes w !! i = Some n → a ∈ neighbors n → a ≠ i ∧ neighbor_of w i a;
  link_senders : ∀ i n m s,
    all_nodes w !! i = Some n → m ∈ inbox n → announced_sender m = Some s →
    s ≠ i ∧ (s < length (all_nodes w))%nat;
  link_flight : ∀ j m, (j, m) ∈ in_flight w → announced_sender m = None
}.

(** A property of single nodes that node construction establishes and every
    field update performed by the handlers keeps. *)
Record node_invariant (P : Node → Prop) : Prop := mkNodeInvariant {
  ni_init : ∀ num pos root u, (0 <= u)%Q → (u < 1)%Q → P (Node_init num pos root u);
  ni_inbox : ∀ q n, P n → P (set_inbox q n);
  ni_neighbor : ∀ a n, P n → P (append_neighbor a n);
  ni_parent : ∀ p pfx n, is_root n = false → P n → P (set_parent_prefix p pfx n);
  ni_route : ∀ p c n,
    (size (downward_routes n) < max_downward_routes n)%nat →
    P n → P (store_route p c n);
  ni_trickle : ∀ u n, (0 <= u)%Q → (u < 1)%Q → P n → P (trickle_update u n)
}.

(** The table of downward routes respects its capacity. *)
Definition within_capacity (n : Node) : Prop :=
  (size (downward_routes n) ≤ max_downward_routes n)%nat.

(** A root carries the fixed root prefix. *)
Definition root_prefix_fixed (n : Node) : Prop :=
  is_root n = true → prefix n = root_prefix.

(** The trickle state stays within its bounds. *)
Definition trickle_bounded (n : Node) : Prop :=
  (Imin n ≤ trickle_I n ≤ Imax n)%Z
  ∧ (inject_Z (Imin n) <= trickle_t n)%Q
  ∧ (trickle_t n <= inject_Z (trickle_I n))%Q.

(** The bounds themselves are the constants of the constructor. *)
Definition trickle_sound (n : Node) : Prop :=
  Imin n = 1%Z ∧ Imax n = 8%Z ∧ trickle_bounded n.

(** ** The rest of the code, and words for statements about it *)

(** [int(s, 16)]: reading a hexadecimal string back. *)
Definition hex_int (s : string) : option N :=
  match HexadecimalString.NilZero.uint_of_string s with
  | Some d => Some (N.of_hex_uint d)
  | None => None
  end.

(** [c in s] for a character and a string. *)
Fixpoint occurs (c : ascii) (s : string) : Prop :=
  match s with
  | EmptyString => False
  | String a r => a = c ∨ occurs c r
  end.

(** [get_pdr], [get_overhead_packets] and [get_energy_used] of
    [performance.py]; the quotient of [get_pdr] is a float in the source
    and a rational here. *)
Definition get_pdr (m : PerformanceMonitor) : Q :=
  if Nat.eqb (total_data_sent m) 0 then 0%Q
  else (Z.of_nat (total_data_delivered m) # Pos.of_nat (total_data_sent m))%Q.

Definition get_overhead_packets (m : PerformanceMonitor) : nat :=
  control_packets_sent m.

Definition get_energy_used (m : PerformanceMonitor) : Q := energy_used m.

(** The calls [victim_node.receive_dao(fake_prefix, self.attacker_node)]
    of successive rounds of [launch] that hit the same victim, one per
    forged prefix. *)
Definition flood (w : World) (victim attacker : nat) (ps : list string) : World :=
  foldl (λ acc p, receive_dao acc victim p attacker) w ps.

(** Node [i] of the arena carries the number [i], and it is the root
    exactly when [i] is 0. *)
Definition identified (w : World) : Prop :=
  ∀ i n, all_nodes w !! i = Some n →
         node_num n = N.of_nat i ∧ is_root n = bool_decide (i = 0%nat).

(** A root has no parent. *)
Definition root_orphan (n : Node) : Prop :=
  is_root n = true → parent n = None.

(** The interval bound is one of the four values the doubling can reach. *)
Definition trickle_level (n : Node) : Prop :=
  Imax n = 8%Z ∧ trickle_I n ∈ [1%Z; 2%Z; 4%Z; 8%Z].

(** ** A closer look at the elementary updates

    The list [prim] above says what a handler may do to the nodes.  The
    list below also keeps what the handlers know when they do it: a DIO is
    sent to a node that has the sender in its neighbour list, a parent is
    taken among the neighbours, a node is created at an accepted position,
    and the monitor moves in the few ways the callbacks are paired in the
    source. *)

Definition carries_data (m : Message) : bool :=
  match m with
  | DATA _ => true
  | _ => false
  end.

(** Data packets waiting in an inbox, in all inboxes, and in flight. *)
Definition data_in (q : list Message) : nat :=
  length (List.filter carries_data q).

Definition data_in_inboxes (w : World) : nat :=
  sum_list ((λ n, data_in (inbox n)) <$> all_nodes w).

Definition data_in_flight (w : World) : nat :=
  length (List.filter (λ jm, carries_data jm.2) (in_flight w)).

Section Refined.

Variable calculate_distance : Position → Position → Q.
Variable MINIMUM_DISTANCE : Q.

Inductive eprim : World → World → Prop :=
| e_control w :
    eprim w (control_tx w)
| e_push_dis j s w :
    s ≠ j → (s < length (all_nodes w))%nat →
    eprim w (push_inbox j (DIS s) w)
| e_push_dio j s w :
    neighbor_of w s j →
    eprim w (push_inbox j (DIO s) w)
| e_push_dao j c p w :
    eprim w (push_inbox j (DAO c p) w)
| e_pop i n m rest w :
    all_nodes w !! i = Some n → inbox n = m :: rest → carries_data m = false →
    eprim w (upd_node i (set_inbox rest) w)
| e_handshake self sender n s w :
    all_nodes w !! self = Some n → all_nodes w !! sender = Some s →
    self ≠ sender → sender ∉ neighbors n → self ∉ neighbors s →
    eprim w (upd_node sender (append_neighbor self)
               (upd_node self (append_neighbor sender) w))
| e_parent i n p pfx w :
    all_nodes w !! i = Some n → is_root n = false → p ∈ neighbors n →
    eprim w (upd_node i (set_parent_prefix p pfx) w)
| e_route i n p c w :
    all_nodes w !! i = Some n →
    (size (downward_routes n) < max_downward_routes n)%nat →
    eprim w (upd_node i (store_route p c) w)
| e_trickle i u w :
    (0 <= u)%Q → (u < 1)%Q →
    eprim w (upd_node i (trickle_update u) w)
| e_ack j f p st w :
    eprim w (transmit_later j (DAO_ACK f p st) w)
| e_land j m rest w :
    in_flight w = (j, m) :: rest →
    eprim w (push_inbox j m (mkWorld (all_nodes w) rest (monitor w)))
| e_create pos u w :
    valid_pos calculate_distance MINIMUM_DISTANCE w pos = true →
    (0 <= u)%Q → (u < 1)%Q →
    eprim w (create_node w pos u)
| e_traffic pkt src w :
    eprim w (send_packet (upd_monitor on_data_packet_created w) pkt src)
| e_data i n pkt rest w :
    all_nodes w !! i = Some n → inbox n = DATA pkt :: rest →
    eprim w (handle_packet (upd_monitor on_receive (upd_node i (set_inbox rest) w)) i pkt).

(** No two nodes are closer than the minimum distance, measured from the
    older node as [create_nodes] does. *)
Definition separated (w : World) : Prop :=
  ∀ i j pi pj,
    (i < j)%nat →
    (position <$> all_nodes w) !! i = Some pi →
    (position <$> all_nodes w) !! j = Some pj →
    Qltb (calculate_distance pi pj) MINIMUM_DISTANCE = false.

End Refined.

(** A node trusts as parent only a neighbour: the sender of a DIO in its
    inbox is in its neighbour list, and so is its parent. *)
Definition attached (n : Node) : Prop :=
  (∀ s, DIO s ∈ inbox n → s ∈ neighbors n)
  ∧ (∀ p, parent n = Some p → p ∈ neighbors n).

(** Every delivered packet, and every packet waiting or in flight, was
    created by the traffic source. *)
Definition accounted (w : World) : Prop :=
  (total_data_delivered (monitor w) + data_in_inboxes w + data_in_flight w
   ≤ total_data_sent (monitor w))%nat.

(** Every control packet and every data packet created has been charged
    one transmission. *)
Definition charged (m : PerformanceMonitor) : Prop :=
  ((3 # 4) * inject_Z (Z.of_nat (control_packets_sent m + total_data_sent m))
   <= energy_used m)%Q.

(** The sample run goes on: node 2 sends a data packet to the prefix of
    node 1; the acknowledgment still in flight and the packet land in the
    inbox of node 2, which handles both and forwards the packet to its
    parent, where it is delivered. *)
Definition line_traffic : World := generate_traffic line_joined 2 1 0.

Definition line_delivered : World :=
  let w := deliver (deliver line_traffic) in
  let w := run_inbox euclid 4 (run_inbox euclid 4 w 2) 2 in
  run_inbox euclid 4 (deliver w) 1.

(** ** Tactics for the sample worlds *)

(** The node at a given place of a sample world. *)
Ltac node_at w i n E :=
  destruct (all_nodes w !! i) as [n|] eqn:E; [|vm_compute in E; discriminate E];
  let V := fresh "V" in
  pose proof E as V; vm_compute in V; injection V as <-.

(** A computed equation between options gives the value of its variable. *)
Ltac known H := vm_compute in H; try discriminate H; injection H as <-.

(** * Properties *)

(** ** Formatting *)

Example d02_7 : Fmt.d02 7 = "07". Proof. reflexivity. Qed.
Example d02_42 : Fmt.d02 42 = "42". Proof. reflexivity. Qed.
Example d02_100 : Fmt.d02 100 = "100". Proof. reflexivity. Qed.
Example x02_10 : Fmt.x02 10 = "0a". Proof. reflexivity. Qed.
Example x02_255 : Fmt.x02 255 = "ff". Proof. reflexivity. Qed.
Example hex_9999 : Fmt.hex 9999 = "270f". Proof. reflexivity. Qed.
Example int_07 : Fmt.int "07" = Some 7%N. Proof. reflexivity. Qed.

Lemma int_dec n : Fmt.int (Fmt.dec n) = Some n.
Proof.
  unfold Fmt.int, Fmt.dec.
  rewrite DecimalString.NilZero.usu.
  - by rewrite DecimalN.Unsigned.of_to.
  - destruct n as [|p]; [done|]. apply DecimalPos.Unsigned.to_uint_nonnil.
Qed.

Lemma int_zeros k s n : Fmt.int s = Some n → Fmt.int (Fmt.zeros k ++ s) = Some n.
Proof.
  intros Hs. induction k as [|k IH]; [done|].
  unfold Fmt.int in *. simpl.
  destruct (DecimalString.NilZero.uint_of_string (Fmt.zeros k ++ s)) as [d|] eqn:Hd;
    [|done].
  unfold DecimalString.NilZero.uint_of_string in *.
  destruct (Fmt.zeros k ++ s) as [|a r] eqn:Hr; [done|].
  simpl in *. by rewrite Hd.
Qed.

(** The number of a node is read back from its identifier:
    [int(node_id[4:])] is the [i] of [f"Node{i:02d}"]. *)
Lemma node_id_suffix n : Fmt.int (Fmt.drop_prefix 4 (node_id n)) = Some (node_num n).
Proof. unfold node_id, Fmt.d02, Fmt.pad. simpl. apply int_zeros, int_dec. Qed.

(** ** Reading the arena after an update *)

Lemma nodes_upd_node i f w :
  all_nodes (upd_node i f w) = alter f i (all_nodes w).
Proof. reflexivity. Qed.

Lemma nodes_control_tx w : all_nodes (control_tx w) = all_nodes w.
Proof. reflexivity. Qed.

Lemma nodes_transmit_later j m w : all_nodes (transmit_later j m w) = all_nodes w.
Proof. reflexivity. Qed.

Lemma lookup_upd_node_eq i f w :
  all_nodes (upd_node i f w) !! i = f <$> all_nodes w !! i.
Proof. apply list_lookup_alter_eq. Qed.

Lemma lookup_upd_node_ne i j f w :
  i ≠ j → all_nodes (upd_node i f w) !! j = all_nodes w !! j.
Proof. intros. by apply list_lookup_alter_ne. Qed.

Lemma lookup_upd_node i j f w n :
  all_nodes w !! j = Some n →
  all_nodes (upd_node i f w) !! j = Some (if decide (i = j) then f n else n).
Proof.
  intros Hj. destruct (decide (i = j)) as [->|Hne].
  - by rewrite lookup_upd_node_eq, Hj.
  - by rewrite lookup_upd_node_ne.
Qed.

Lemma lookup_push_inbox i j m w n :
  all_nodes w !! j = Some n →
  all_nodes (push_inbox i m w) !! j
  = Some (if decide (i = j) then append_inbox m n else n).
Proof. apply lookup_upd_node. Qed.

(** ** Route announcements: [receive_dao] *)

(** The three outcomes of [receive_dao], as equations. *)
Lemma receive_dao_duplicate w self n p c :
  all_nodes w !! self = Some n →
  downward_routes n !! p = Some c →
  receive_dao w self p c = w.
Proof.
  intros Hn Hdup. unfold receive_dao. rewrite Hn.
  by rewrite bool_decide_eq_true_2.
Qed.

Lemma receive_dao_overloaded w self n p c :
  all_nodes w !! self = Some n →
  downward_routes n !! p ≠ Some c →
  (max_downward_routes n ≤ size (downward_routes n))%nat →
  receive_dao w self p c = w.
Proof.
  intros Hn Hnew Hfull. unfold receive_dao. rewrite Hn.
  rewrite bool_decide_eq_false_2 by done.
  by rewrite bool_decide_eq_true_2.
Qed.

Lemma receive_dao_store w self n p c :
  all_nodes w !! self = Some n →
  downward_routes n !! p ≠ Some c →
  (size (downward_routes n) < max_downward_routes n)%nat →
  receive_dao w self p c
  = send_dao_ack
      (match parent n with
       | Some q => push_inbox q (DAO c p) (control_tx (upd_node self (store_route p c) w))
       | None => upd_node self (store_route p c) w
       end) self c p 0.
Proof.
  intros Hn Hnew Hroom. unfold receive_dao. rewrite Hn.
  rewrite bool_decide_eq_false_2 by done.
  rewrite bool_decide_eq_false_2 by lia. done.
Qed.

(** What an accepted announcement leaves behind: the route is stored in
    the table of [self], every other field of [self] but its inbox is
    untouched, the parent (if any) finds the same announcement at the end
    of its inbox, and one acknowledgment with status 0 is on its way to
    the child. *)
Lemma receive_dao_store_spec w self n p c :
  all_nodes w !! self = Some n →
  downward_routes n !! p ≠ Some c →
  (size (downward_routes n) < max_downward_routes n)%nat →
  (∃ n', all_nodes (receive_dao w self p c) !! self = Some n'
         ∧ downward_routes n' = <[p := c]> (downward_routes n)
         ∧ max_downward_routes n' = max_downward_routes n
         ∧ parent n' = parent n ∧ prefix n' = prefix n)
  ∧ (∀ q nq, parent n = Some q → all_nodes w !! q = Some nq →
       ∃ nq', all_nodes (receive_dao w self p c) !! q = Some nq'
              ∧ inbox nq' = (inbox nq ++ [DAO c p])%list)
  ∧ (parent n = None →
       ∀ j nj, all_nodes w !! j = Some nj →
         ∃ nj', all_nodes (receive_dao w self p c) !! j = Some nj'
                ∧ inbox nj' = inbox nj)
  ∧ in_flight (receive_dao w self p c)
    = (in_flight w ++ [(c, DAO_ACK self p 0)])%list.
Proof.
  intros Hn Hnew Hroom.
  rewrite (receive_dao_store w self n p c) by done.
  unfold send_dao_ack. rewrite nodes_transmit_later, nodes_control_tx.
  split; [|split; [|split]].
  - destruct (parent n) as [q|] eqn:Hp.
    + erewrite lookup_push_inbox;
        [|rewrite nodes_control_tx; erewrite lookup_upd_node by done; done].
      eexists; split; [done|]. repeat case_decide; done.
    + erewrite lookup_upd_node by done.
      eexists; split; [done|]. repeat case_decide; done.
  - intros q nq Hp Hq. rewrite Hp.
    erewrite lookup_push_inbox;
      [|rewrite nodes_control_tx; erewrite lookup_upd_node by done; done].
    eexists; split; [done|]. repeat case_decide; simplify_eq; done.
  - intros Hp j nj Hj. rewrite Hp.
    erewrite lookup_upd_node by done.
    eexists; split; [done|]. by case_decide.
  - by destruct (parent n).
Qed.

(** C3.  A DAO whose (prefix, child) pair is already installed leaves the
    whole world as it is: no table change, nothing appended to any inbox
    (no forward), nothing put in flight (no acknowledgment), no counter
    moved.  Consequently handling any DAO twice in a row gives the same
    world as handling it once. *)
Theorem receive_dao_idempotent w self n p c :
  all_nodes w !! self = Some n →
  (downward_routes n !! p = Some c → receive_dao w self p c = w)
  ∧ receive_dao (receive_dao w self p c) self p c = receive_dao w self p c.
Proof.
  intros Hn. split; [by apply receive_dao_duplicate|].
  destruct (decide (downward_routes n !! p = Some c)) as [Hdup|Hnew].
  { by rewrite !(receive_dao_duplicate w self n p c). }
  destruct (decide (max_downward_routes n ≤ size (downward_routes n))%nat)
    as [Hfull|Hroom].
  { by rewrite !(receive_dao_overloaded w self n p c). }
  destruct (receive_dao_store_spec w self n p c) as [(n' & Hn' & Hr & _) _];
    [done|done|lia|].
  apply (receive_dao_duplicate _ self n'); [done|].
  rewrite Hr. apply lookup_insert_eq.
Qed.

Lemma receive_dao_idempotent_witness :
  (downward_routes (relay 1 1 {[route_a := 2]} (Some 0)) !! route_a = Some 2 →
   receive_dao full_world 1 route_a 2 = full_world)
  ∧ receive_dao (receive_dao full_world 1 route_a 2) 1 route_a 2
    = receive_dao full_world 1 route_a 2.
Proof.
  apply (receive_dao_idempotent full_world 1 (relay 1 1 {[route_a := 2]} (Some 0))).
  reflexivity.
Defined.

(** C4.  A DAO that is neither a duplicate nor met by a full table is
    installed; when the receiver has a parent the same (prefix, child) pair
    is appended, as a DAO, to the parent's inbox; and an acknowledgment with
    status 0 is sent to the child. *)
Theorem receive_dao_install w self n p c :
  all_nodes w !! self = Some n →
  downward_routes n !! p ≠ Some c →
  (size (downward_routes n) < max_downward_routes n)%nat →
  (∃ n', all_nodes (receive_dao w self p c) !! self = Some n'
         ∧ downward_routes n' !! p = Some c)
  ∧ (∀ q nq, parent n = Some q → all_nodes w !! q = Some nq →
       ∃ nq', all_nodes (receive_dao w self p c) !! q = Some nq'
              ∧ inbox nq' = (inbox nq ++ [DAO c p])%list)
  ∧ in_flight (receive_dao w self p c)
    = (in_flight w ++ [(c, DAO_ACK self p 0)])%list.
Proof.
  intros Hn Hnew Hroom.
  destruct (receive_dao_store_spec w self n p c)
    as ((n' & Hn' & Hr & _) & Hfwd & _ & Hack); [done..|].
  split; [|done].
  exists n'. split; [done|]. rewrite Hr. apply lookup_insert_eq.
Qed.

Lemma receive_dao_install_witness :
  (∃ n', all_nodes (receive_dao roomy_world 1 route_b 3) !! 1 = Some n'
         ∧ downward_routes n' !! route_b = Some 3)
  ∧ (∀ q nq, parent (relay 1 2 {[route_a := 2]} (Some 0)) = Some q →
       all_nodes roomy_world !! q = Some nq →
       ∃ nq', all_nodes (receive_dao roomy_world 1 route_b 3) !! q = Some nq'
              ∧ inbox nq' = (inbox nq ++ [DAO 3 route_b])%list)
  ∧ in_flight (receive_dao roomy_world 1 route_b 3)
    = (in_flight roomy_world ++ [(3, DAO_ACK 1 route_b 0)])%list.
Proof.
  apply (receive_dao_install roomy_world 1 (relay 1 2 {[route_a := 2]} (Some 0))).
  - reflexivity.
  - vm_compute. discriminate.
  - vm_compute. lia.
Defined.

(** C10.  A DAO for a prefix that is installed with another child is not
    a duplicate.  Below capacity it overwrites the entry (the table keeps
    its size), is forwarded to the parent and acknowledged like a fresh
    route; at capacity it is rejected and the world stays as it is, although
    storing it would not have enlarged the table. *)
Theorem receive_dao_other_child w self n p c c' :
  all_nodes w !! self = Some n →
  downward_routes n !! p = Some c →
  c ≠ c' →
  ((size (downward_routes n) < max_downward_routes n)%nat →
     (∃ n', all_nodes (receive_dao w self p c') !! self = Some n'
            ∧ downward_routes n' !! p = Some c'
            ∧ size (downward_routes n') = size (downward_routes n))
     ∧ (∀ q nq, parent n = Some q → all_nodes w !! q = Some nq →
          ∃ nq', all_nodes (receive_dao w self p c') !! q = Some nq'
                 ∧ inbox nq' = (inbox nq ++ [DAO c' p])%list)
     ∧ in_flight (receive_dao w self p c')
       = (in_flight w ++ [(c', DAO_ACK self p 0)])%list)
  ∧ ((max_downward_routes n ≤ size (downward_routes n))%nat →
     receive_dao w self p c' = w
     ∧ size (<[p := c']> (downward_routes n)) = size (downward_routes n)).
Proof.
  intros Hn Hold Hne.
  assert (Hnew : downward_routes n !! p ≠ Some c') by (rewrite Hold; congruence).
  assert (Hsize : size (<[p := c']> (downward_routes n)) = size (downward_routes n)).
  { by rewrite map_size_insert_Some. }
  split.
  - intros Hroom.
    destruct (receive_dao_store_spec w self n p c')
      as ((n' & Hn' & Hr & _) & Hfwd & _ & Hack); [done..|].
    split; [|done].
    exists n'. split; [done|]. rewrite Hr. split; [apply lookup_insert_eq|done].
  - intros Hfull. split; [|done]. by apply (receive_dao_overloaded w self n).
Qed.

Lemma receive_dao_other_child_witness :
  ((size (downward_routes (relay 1 2 {[route_a := 2]} (Some 0))) < 2)%nat →
     (∃ n', all_nodes (receive_dao roomy_world 1 route_a 3) !! 1 = Some n'
            ∧ downward_routes n' !! route_a = Some 3
            ∧ size (downward_routes n') = 1%nat)
     ∧ (∀ q nq, Some 0%nat = Some q → all_nodes roomy_world !! q = Some nq →
          ∃ nq', all_nodes (receive_dao roomy_world 1 route_a 3) !! q = Some nq'
                 ∧ inbox nq' = (inbox nq ++ [DAO 3 route_a])%list)
     ∧ in_flight (receive_dao roomy_world 1 route_a 3)
       = [(3%nat, DAO_ACK 1 route_a 0)])
  ∧ ((1 ≤ size (downward_routes (relay 1 1 {[route_a := 2]} (Some 0))))%nat →
     receive_dao full_world 1 route_a 3 = full_world).
Proof.
  split.
  - apply (proj1 (receive_dao_other_child roomy_world 1
             (relay 1 2 {[route_a := 2]} (Some 0)) route_a 2 3
             eq_refl eq_refl ltac:(lia))).
  - intros H.
    apply (proj2 (receive_dao_other_child full_world 1
             (relay 1 1 {[route_a := 2]} (Some 0)) route_a 2 3
             eq_refl eq_refl ltac:(lia))).
    exact H.
Defined.

(** ** Data packets: [handle_packet] *)

Lemma shows_unique w w' pkt o1 o2 :
  shows w w' pkt o1 → shows w w' pkt o2 → o1 = o2.
Proof.
  destruct o1 as [|h1|], o2 as [|h2|]; simpl; try done.
  - intros (_ & Hf & _) (_ & Hf' & _). rewrite Hf in Hf'.
    apply (f_equal length) in Hf'. rewrite length_app in Hf'. simpl in Hf'. lia.
  - intros (_ & _ & Hd) ->. lia.
  - intros (_ & Hf & _) (_ & Hf' & _). rewrite Hf in Hf'.
    apply (f_equal length) in Hf'. rewrite length_app in Hf'. simpl in Hf'. lia.
  - intros (_ & Hf & _) (_ & Hf' & _). rewrite Hf in Hf'.
    apply app_inv_head in Hf'. congruence.
  - intros (_ & Hf & _) ->.
    apply (f_equal length) in Hf. rewrite length_app in Hf. simpl in Hf. lia.
  - intros -> (_ & _ & Hd). lia.
  - intros -> (_ & Hf & _).
    apply (f_equal length) in Hf. rewrite length_app in Hf. simpl in Hf. lia.
Qed.

Lemma handle_packet_shows w self n pkt :
  all_nodes w !! self = Some n →
  shows w (handle_packet w self pkt) pkt (forwarding_priority n (dst_prefix pkt)).
Proof.
  intros Hn. unfold handle_packet, forwarding_priority. rewrite Hn.
  case_bool_decide; [done|].
  destruct (downward_routes n !! dst_prefix pkt); [done|].
  by destruct (parent n).
Qed.

(** C7.  A node handling a data packet for destination [D] does exactly
    one thing, chosen in this order: deliver if [D] is its own prefix, else
    forward to the child stored for [D], else forward to its parent, else
    drop.  Delivery is reported to the monitor and nothing is sent; a drop
    changes nothing, so the delivery counter stays as it is. *)
Theorem handle_packet_priority w self n pkt :
  all_nodes w !! self = Some n →
  shows w (handle_packet w self pkt) pkt (forwarding_priority n (dst_prefix pkt))
  ∧ (∀ o, shows w (handle_packet w self pkt) pkt o →
          o = forwarding_priority n (dst_prefix pkt))
  ∧ (dst_prefix pkt ≠ prefix n → downward_routes n !! dst_prefix pkt = None →
     parent n = None →
     handle_packet w self pkt = w
     ∧ total_data_delivered (monitor (handle_packet w self pkt))
       = total_data_delivered (monitor w)).
Proof.
  intros Hn. pose proof (handle_packet_shows w self n pkt Hn) as Hs.
  split; [done|]. split.
  - intros o Ho. by apply (shows_unique w (handle_packet w self pkt) pkt).
  - intros Hd Hr Hp. unfold forwarding_priority in Hs.
    rewrite bool_decide_eq_false_2, Hr, Hp in Hs by done.
    simpl in Hs. by rewrite Hs.
Qed.

Lemma handle_packet_priority_witness :
  shows full_world (handle_packet full_world 0 stray_packet) stray_packet
        (forwarding_priority (Node_init 0 (0, 0)%Q true 0) (dst_prefix stray_packet))
  ∧ (∀ o, shows full_world (handle_packet full_world 0 stray_packet) stray_packet o →
          o = forwarding_priority (Node_init 0 (0, 0)%Q true 0) (dst_prefix stray_packet))
  ∧ (dst_prefix stray_packet ≠ prefix (Node_init 0 (0, 0)%Q true 0) →
     downward_routes (Node_init 0 (0, 0)%Q true 0) !! dst_prefix stray_packet = None →
     parent (Node_init 0 (0, 0)%Q true 0) = None →
     handle_packet full_world 0 stray_packet = full_world
     ∧ total_data_delivered (monitor (handle_packet full_world 0 stray_packet))
       = total_data_delivered (monitor full_world)).
Proof.
  apply (handle_packet_priority full_world 0 (Node_init 0 (0, 0)%Q true 0)).
  reflexivity.
Defined.

Example handle_packet_delivers :
  handle_packet full_world 2 (mkPacket "Node01" "2001:db8::02" 64 0)
  = upd_monitor on_data_packet_delivered full_world.
Proof. reflexivity. Qed.

Example handle_packet_forwards_down :
  in_flight (handle_packet full_world 1 (mkPacket "Node00" route_a 64 0))
  = [(2, DATA (mkPacket "Node00" route_a 64 0))].
Proof. reflexivity. Qed.

Example handle_packet_forwards_up :
  in_flight (handle_packet full_world 1 stray_packet) = [(0, DATA stray_packet)].
Proof. reflexivity. Qed.

Example handle_packet_drops :
  handle_packet full_world 0 stray_packet = full_world.
Proof. reflexivity. Qed.

(** ** Parent selection: [receive_dio] *)

Lemma Qltb_lt x y : Qltb x y = true ↔ (x < y)%Q.
Proof.
  unfold Qltb. rewrite negb_true_iff, <- not_true_iff_false, Qle_bool_iff.
  split; [apply Qnot_le_lt | apply Qlt_not_le].
Qed.

Lemma adopt_adopted w self sender n s :
  all_nodes w !! self = Some n → all_nodes w !! sender = Some s →
  adopted w (adopt w self sender) self sender.
Proof.
  intros Hn Hs. unfold adopt. rewrite Hn, Hs. unfold send_dao.
  rewrite lookup_upd_node_eq, Hn. simpl.
  exists n, s. do 2 eexists. split; [done|]. split; [done|].
  split.
  { erewrite lookup_push_inbox;
      [|rewrite nodes_control_tx; erewrite lookup_upd_node by done; done].
    reflexivity. }
  split.
  { erewrite lookup_push_inbox;
      [|rewrite nodes_control_tx; erewrite lookup_upd_node by done; done].
    reflexivity. }
  repeat case_decide; simplify_eq; done.
Qed.

Lemma not_adopted_same w self sender : ¬ adopted w w self sender.
Proof.
  intros (n & s & n' & s' & Hn & Hs & Hn' & Hs' & _ & _ & Hi).
  simplify_eq. apply (f_equal length) in Hi.
  rewrite length_app in Hi. simpl in Hi. lia.
Qed.

Section ParentSelection.

Variable calculate_distance : Position → Position → Q.

Local Abbreviation receive_dio := (receive_dio calculate_distance).
Local Abbreviation dist n m := (calculate_distance (position n) (position m)).

(** C5.  A root ignores a DIO.  A non-root node without a parent takes
    the sender.  A non-root node with a parent takes the sender exactly
    when the sender is strictly closer than the current parent and does
    not have this node as its own parent; otherwise, and in particular
    when both are equally far, nothing changes.  Taking the sender means
    what [adopted] says: new parent, prefix derived again, DAO issued. *)
Theorem receive_dio_parent_selection w self sender n s :
  all_nodes w !! self = Some n →
  all_nodes w !! sender = Some s →
  (is_root n = true → receive_dio w self sender = w)
  ∧ (is_root n = false → parent n = None →
     adopted w (receive_dio w self sender) self sender)
  ∧ (is_root n = false →
     ∀ p cur, parent n = Some p → all_nodes w !! p = Some cur →
       (adopted w (receive_dio w self sender) self sender
        ↔ (dist n s < dist n cur)%Q ∧ parent s ≠ Some self)
       ∧ (¬ ((dist n s < dist n cur)%Q ∧ parent s ≠ Some self) →
          receive_dio w self sender = w)
       ∧ ((dist n s == dist n cur)%Q → receive_dio w self sender = w)).
Proof.
  intros Hn Hs. unfold receive_dio. rewrite Hn, Hs.
  split; [by intros ->|]. split.
  { intros -> ->. by apply (adopt_adopted w self sender n s). }
  intros -> p cur -> ->.
  assert (Hg : switch_guard calculate_distance self n s cur = true
               ↔ (dist n s < dist n cur)%Q ∧ parent s ≠ Some self).
  { unfold switch_guard. rewrite andb_true_iff, Qltb_lt, bool_decide_eq_true. done. }
  destruct (switch_guard calculate_distance self n s cur) eqn:Hsw.
  - destruct (proj1 Hg eq_refl) as [Hlt Hpar].
    split; [|split].
    + split; [done|intros _; by apply (adopt_adopted w self sender n s)].
    + intros Hno. by destruct Hno.
    + intros Heq. rewrite Heq in Hlt. by apply Qlt_irrefl in Hlt.
  - split; [|done].
    split; [intros Ha; by apply not_adopted_same in Ha|].
    intros Hyes. apply Hg in Hyes. done.
Qed.

End ParentSelection.
Lemma receive_dio_parent_selection_witness :
  adopted switch_world (receive_dio euclid switch_world 1 2) 1 2
  ∧ receive_dio euclid switch_world 1 3 = switch_world.
Proof.
  split.
  - destruct (receive_dio_parent_selection euclid switch_world 1 2
                (member 1 6 (Some 0) "2001:db8::1:01")
                (member 2 3 (Some 0) "2001:db8::1:02") eq_refl eq_refl)
      as (_ & _ & H).
    destruct (H eq_refl 0 (Node_init 0 (0, 0)%Q true 0) eq_refl eq_refl)
      as (Hiff & _ & _).
    apply Hiff. split; [reflexivity | discriminate].
  - destruct (receive_dio_parent_selection euclid switch_world 1 3
                (member 1 6 (Some 0) "2001:db8::1:01")
                (member 3 12 (Some 0) "2001:db8::1:03") eq_refl eq_refl)
      as (_ & _ & H).
    destruct (H eq_refl 0 (Node_init 0 (0, 0)%Q true 0) eq_refl eq_refl)
      as (_ & _ & Htie).
    apply Htie. reflexivity.
Defined.

(** ** The attack agent: [launch] *)

Lemma elem_of_possible_victims w attacker v :
  v ∈ possible_victims w attacker
  ↔ v ≠ attacker
    ∧ ∃ node, all_nodes w !! v = Some node ∧ (0 < size (downward_routes node))%nat.
Proof.
  unfold possible_victims. rewrite list_elem_of_In, filter_In, in_seq.
  unfold eligible. split.
  - intros [_ He]. destruct (all_nodes w !! v) as [node|]; [|done].
    apply andb_true_iff in He as [H1 H2].
    apply bool_decide_eq_true in H1, H2. eauto.
  - intros (Hne & node & Hv & Hs). split.
    + apply lookup_lt_Some in Hv. lia.
    + rewrite Hv. apply andb_true_iff.
      split; by apply bool_decide_eq_true.
Qed.

(** C9.  The attacker's candidates are exactly the nodes other than
    itself whose downward-route table is not empty.  In a round, either
    one of them receives a direct call of its DAO handler with the forged
    prefix and the attacker as child, or there is no candidate and the
    round changes nothing.  When no other node holds a route, no call is
    made. *)
Theorem launch_round_eligibility w attacker k fake_num count :
  (∀ v, v ∈ possible_victims w attacker
        ↔ v ≠ attacker
          ∧ ∃ node, all_nodes w !! v = Some node
                    ∧ (0 < size (downward_routes node))%nat)
  ∧ ((∃ v, v ∈ possible_victims w attacker
           ∧ launch_round w attacker k fake_num count
             = (receive_dao w v (fake_prefix fake_num) attacker, S count))
     ∨ (possible_victims w attacker = []
        ∧ launch_round w attacker k fake_num count = (w, count)))
  ∧ ((∀ j node, all_nodes w !! j = Some node → j ≠ attacker →
               size (downward_routes node) = 0%nat) →
     launch_round w attacker k fake_num count = (w, count)).
Proof.
  split; [apply elem_of_possible_victims|].
  assert (Hcases :
    (∃ v, v ∈ possible_victims w attacker
          ∧ launch_round w attacker k fake_num count
            = (receive_dao w v (fake_prefix fake_num) attacker, S count))
    ∨ (possible_victims w attacker = []
       ∧ launch_round w attacker k fake_num count = (w, count))).
  { unfold launch_round.
    destruct (possible_victims w attacker) as [|v0 vs] eqn:Hv; [by right|].
    left.
    destruct (lookup_lt_is_Some_2 (v0 :: vs) (k `mod` length (v0 :: vs)))
      as [v Hk].
    { apply Nat.mod_upper_bound. simpl. lia. }
    rewrite Hk. exists v. split; [|done].
    apply list_elem_of_lookup. eauto. }
  split; [done|].
  intros Hnone. destruct Hcases as [(v & Hin & _)|[_ Heq]]; [|done].
  apply elem_of_possible_victims in Hin as (Hne & node & Hv & Hs).
  specialize (Hnone v node Hv Hne). lia.
Qed.

Lemma launch_round_eligibility_witness :
  launch_round switch_world 2 5 4242 0 = (switch_world, 0%nat).
Proof.
  apply (launch_round_eligibility switch_world 2 5 4242 0).
  intros [|[|[|[|j]]]] node Hj _; simpl in Hj; inversion Hj; reflexivity.
Defined.

Example launch_round_hits_relay :
  launch_round full_world 3 7 4242 0
  = (receive_dao full_world 1 "2001:db8::1092" 3, 1%nat).
Proof. reflexivity. Qed.

(** ** Invariants and elementary updates *)

Lemma lookup_upd_node_inv i f w j n' :
  all_nodes (upd_node i f w) !! j = Some n' →
  ∃ n, all_nodes w !! j = Some n ∧ n' = if decide (i = j) then f n else n.
Proof.
  rewrite nodes_upd_node, list_lookup_alter.
  destruct (decide (i = j)) as [->|Hne].
  - destruct (all_nodes w !! j) as [n|]; [|done]. intros [= <-]. eauto.
  - eauto.
Qed.

Lemma length_upd_node i f w :
  length (all_nodes (upd_node i f w)) = length (all_nodes w).
Proof. apply length_alter. Qed.

Lemma uniform_bounds a b u :
  (a ≤ b)%Z → (0 <= u)%Q → (u < 1)%Q →
  (inject_Z a <= uniform a b u)%Q ∧ (uniform a b u <= inject_Z b)%Q.
Proof.
  intros Hab H0 H1. unfold uniform.
  rewrite Zle_Qle in Hab.
  set (x := inject_Z a) in *. set (y := inject_Z b) in *.
  split; nra.
Qed.

(** *** Properties of single nodes *)

Lemma within_capacity_invariant : node_invariant within_capacity.
Proof.
  split; unfold within_capacity; simpl; try done.
  - intros. rewrite map_size_empty. lia.
  - intros p c n Hroom _.
    rewrite map_size_insert. destruct (downward_routes n !! p); simpl; lia.
Qed.

Lemma root_prefix_fixed_invariant : node_invariant root_prefix_fixed.
Proof.
  split; unfold root_prefix_fixed; simpl; try done.
  - by intros num pos [] u _ _.
  - intros p pfx n Hroot _ Hr. congruence.
Qed.

Lemma trickle_sound_invariant : node_invariant trickle_sound.
Proof.
  split; unfold trickle_sound, trickle_bounded; simpl; try done.
  - intros num pos root u H0 H1. split; [done|]. split; [done|].
    split; [lia|]. apply (uniform_bounds 1 1 u); [lia|done..].
  - intros u n H0 H1 (Hmin & Hmax & Hi & _). split; [done|]. split; [done|].
    split; [lia|]. apply uniform_bounds; [lia|done..].
Qed.

Lemma prim_keeps_nodes P w w' :
  node_invariant P → prim w w' →
  Forall P (all_nodes w) → Forall P (all_nodes w').
Proof.
  intros HP Hprim Hall.
  destruct Hprim
    as [j m w Hc | i n m rest w Hn Hi | self sender n s w Hn Hs Hne H1 H2
       | i n p pfx w Hn Hr | i n p c w Hn Hroom | i u w H0 H1 | f w
       | j m w Hm | j m rest w Hf | pos u w H0 H1]; simpl.
  - apply Forall_alter; [done|]. intros x _ Hx. by apply (ni_inbox P HP).
  - apply Forall_alter; [done|]. intros x _ Hx. by apply (ni_inbox P HP).
  - apply Forall_alter; [apply Forall_alter; [done|]|].
    + intros x _ Hx. by apply (ni_neighbor P HP).
    + intros x _ Hx. by apply (ni_neighbor P HP).
  - apply Forall_alter; [done|]. intros x Hx Hpx. simplify_eq. by apply (ni_parent P HP).
  - apply Forall_alter; [done|]. intros x Hx Hpx. simplify_eq. by apply (ni_route P HP).
  - apply Forall_alter; [done|]. intros x _ Hx. by apply (ni_trickle P HP).
  - done.
  - done.
  - apply Forall_alter; [done|]. intros x _ Hx. by apply (ni_inbox P HP).
  - apply Forall_app. split; [done|]. constructor; [|done]. by apply (ni_init P HP).
Qed.

(** *** The neighbour relation *)

Lemma link_inv_same_nodes w w' :
  all_nodes w' = all_nodes w →
  (∀ j m, (j, m) ∈ in_flight w' → (j, m) ∈ in_flight w ∨ announced_sender m = None) →
  link_inv w → link_inv w'.
Proof.
  intros Hnodes Hfl [Hmut Hsend Hflight]. split.
  - intros i n a. unfold neighbor_of. rewrite Hnodes. apply Hmut.
  - rewrite Hnodes. apply Hsend.
  - intros j m Hjm. destruct (Hfl j m Hjm) as [Hold|Hnone]; [by eapply Hflight|done].
Qed.

Lemma link_inv_upd_node i f w :
  link_inv w →
  (∀ n, neighbors (f n) = neighbors n) →
  (∀ n m s, all_nodes w !! i = Some n → m ∈ inbox (f n) →
            announced_sender m = Some s →
            m ∈ inbox n ∨ (s ≠ i ∧ (s < length (all_nodes w))%nat)) →
  link_inv (upd_node i f w).
Proof.
  intros [Hmut Hsend Hfl] Hnb Hin. split.
  - intros j n' a Hj Ha.
    apply lookup_upd_node_inv in Hj as (n & Hj & ->).
    assert (a ∈ neighbors n) as Ha'.
    { case_decide; [by rewrite Hnb in Ha | done]. }
    clear Ha.
    destruct (Hmut j n a Hj Ha') as (Hne & na & Hna & Hja).
    split; [done|]. unfold neighbor_of.
    erewrite lookup_upd_node by done. eexists; split; [done|].
    case_decide; [by rewrite Hnb | done].
  - intros j n' m s Hj Hm Hs. rewrite length_upd_node.
    apply lookup_upd_node_inv in Hj as (n & Hj & ->).
    case_decide as Hij.
    + subst j. destruct (Hin n m s Hj Hm Hs) as [Hold|Hnew]; [|done].
      by eapply Hsend.
    + by eapply Hsend.
  - done.
Qed.

Lemma link_inv_push j m w :
  (∀ s, announced_sender m = Some s → s ≠ j ∧ s < length (all_nodes w))%nat →
  link_inv w → link_inv (push_inbox j m w).
Proof.
  intros Hm Hinv. apply link_inv_upd_node; [done..|].
  intros n m' s _ Hin Hs. simpl in Hin.
  apply elem_of_app in Hin as [Hold|Hnew]; [by left|].
  apply list_elem_of_singleton in Hnew as ->. right. by apply Hm.
Qed.

(** The two appends of the discovery handshake, seen from any node. *)
Lemma handshake_lookup self sender w j n' :
  all_nodes (upd_node sender (append_neighbor self)
               (upd_node self (append_neighbor sender) w)) !! j = Some n' →
  ∃ n, all_nodes w !! j = Some n ∧ inbox n' = inbox n
       ∧ ∀ a, a ∈ neighbors n'
              ↔ a ∈ neighbors n ∨ (j = self ∧ a = sender) ∨ (j = sender ∧ a = self).
Proof.
  intros Hj.
  apply lookup_upd_node_inv in Hj as (n1 & Hj & ->).
  apply lookup_upd_node_inv in Hj as (n & Hj & ->).
  exists n. split; [done|].
  destruct (decide (sender = j)) as [Hs|Hs], (decide (self = j)) as [Hn|Hn];
    simpl; (split; [done|]); intros a;
    rewrite ?elem_of_app, ?list_elem_of_singleton; intuition congruence.
Qed.

Lemma handshake_lookup_2 self sender w j n :
  all_nodes w !! j = Some n →
  ∃ n', all_nodes (upd_node sender (append_neighbor self)
                     (upd_node self (append_neighbor sender) w)) !! j = Some n'.
Proof.
  intros Hj. erewrite lookup_upd_node; [eauto|].
  erewrite lookup_upd_node by done. done.
Qed.

Lemma link_inv_handshake self sender n s w :
  all_nodes w !! self = Some n → all_nodes w !! sender = Some s →
  self ≠ sender → link_inv w →
  link_inv (upd_node sender (append_neighbor self)
              (upd_node self (append_neighbor sender) w)).
Proof.
  intros Hself Hsender Hne [Hmut Hsend Hfl].
  assert (Hnew : ∀ j a nj,
            all_nodes w !! j = Some nj →
            (a ∈ neighbors nj ∨ (j = self ∧ a = sender) ∨ (j = sender ∧ a = self)) →
            neighbor_of (upd_node sender (append_neighbor self)
                           (upd_node self (append_neighbor sender) w)) a j).
  { intros j a nj Hj Hcase.
    destruct (handshake_lookup_2 self sender w j nj Hj) as [nj' Hnj'].
    exists nj'. split; [done|].
    destruct (handshake_lookup _ _ _ _ _ Hnj') as (nj0 & Hnj0 & _ & Hnb).
    simplify_eq. by apply Hnb. }
  split.
  - intros j n' a Hj Ha.
    destruct (handshake_lookup _ _ _ _ _ Hj) as (nj & Hn & _ & Hnb).
    destruct (proj1 (Hnb a) Ha) as [Hold|[[Ej Ea]|[Ej Ea]]].
    + destruct (Hmut j nj a Hn Hold) as (Haj & na & Hna & Hja).
      split; [done|]. apply (Hnew a j na); [done|by left].
    + subst j a. split; [done|].
      apply (Hnew sender self s); [done|]. right. by right.
    + subst j a. split; [done|].
      apply (Hnew self sender n); [done|]. right. by left.
  - intros j n' m0 s0 Hj Hm Hs. rewrite !length_upd_node.
    destruct (handshake_lookup _ _ _ _ _ Hj) as (nj & Hn & Hinbox & _).
    rewrite Hinbox in Hm. by eapply Hsend.
  - done.
Qed.

Lemma link_inv_create pos u w : link_inv w → link_inv (create_node w pos u).
Proof.
  intros [Hmut Hsend Hfl]. unfold create_node. split; simpl.
  - intros j n a Hj Ha.
    apply lookup_app_Some in Hj as [Hj|[_ Hj]].
    + destruct (Hmut j n a Hj Ha) as (Hne & na & Hna & Hja).
      split; [done|]. exists na. split; [|done]. simpl.
      by apply lookup_app_l_Some.
    + apply list_lookup_singleton_Some in Hj as [_ <-]. simpl in Ha.
      by apply elem_of_nil in Ha.
  - intros j n m s Hj Hm Hs. rewrite length_app. simpl.
    apply lookup_app_Some in Hj as [Hj|[_ Hj]].
    + destruct (Hsend j n m s Hj Hm Hs). split; [done|lia].
    + apply list_lookup_singleton_Some in Hj as [_ <-]. simpl in Hm.
      by apply elem_of_nil in Hm.
  - done.
Qed.

Lemma prim_keeps_links w w' : prim w w' → link_inv w → link_inv w'.
Proof.
  intros Hprim Hinv.
  destruct Hprim
    as [j m w Hc | i n m rest w Hn Hi | self sender n s w Hn Hs Hne H1 H2
       | i n p pfx w Hn Hr | i n p c w Hn Hroom | i u w H0 H1 | f w
       | j m w Hm | j m rest w Hf | pos u w H0 H1].
  - by apply link_inv_push.
  - apply link_inv_upd_node; [done..|].
    intros n0 m0 s0 Hn0 Hin _. simplify_eq. left. simpl in Hin.
    rewrite Hi. by apply elem_of_cons; right.
  - by apply (link_inv_handshake self sender n s).
  - apply link_inv_upd_node; [done..|]. intros n0 m0 s0 _ Hin _. by left.
  - apply link_inv_upd_node; [done..|]. intros n0 m0 s0 _ Hin _. by left.
  - apply link_inv_upd_node; [done..|]. intros n0 m0 s0 _ Hin _. by left.
  - apply (link_inv_same_nodes w); [done| |done]. intros j m Hjm. by left.
  - apply (link_inv_same_nodes w); [done| |done]. intros j0 m0 Hjm. simpl in Hjm.
    apply elem_of_app in Hjm as [Hold|Hnew]; [by left|].
    apply list_elem_of_singleton in Hnew as [= -> ->]. by right.
  - assert (Hm : announced_sender m = None).
    { apply (link_flight w Hinv j). rewrite Hf. by apply elem_of_cons; left. }
    apply link_inv_push; [by rewrite Hm|].
    apply (link_inv_same_nodes w); [done| |done]. intros j0 m0 Hjm. simpl in Hjm.
    left. rewrite Hf. by apply elem_of_cons; right.
  - by apply link_inv_create.
Qed.

Lemma prims_keep_links w w' : rtc prim w w' → link_inv w → link_inv w'.
Proof. induction 1; eauto using prim_keeps_links. Qed.

Lemma prims_keep_nodes P w w' :
  node_invariant P → rtc prim w w' →
  Forall P (all_nodes w) → Forall P (all_nodes w').
Proof. intros HP. induction 1; eauto using prim_keeps_nodes. Qed.

Lemma link_inv_initial : link_inv initial_world.
Proof.
  split; simpl.
  - intros i n a Hi. by rewrite lookup_nil in Hi.
  - intros i n m s Hi. by rewrite lookup_nil in Hi.
  - intros j m Hjm. by apply elem_of_nil in Hjm.
Qed.

(** ** Every handler is a sequence of elementary updates *)

Lemma prims_control_tx w : rtc prim w (control_tx w).
Proof.
  unfold control_tx. eapply rtc_l; [apply prim_monitor|].
  apply rtc_once, prim_monitor.
Qed.

Lemma prims_push_after_control j m w :
  (∀ s, announced_sender m = Some s → s ≠ j ∧ s < length (all_nodes w))%nat →
  rtc prim w (push_inbox j m (control_tx w)).
Proof.
  intros Hm. etrans; [apply prims_control_tx|].
  apply rtc_once, prim_push. done.
Qed.

Lemma prims_send_packet w pkt hop : rtc prim w (send_packet w pkt hop).
Proof.
  unfold send_packet. eapply rtc_l; [apply prim_monitor|].
  by apply rtc_once, prim_transmit.
Qed.

Lemma prims_handle_packet w self pkt : rtc prim w (handle_packet w self pkt).
Proof.
  unfold handle_packet. destruct (all_nodes w !! self) as [n|]; [|done].
  case_bool_decide; [apply rtc_once, prim_monitor|].
  destruct (downward_routes n !! dst_prefix pkt); [apply prims_send_packet|].
  destruct (parent n); [apply prims_send_packet|done].
Qed.

Lemma prims_send_dao_ack w self c p status :
  rtc prim w (send_dao_ack w self c p status).
Proof.
  unfold send_dao_ack. etrans; [apply prims_control_tx|].
  by apply rtc_once, prim_transmit.
Qed.

Lemma prims_receive_dao w self p c : rtc prim w (receive_dao w self p c).
Proof.
  unfold receive_dao. destruct (all_nodes w !! self) as [n|] eqn:Hn; [|done].
  case_bool_decide; [done|]. case_bool_decide; [done|].
  eapply rtc_l; [apply (prim_route self n); [done|lia]|].
  etrans; [|apply prims_send_dao_ack].
  destruct (parent n); [|done].
  by apply prims_push_after_control.
Qed.

Lemma prims_send_dao w self : rtc prim w (send_dao w self).
Proof.
  unfold send_dao. destruct (all_nodes w !! self) as [n|]; [|done].
  destruct (parent n); [|done]. by apply prims_push_after_control.
Qed.

Lemma prims_adopt w self sender n :
  all_nodes w !! self = Some n → is_root n = false →
  rtc prim w (adopt w self sender).
Proof.
  intros Hn Hroot. unfold adopt. rewrite Hn.
  destruct (all_nodes w !! sender) as [s|]; [|done].
  eapply rtc_l; [by apply (prim_parent self n)|]. apply prims_send_dao.
Qed.

Lemma prims_foldl {A} (g : World → A → World) (Q : World → Prop) (l : list A) :
  (∀ w a, a ∈ l → Q w → rtc prim w (g w a) ∧ Q (g w a)) →
  ∀ w, Q w → rtc prim w (foldl g w l).
Proof.
  induction l as [|a l IH]; intros Hg w Hw; simpl; [done|].
  destruct (Hg w a) as [Hstep Hq]; [by apply elem_of_cons; left|done|].
  etrans; [exact Hstep|]. apply IH; [|done].
  intros w' a' Ha'. apply Hg. by apply elem_of_cons; right.
Qed.

Lemma prims_send_dio w self : link_inv w → rtc prim w (send_dio w self).
Proof.
  intros Hinv. unfold send_dio.
  destruct (all_nodes w !! self) as [n|] eqn:Hn; [|done].
  apply (prims_foldl _ (λ acc, self < length (all_nodes acc))%nat);
    [|by eapply lookup_lt_Some].
  intros acc nbr Hnbr Hlen.
  destruct (link_mutual w Hinv self n nbr Hn Hnbr) as [Hne _].
  destruct (all_nodes acc !! nbr); [|done].
  case_bool_decide; [|done]. split.
  - apply prims_push_after_control. intros s [= <-]. done.
  - unfold push_inbox. by rewrite length_upd_node.
Qed.

Lemma prims_deliver w : rtc prim w (deliver w).
Proof.
  unfold deliver. destruct (in_flight w) as [|[j m] rest] eqn:Hf; [done|].
  by apply rtc_once, (prim_land j m rest).
Qed.

Lemma prims_launch_round w attacker k fake_num count :
  rtc prim w (launch_round w attacker k fake_num count).1.
Proof.
  unfold launch_round. destruct (possible_victims w attacker); [done|].
  destruct (_ !! _); [apply prims_receive_dao|done].
Qed.

Lemma prims_generate_traffic w src dst pid :
  rtc prim w (generate_traffic w src dst pid).
Proof.
  unfold generate_traffic.
  destruct (all_nodes w !! src), (all_nodes w !! dst); try done.
  case_bool_decide; [done|]. case_bool_decide; [done|].
  eapply rtc_l; [apply prim_monitor|]. apply prims_send_packet.
Qed.

Section Runs.

Variable calculate_distance : Position → Position → Q.
Variable CONNECTION_RANGE : Q.
Variable MINIMUM_DISTANCE : Q.

Local Abbreviation discover_neighbors :=
  (discover_neighbors calculate_distance CONNECTION_RANGE).
Local Abbreviation send_dis := (send_dis calculate_distance CONNECTION_RANGE).
Local Abbreviation receive_dis := (receive_dis calculate_distance CONNECTION_RANGE).
Local Abbreviation receive_dio := (receive_dio calculate_distance).
Local Abbreviation trickle_timer :=
  (trickle_timer calculate_distance CONNECTION_RANGE).
Local Abbreviation run_inbox := (run_inbox calculate_distance CONNECTION_RANGE).
Local Abbreviation step :=
  (step calculate_distance CONNECTION_RANGE MINIMUM_DISTANCE).
Local Abbreviation reachable :=
  (reachable calculate_distance CONNECTION_RANGE MINIMUM_DISTANCE).

Lemma prims_discover_neighbors w self : rtc prim w (discover_neighbors w self).
Proof.
  unfold discover_neighbors.
  destruct (all_nodes w !! self) as [n|] eqn:Hn; [|done].
  etrans; [apply prims_control_tx|].
  apply (prims_foldl _ (λ acc, self < length (all_nodes acc))%nat);
    [|by eapply lookup_lt_Some].
  intros acc j _ Hlen. destruct (all_nodes acc !! j); [|done].
  destruct (bool_decide (j ≠ self) && _) eqn:Hc; [|done].
  apply andb_true_iff in Hc as [Hj _]. apply bool_decide_eq_true in Hj.
  split.
  - apply rtc_once, prim_push. intros s [= <-]. done.
  - unfold push_inbox. by rewrite length_upd_node.
Qed.

Lemma prims_send_dis w self : rtc prim w (send_dis w self).
Proof.
  unfold send_dis.
  destruct (all_nodes w !! self) as [n|] eqn:Hn; [|done].
  apply (prims_foldl _ (λ acc, self < length (all_nodes acc))%nat);
    [|by eapply lookup_lt_Some].
  intros acc j _ Hlen. destruct (all_nodes acc !! j); [|done].
  destruct (bool_decide (j ≠ self) && _) eqn:Hc; [|done].
  apply andb_true_iff in Hc as [Hj _]. apply bool_decide_eq_true in Hj.
  split.
  - apply prims_push_after_control. intros s [= <-]. done.
  - unfold push_inbox. by rewrite length_upd_node.
Qed.

(** Under the invariant, a DIS from another node that is not yet a
    neighbour makes [receive_dis] append on both sides. *)
Lemma receive_dis_handshake w self sender n s :
  link_inv w → self ≠ sender →
  all_nodes w !! self = Some n → all_nodes w !! sender = Some s →
  sender ∉ neighbors n → in_range calculate_distance CONNECTION_RANGE n s = true →
  (self ∉ neighbors s)
  ∧ receive_dis w self sender
    = push_inbox sender (DIO self)
        (control_tx (upd_node sender (append_neighbor self)
                       (upd_node self (append_neighbor sender) w))).
Proof.
  intros Hinv Hne Hn Hs Hnot Hrange.
  assert (Hnot' : self ∉ neighbors s).
  { intros Hin. destruct (link_mutual w Hinv sender s self Hs Hin)
      as (_ & n0 & Hn0 & Hin0). simplify_eq. }
  split; [done|].
  unfold receive_dis. rewrite Hn, Hs, Hrange.
  rewrite bool_decide_eq_false_2 by done. cbn [negb andb]. cbv zeta.
  rewrite lookup_upd_node_ne, Hs by done.
  by rewrite bool_decide_eq_false_2.
Qed.

Lemma prims_receive_dis w self sender :
  link_inv w → self ≠ sender → rtc prim w (receive_dis w self sender).
Proof.
  intros Hinv Hne.
  destruct (all_nodes w !! self) as [n|] eqn:Hn;
    [|by unfold receive_dis; rewrite Hn].
  destruct (all_nodes w !! sender) as [s|] eqn:Hs;
    [|by unfold receive_dis; rewrite Hn, Hs].
  destruct (decide (sender ∈ neighbors n)) as [Hin|Hnot].
  { unfold receive_dis. rewrite Hn, Hs.
    by rewrite bool_decide_eq_true_2. }
  destruct (in_range calculate_distance CONNECTION_RANGE n s) eqn:Hrange.
  - destruct (receive_dis_handshake w self sender n s) as [Hnot' ->]; [done..|].
    eapply rtc_l; [by apply (prim_handshake self sender n s)|].
    apply prims_push_after_control. intros s0 [= <-]. split; [done|].
    rewrite !length_upd_node. by eapply lookup_lt_Some.
  - unfold receive_dis. rewrite Hn, Hs, Hrange.
    by rewrite andb_false_r.
Qed.

Lemma prims_receive_dio w self sender : rtc prim w (receive_dio w self sender).
Proof.
  unfold receive_dio.
  destruct (all_nodes w !! self) as [n|] eqn:Hn; [|done].
  destruct (all_nodes w !! sender) as [s|] eqn:Hs; [|done].
  destruct (is_root n) eqn:Hroot; [done|].
  destruct (parent n) as [p|]; [|by apply (prims_adopt w self sender n)].
  destruct (all_nodes w !! p) as [cur|]; [|done].
  destruct (switch_guard _ _ _ _ _); [by apply (prims_adopt w self sender n)|done].
Qed.

Lemma prims_trickle_timer w self u :
  (0 <= u)%Q → (u < 1)%Q → rtc prim w (trickle_timer w self u).
Proof.
  intros H0 H1. unfold trickle_timer.
  destruct (all_nodes w !! self) as [n|]; [|done].
  eapply rtc_r; [|by apply prim_trickle].
  destruct (neighbors n); [apply prims_send_dis|done].
Qed.

Lemma prims_run_inbox w self : link_inv w → rtc prim w (run_inbox w self).
Proof.
  intros Hinv. unfold run_inbox.
  destruct (all_nodes w !! self) as [n|] eqn:Hn; [|done].
  destruct (inbox n) as [|item rest] eqn:Hi; [done|].
  eapply rtc_l; [by apply (prim_pop self n item rest)|].
  assert (Hinv1 : link_inv (upd_node self (set_inbox rest) w)).
  { eapply prim_keeps_links; [by apply (prim_pop self n item rest)|done]. }
  destruct item as [sender|sender|c p|f p st|pkt].
  - apply prims_receive_dis; [done|].
    destruct (link_senders w Hinv self n (DIS sender) sender) as [Hne _];
      [done|rewrite Hi; by apply elem_of_cons; left|done|done].
  - apply prims_receive_dio.
  - apply prims_receive_dao.
  - done.
  - eapply rtc_l; [apply prim_monitor|]. apply prims_handle_packet.
Qed.

(** Every step of a run is a sequence of elementary updates. *)
Lemma step_prims w w' : link_inv w → step w w' → rtc prim w w'.
Proof.
  intros Hinv Hstep.
  destruct Hstep
    as [w pos u _ H0 H1 | w self | w self | w | w self | w self u H0 H1
       | w attacker k fake_num count _ _ | w src dst pid].
  - by apply rtc_once, prim_create.
  - apply prims_discover_neighbors.
  - by apply prims_run_inbox.
  - apply prims_deliver.
  - by apply prims_send_dio.
  - by apply prims_trickle_timer.
  - apply prims_launch_round.
  - apply prims_generate_traffic.
Qed.

Lemma reachable_prims w : reachable w → rtc prim initial_world w ∧ link_inv w.
Proof.
  revert w. apply (rtc_ind_r (λ w, rtc prim initial_world w ∧ link_inv w)).
  - split; [done|apply link_inv_initial].
  - intros w1 w2 Hr Hstep [IH1 IH2].
    pose proof (step_prims w1 w2 IH2 Hstep) as Hp.
    split; [by etrans|by eapply prims_keep_links].
Qed.

Lemma reachable_links w : reachable w → link_inv w.
Proof. intros Hr. by apply reachable_prims. Qed.

Lemma reachable_nodes P w :
  node_invariant P → reachable w → Forall P (all_nodes w).
Proof.
  intros HP Hr. apply reachable_prims in Hr as [Hp _].
  apply (prims_keep_nodes P initial_world w HP Hp). constructor.
Qed.

(** ** The downward-route table never exceeds its capacity *)

(** C2.  In every world of a run the table of every node holds at most
    [max_downward_routes] routes.  A DAO for a prefix that is not in the
    table is rejected when the table is exactly full: the world stays as it
    is (no entry evicted, nothing forwarded, nothing acknowledged).  With
    exactly one free slot the same DAO is stored, which fills the table, and
    it is acknowledged. *)
Theorem route_table_capacity :
  (∀ w, reachable w →
     ∀ i n, all_nodes w !! i = Some n →
            (size (downward_routes n) ≤ max_downward_routes n)%nat)
  ∧ (∀ w self n p c,
       all_nodes w !! self = Some n → downward_routes n !! p = None →
       size (downward_routes n) = max_downward_routes n →
       receive_dao w self p c = w)
  ∧ (∀ w self n p c,
       all_nodes w !! self = Some n → downward_routes n !! p = None →
       S (size (downward_routes n)) = max_downward_routes n →
       ∃ n', all_nodes (receive_dao w self p c) !! self = Some n'
             ∧ downward_routes n' !! p = Some c
             ∧ size (downward_routes n') = max_downward_routes n'
             ∧ in_flight (receive_dao w self p c)
               = (in_flight w ++ [(c, DAO_ACK self p 0)])%list).
Proof.
  split; [|split].
  - intros w Hr i n Hn.
    pose proof (reachable_nodes within_capacity w within_capacity_invariant Hr) as Hall.
    by apply (Forall_lookup_1 _ _ _ _ Hall Hn).
  - intros w self n p c Hn Hnew Hfull.
    apply (receive_dao_overloaded w self n); [done| |lia].
    rewrite Hnew. done.
  - intros w self n p c Hn Hnew Hroom.
    destruct (receive_dao_store_spec w self n p c)
      as ((n' & Hn' & Hr' & Hmax & _) & _ & _ & Hack);
      [done|by rewrite Hnew|lia|].
    exists n'. split; [done|]. rewrite Hr', Hmax.
    split; [apply lookup_insert_eq|]. split; [|done].
    rewrite map_size_insert_None by done. done.
Qed.

(** ** The neighbour relation is mutual *)

Lemma neighbor_of_append a b nb w :
  all_nodes w !! b = Some nb →
  neighbor_of (upd_node b (append_neighbor a) w) a b.
Proof.
  intros Hb. eexists. split; [by erewrite lookup_upd_node|].
  rewrite decide_True by done. simpl. apply elem_of_app. right.
  by apply list_elem_of_singleton.
Qed.

Lemma neighbor_of_upd_node i f a b w :
  (∀ n, a ∈ neighbors n → a ∈ neighbors (f n)) →
  neighbor_of w a b → neighbor_of (upd_node i f w) a b.
Proof.
  intros Hf (nb & Hb & Ha). eexists. split; [by erewrite lookup_upd_node|].
  case_decide; [by apply Hf|done].
Qed.

(** The handshake of [receive_dis]: when the sender is registered, each of
    the two nodes is in the other's list afterwards. *)
Lemma receive_dis_both w self sender n s :
  all_nodes w !! self = Some n → all_nodes w !! sender = Some s →
  sender ∉ neighbors n → in_range calculate_distance CONNECTION_RANGE n s = true →
  neighbor_of (receive_dis w self sender) sender self
  ∧ neighbor_of (receive_dis w self sender) self sender.
Proof.
  intros Hn Hs Hnot Hrange.
  unfold receive_dis. rewrite Hn, Hs, Hrange.
  rewrite bool_decide_eq_false_2 by done. cbn [negb andb]. cbv zeta.
  pose proof (neighbor_of_append sender self n w Hn) as H1.
  erewrite lookup_upd_node by done.
  set (s1 := if decide (self = sender) then append_neighbor sender s else s).
  assert (Hs1 : all_nodes (upd_node self (append_neighbor sender) w) !! sender = Some s1)
    by (by erewrite lookup_upd_node).
  case_bool_decide as Hin.
  - split; (apply neighbor_of_upd_node; [done|]); [done|]. by exists s1.
  - split; (apply neighbor_of_upd_node; [done|]).
    + apply neighbor_of_upd_node; [|done].
      intros n0 H0. simpl. apply elem_of_app. by left.
    + by apply (neighbor_of_append self sender s1).
Qed.

(** C6.  In every world of a run, [a] is in the neighbour list of [b]
    exactly when [b] is in the list of [a], and no node is in its own list.
    When [receive_dis] registers the sender of a DIS, both directions hold
    as soon as the handler is done. *)
Theorem neighbors_mutual w :
  reachable w →
  (∀ a b, neighbor_of w a b ↔ neighbor_of w b a)
  ∧ (∀ a, ¬ neighbor_of w a a)
  ∧ (∀ self sender n s,
       all_nodes w !! self = Some n → all_nodes w !! sender = Some s →
       sender ∉ neighbors n →
       in_range calculate_distance CONNECTION_RANGE n s = true →
       neighbor_of (receive_dis w self sender) sender self
       ∧ neighbor_of (receive_dis w self sender) self sender).
Proof.
  intros Hr. pose proof (reachable_links w Hr) as Hinv.
  assert (Hsym : ∀ a b, neighbor_of w a b → neighbor_of w b a).
  { intros a b (nb & Hb & Ha). by destruct (link_mutual w Hinv b nb a Hb Ha). }
  split; [|split].
  - intros a b. split; apply Hsym.
  - intros a (na & Ha & Hin). by destruct (link_mutual w Hinv a na a Ha Hin).
  - intros self sender n s. apply receive_dis_both.
Qed.

(** ** The back-off timer *)

(** The loop of [send_dis] appends one DIS to the inbox of every other
    node in range and touches nothing else in the arena. *)
Lemma send_dis_loop self n (l : list nat) :
  NoDup l →
  ∀ acc j nj,
    all_nodes acc !! j = Some nj →
    all_nodes
      (foldl (λ acc j,
                match all_nodes acc !! j with
                | Some node =>
                  if bool_decide (j ≠ self)
                     && in_range calculate_distance CONNECTION_RANGE n node
                  then push_inbox j (DIS self) (control_tx acc)
                  else acc
                | None => acc
                end) acc l) !! j
    = Some (if bool_decide (j ∈ l) && bool_decide (j ≠ self)
               && in_range calculate_distance CONNECTION_RANGE n nj
            then append_inbox (DIS self) nj else nj).
Proof.
  induction 1 as [|a l Ha Hl IH]; intros acc j nj Hj; simpl.
  { done. }
  set (acc1 := match all_nodes acc !! a with
               | Some node =>
                 if bool_decide (a ≠ self)
                    && in_range calculate_distance CONNECTION_RANGE n node
                 then push_inbox a (DIS self) (control_tx acc)
                 else acc
               | None => acc
               end).
  destruct (decide (j = a)) as [->|Hne].
  - assert (Hacc1 : all_nodes acc1 !! a
                    = Some (if bool_decide (a ≠ self)
                               && in_range calculate_distance CONNECTION_RANGE n nj
                            then append_inbox (DIS self) nj else nj)).
    { unfold acc1. rewrite Hj.
      destruct (bool_decide (a ≠ self) && _); [|done].
      erewrite lookup_push_inbox by (rewrite nodes_control_tx; done).
      by rewrite decide_True. }
    rewrite (IH acc1 a _ Hacc1).
    rewrite (bool_decide_eq_false_2 (a ∈ l)) by done.
    rewrite (bool_decide_eq_true_2 (a ∈ a :: l)) by (by apply elem_of_cons; left).
    done.
  - assert (Hacc1 : all_nodes acc1 !! j = Some nj).
    { unfold acc1. destruct (all_nodes acc !! a); [|done].
      destruct (bool_decide (a ≠ self) && _); [|done].
      erewrite lookup_push_inbox by (rewrite nodes_control_tx; done).
      by rewrite decide_False. }
    rewrite (IH acc1 j nj Hacc1).
    assert (Hiff : bool_decide (j ∈ a :: l) = bool_decide (j ∈ l)).
    { apply bool_decide_ext. rewrite elem_of_cons. tauto. }
    by rewrite Hiff.
Qed.

Lemma send_dis_inboxes w self n j nj :
  all_nodes w !! self = Some n → all_nodes w !! j = Some nj →
  all_nodes (send_dis w self) !! j
  = Some (if bool_decide (j ≠ self)
             && in_range calculate_distance CONNECTION_RANGE n nj
          then append_inbox (DIS self) nj else nj).
Proof.
  intros Hn Hj. unfold send_dis. rewrite Hn.
  rewrite (send_dis_loop self n _ (NoDup_seq _ _) w j nj Hj).
  rewrite bool_decide_eq_true_2; [done|].
  apply elem_of_seq. split; [lia|]. apply lookup_lt_Some in Hj. lia.
Qed.

(** C8.  When the timer of a node fires, a DIS naming the node is
    appended to the inbox of every other node in range if the node has no
    neighbour, and no inbox changes if it has one.  Afterwards the interval
    bound is [min(2 * I, Imax)], the next offset is drawn between [Imin]
    and the new bound, and both stay within their bounds:
    [Imin ≤ I ≤ Imax] and [Imin ≤ t ≤ I]. *)
Theorem trickle_timer_fire w self n u :
  reachable w →
  all_nodes w !! self = Some n →
  (0 <= u)%Q → (u < 1)%Q →
  (∀ j nj, all_nodes w !! j = Some nj →
     ∃ nj', all_nodes (trickle_timer w self u) !! j = Some nj'
            ∧ inbox nj'
              = (inbox nj
                 ++ if bool_decide (neighbors n = [])
                       && bool_decide (j ≠ self)
                       && in_range calculate_distance CONNECTION_RANGE n nj
                    then [DIS self] else [])%list)
  ∧ ∃ n', all_nodes (trickle_timer w self u) !! self = Some n'
          ∧ Imin n' = Imin n ∧ Imax n' = Imax n
          ∧ trickle_I n' = Z.min (trickle_I n * 2) (Imax n)
          ∧ trickle_t n' = uniform (Imin n) (trickle_I n') u
          ∧ (Imin n' ≤ trickle_I n' ≤ Imax n')%Z
          ∧ (inject_Z (Imin n') <= trickle_t n')%Q
          ∧ (trickle_t n' <= inject_Z (trickle_I n'))%Q.
Proof.
  intros Hr Hn H0 H1.
  pose proof (reachable_nodes trickle_sound w trickle_sound_invariant Hr) as Hall.
  pose proof (Forall_lookup_1 _ _ _ _ Hall Hn) as (Hmin & Hmax & Hi & _).
  assert (Hsent : ∀ j nj, all_nodes w !! j = Some nj →
            all_nodes (match neighbors n with
                       | [] => send_dis w self
                       | _ :: _ => w
                       end) !! j
            = Some (if bool_decide (neighbors n = []) && bool_decide (j ≠ self)
                       && in_range calculate_distance CONNECTION_RANGE n nj
                    then append_inbox (DIS self) nj else nj)).
  { intros j nj Hj. destruct (neighbors n) as [|a l].
    - rewrite (send_dis_inboxes w self n j nj) by done. done.
    - by rewrite bool_decide_eq_false_2. }
  unfold trickle_timer. rewrite Hn. split.
  - intros j nj Hj.
    erewrite lookup_upd_node by (by apply Hsent).
    eexists. split; [done|].
    destruct (bool_decide (neighbors n = []) && bool_decide (j ≠ self) && _);
      case_decide; simpl; by rewrite ?app_nil_r.
  - erewrite lookup_upd_node by (by apply Hsent).
    rewrite decide_True by done.
    rewrite (bool_decide_eq_false_2 (self ≠ self)) by (intros H; by apply H).
    rewrite andb_false_r. cbn [andb].
    eexists. split; [done|]. simpl.
    split; [done|]. split; [done|]. split; [done|]. split; [done|].
    split; [lia|]. apply uniform_bounds; [lia|done..].
Qed.

(** ** Prefixes *)

Lemma receive_dio_cases w self sender n :
  all_nodes w !! self = Some n →
  receive_dio w self sender = w
  ∨ (is_root n = false ∧ receive_dio w self sender = adopt w self sender).
Proof.
  intros Hn. unfold receive_dio. rewrite Hn.
  destruct (all_nodes w !! sender) as [s|]; [|by left].
  destruct (is_root n); [by left|].
  destruct (parent n) as [p|]; [|by right].
  destruct (all_nodes w !! p) as [cur|]; [|by left].
  destruct (switch_guard _ _ _ _ _); [by right|by left].
Qed.

Lemma adopt_nodes w self sender n s :
  all_nodes w !! self = Some n → all_nodes w !! sender = Some s →
  self ≠ sender →
  all_nodes (adopt w self sender) !! self
  = Some (set_parent_prefix sender (derive (prefix s) (node_num n)) n)
  ∧ all_nodes (adopt w self sender) !! sender
    = Some (append_inbox (DAO self (derive (prefix s) (node_num n))) s).
Proof.
  intros Hn Hs Hne. unfold adopt. rewrite Hn, Hs. unfold send_dao.
  rewrite lookup_upd_node_eq, Hn. simpl. split.
  - rewrite list_lookup_alter_ne by done. by rewrite list_lookup_alter_eq, Hn.
  - rewrite list_lookup_alter_eq. rewrite list_lookup_alter_ne by done.
    by rewrite Hs.
Qed.

(** *** What a step does to parents and prefixes *)

Lemma same_kin_refl w : same_kin w w.
Proof. done. Qed.

Lemma same_kin_trans w1 w2 w3 : same_kin w1 w2 → same_kin w2 w3 → same_kin w1 w3.
Proof. unfold same_kin. intros H1 H2. by rewrite H2. Qed.

Lemma kin_parts n a b c d :
  kin n = (a, b, c, d) →
  node_num n = a ∧ is_root n = b ∧ parent n = c ∧ prefix n = d.
Proof. unfold kin. by intros [= -> -> -> ->]. Qed.

Lemma kin_alter f i (l : list Node) :
  (∀ n, kin (f n) = kin n) → kin <$> alter f i l = kin <$> l.
Proof.
  intros Hf. apply list_eq. intros j. rewrite !list_lookup_fmap.
  destruct (decide (i = j)) as [->|Hne].
  - rewrite list_lookup_alter_eq. destruct (l !! j); simpl; [|done].
    by rewrite Hf.
  - by rewrite list_lookup_alter_ne.
Qed.

Lemma same_kin_upd_node i f w :
  (∀ n, kin (f n) = kin n) → same_kin w (upd_node i f w).
Proof. intros Hf. by apply kin_alter. Qed.

Lemma same_kin_push j m w : same_kin w (push_inbox j m w).
Proof. by apply same_kin_upd_node. Qed.

Lemma same_kin_push_control j m w : same_kin w (push_inbox j m (control_tx w)).
Proof. apply (same_kin_push j m (control_tx w)). Qed.

Lemma same_kin_foldl {A} (g : World → A → World) (l : list A) :
  (∀ acc x, same_kin acc (g acc x)) → ∀ w, same_kin w (foldl g w l).
Proof.
  intros Hg. induction l as [|a l IH]; intros w; simpl; [done|].
  eapply same_kin_trans; [apply (Hg w a)|apply IH].
Qed.

Lemma same_kin_handle_packet w self pkt : same_kin w (handle_packet w self pkt).
Proof.
  unfold handle_packet. destruct (all_nodes w !! self) as [n|]; [|done].
  case_bool_decide; [done|].
  destruct (downward_routes n !! dst_prefix pkt); [done|].
  by destruct (parent n).
Qed.

Lemma same_kin_receive_dao w self p c : same_kin w (receive_dao w self p c).
Proof.
  unfold receive_dao. destruct (all_nodes w !! self) as [n|]; [|done].
  case_bool_decide; [done|]. case_bool_decide; [done|].
  cbv zeta. unfold send_dao_ack, same_kin.
  rewrite nodes_transmit_later, nodes_control_tx.
  destruct (parent n) as [q|].
  - eapply same_kin_trans; [|apply same_kin_push_control].
    by apply same_kin_upd_node.
  - by apply same_kin_upd_node.
Qed.

Lemma same_kin_send_dao w self : same_kin w (send_dao w self).
Proof.
  unfold send_dao. destruct (all_nodes w !! self) as [n|]; [|done].
  destruct (parent n); [apply same_kin_push_control|done].
Qed.

Lemma same_kin_send_dio w self : same_kin w (send_dio w self).
Proof.
  unfold send_dio. destruct (all_nodes w !! self) as [n|]; [|done].
  apply same_kin_foldl. intros acc nbr.
  destruct (all_nodes acc !! nbr) as [m|]; [|done].
  case_bool_decide; [apply same_kin_push_control|done].
Qed.

Lemma same_kin_deliver w : same_kin w (deliver w).
Proof.
  unfold deliver. destruct (in_flight w) as [|[j m] rest]; [done|].
  apply (same_kin_push j m (mkWorld (all_nodes w) rest (monitor w))).
Qed.

Lemma same_kin_launch_round w attacker k fake_num count :
  same_kin w (launch_round w attacker k fake_num count).1.
Proof.
  unfold launch_round. destruct (possible_victims w attacker) as [|v l]; [done|].
  destruct (_ !! _); [apply same_kin_receive_dao|done].
Qed.

Lemma same_kin_generate_traffic w src dst pid :
  same_kin w (generate_traffic w src dst pid).
Proof.
  unfold generate_traffic.
  destruct (all_nodes w !! src) as [s|]; [|done].
  destruct (all_nodes w !! dst) as [d|]; [|done].
  case_bool_decide; [done|]. by case_bool_decide.
Qed.

(** The two assignments of [receive_dio] are the only change of that kind
    an adoption makes. *)
Lemma adopt_kin w self sender n s :
  all_nodes w !! self = Some n → all_nodes w !! sender = Some s →
  kin <$> all_nodes (adopt w self sender)
  = <[self := (node_num n, is_root n, Some sender, derive (prefix s) (node_num n))]>
      (kin <$> all_nodes w).
Proof.
  intros Hn Hs. unfold adopt. rewrite Hn, Hs.
  rewrite (same_kin_send_dao _ self). unfold upd_node. cbn [all_nodes].
  apply list_eq. intros j. rewrite list_lookup_fmap.
  destruct (decide (self = j)) as [<-|Hne].
  - rewrite list_lookup_alter_eq, Hn.
    rewrite list_lookup_insert_eq; [done|].
    rewrite length_fmap. by eapply lookup_lt_Some.
  - rewrite list_lookup_alter_ne by done.
    rewrite list_lookup_insert_ne by done. by rewrite list_lookup_fmap.
Qed.

Lemma same_kin_discover_neighbors w self : same_kin w (discover_neighbors w self).
Proof.
  unfold discover_neighbors. destruct (all_nodes w !! self) as [n|]; [|done].
  eapply same_kin_trans; [|apply same_kin_foldl].
  - apply (same_kin_refl w).
  - intros acc j. destruct (all_nodes acc !! j) as [m|]; [|done].
    destruct (_ && _); [apply same_kin_push|done].
Qed.

Lemma same_kin_send_dis w self : same_kin w (send_dis w self).
Proof.
  unfold send_dis. destruct (all_nodes w !! self) as [n|]; [|done].
  apply same_kin_foldl. intros acc j.
  destruct (all_nodes acc !! j) as [m|]; [|done].
  destruct (_ && _); [apply same_kin_push_control|done].
Qed.

Lemma same_kin_receive_dis w self sender : same_kin w (receive_dis w self sender).
Proof.
  unfold receive_dis.
  destruct (all_nodes w !! self) as [n|]; [|done].
  destruct (all_nodes w !! sender) as [s|]; [|done].
  destruct (_ && _); [|done]. cbv zeta.
  eapply same_kin_trans; [|apply same_kin_push_control].
  eapply same_kin_trans; [by apply (same_kin_upd_node self (append_neighbor sender))|].
  destruct (all_nodes _ !! sender) as [s1|]; [|done].
  case_bool_decide; [done|]. by apply same_kin_upd_node.
Qed.

Lemma same_kin_trickle_timer w self u : same_kin w (trickle_timer w self u).
Proof.
  unfold trickle_timer. destruct (all_nodes w !! self) as [n|]; [|done].
  cbv zeta. eapply same_kin_trans; [|by apply same_kin_upd_node].
  destruct (neighbors n); [apply same_kin_send_dis|done].
Qed.

(** A round of [run_inbox] leaves parents and prefixes alone, unless the
    item is a DIO and [receive_dio] takes its sender as parent. *)
Lemma run_inbox_kin w self :
  same_kin w (run_inbox w self)
  ∨ ∃ n sender rest s,
      all_nodes w !! self = Some n ∧ inbox n = DIO sender :: rest
      ∧ all_nodes w !! sender = Some s ∧ is_root n = false
      ∧ kin <$> all_nodes (run_inbox w self)
        = <[self := (node_num n, false, Some sender,
                     derive (prefix s) (node_num n))]> (kin <$> all_nodes w).
Proof.
  unfold run_inbox. destruct (all_nodes w !! self) as [n|] eqn:Hn; [|by left].
  destruct (inbox n) as [|item rest] eqn:Hi; [by left|]. cbv zeta.
  set (w1 := upd_node self (set_inbox rest) w).
  assert (H1 : same_kin w w1) by (by apply same_kin_upd_node).
  destruct item as [sender|sender|c p|f p st|pkt].
  - left. eapply same_kin_trans; [exact H1|apply same_kin_receive_dis].
  - assert (Hn1 : all_nodes w1 !! self = Some (set_inbox rest n)).
    { unfold w1. erewrite lookup_upd_node by done. by rewrite decide_True. }
    destruct (receive_dio_cases w1 self sender _ Hn1)
      as [->|[Hroot ->]]; [by left|].
    destruct (all_nodes w !! sender) as [s|] eqn:Hs.
    + right. exists n, sender, rest, s. repeat split; try done.
      assert (Hs1 : ∃ s1, all_nodes w1 !! sender = Some s1 ∧ prefix s1 = prefix s).
      { unfold w1. erewrite lookup_upd_node by done. eexists. split; [done|].
        by case_decide. }
      destruct Hs1 as (s1 & Hs1 & Hp).
      rewrite (adopt_kin w1 self sender _ s1 Hn1 Hs1). rewrite H1, Hp.
      simpl in Hroot. simpl. by rewrite Hroot.
    + left. unfold adopt. rewrite Hn1.
      assert (Hs1 : all_nodes w1 !! sender = None).
      { unfold w1, upd_node. cbn [all_nodes].
        apply lookup_ge_None. rewrite length_alter. by apply lookup_ge_None. }
      by rewrite Hs1.
  - left. eapply same_kin_trans; [exact H1|apply same_kin_receive_dao].
  - by left.
  - left. eapply same_kin_trans; [exact H1|].
    apply (same_kin_handle_packet (upd_monitor on_receive w1)).
Qed.

(** Every step of a run either leaves numbers, root flags, parents and
    prefixes as they are, or adds a node, or is the handling of a DIO by
    which a node other than a root takes the sender as parent and derives
    its prefix from the sender's. *)
Lemma step_kin w w' :
  step w w' →
  same_kin w w'
  ∨ (∃ pos u, w' = create_node w pos u)
  ∨ ∃ self n sender rest s,
      w' = run_inbox w self
      ∧ all_nodes w !! self = Some n ∧ inbox n = DIO sender :: rest
      ∧ all_nodes w !! sender = Some s ∧ is_root n = false
      ∧ kin <$> all_nodes w'
        = <[self := (node_num n, false, Some sender,
                     derive (prefix s) (node_num n))]> (kin <$> all_nodes w).
Proof.
  intros Hstep.
  destruct Hstep
    as [w pos u _ H0 H1 | w self | w self | w | w self | w self u H0 H1
       | w attacker k fake_num count _ _ | w src dst pid].
  - right. left. by exists pos, u.
  - left. apply same_kin_discover_neighbors.
  - destruct (run_inbox_kin w self) as [H|(n & sender & rest & s & H)]; [by left|].
    right. right. by exists self, n, sender, rest, s.
  - left. apply same_kin_deliver.
  - left. apply same_kin_send_dio.
  - left. apply same_kin_trickle_timer.
  - left. apply same_kin_launch_round.
  - left. apply same_kin_generate_traffic.
Qed.

Lemma kin_lookup w i n : all_nodes w !! i = Some n → (kin <$> all_nodes w) !! i = Some (kin n).
Proof. intros H. by rewrite list_lookup_fmap, H. Qed.

Lemma kin_lookup_inv w i k :
  (kin <$> all_nodes w) !! i = Some k → ∃ n, all_nodes w !! i = Some n ∧ kin n = k.
Proof.
  rewrite list_lookup_fmap. destruct (all_nodes w !! i) as [n|]; [|done].
  intros [= <-]. by exists n.
Qed.

(** Nodes stay in the arena. *)
Lemma step_grows w w' i n :
  step w w' → all_nodes w !! i = Some n → is_Some (all_nodes w' !! i).
Proof.
  intros Hstep Hn. apply lookup_lt_is_Some. apply lookup_lt_Some in Hn.
  destruct (step_kin w w' Hstep)
    as [H|[(pos & u & ->)|(self & m & sender & rest & s & _ & _ & _ & _ & _ & H)]].
  - apply (f_equal length) in H. rewrite !length_fmap in H. lia.
  - unfold create_node. cbn [all_nodes]. rewrite length_app. lia.
  - apply (f_equal length) in H. rewrite length_insert, !length_fmap in H. lia.
Qed.

(** A node is created without a parent. *)
Lemma step_fresh w w' i n' :
  step w w' → all_nodes w !! i = None → all_nodes w' !! i = Some n' →
  parent n' = None.
Proof.
  intros Hstep Hnone Hn'. apply lookup_ge_None in Hnone.
  pose proof (lookup_lt_Some _ _ _ Hn') as Hlt.
  destruct (step_kin w w' Hstep)
    as [H|[(pos & u & ->)|(self & m & sender & rest & s & _ & _ & _ & _ & _ & H)]].
  - apply (f_equal length) in H. rewrite !length_fmap in H. lia.
  - unfold create_node in Hn'. cbn [all_nodes] in Hn'.
    rewrite lookup_app_r in Hn' by done.
    apply list_lookup_singleton_Some in Hn' as [_ <-]. done.
  - apply (f_equal length) in H. rewrite length_insert, !length_fmap in H. lia.
Qed.

(** What a step does to one node: number, root flag, parent and prefix
    stay, unless the node handles a DIO of another node and takes it as
    parent; the sender is untouched in that step. *)
Lemma step_node w w' i n n' :
  link_inv w → step w w' →
  all_nodes w !! i = Some n → all_nodes w' !! i = Some n' →
  kin n' = kin n
  ∨ ∃ sender rest s s',
      w' = run_inbox w i ∧ inbox n = DIO sender :: rest ∧ sender ≠ i
      ∧ all_nodes w !! sender = Some s ∧ all_nodes w' !! sender = Some s'
      ∧ kin s' = kin s ∧ is_root n = false
      ∧ kin n' = (node_num n, false, Some sender, derive (prefix s) (node_num n)).
Proof.
  intros Hinv Hstep Hn Hn'.
  destruct (step_kin w w' Hstep)
    as [H|[(pos & u & ->)|(self & m & sender & rest & s & -> & Hm & Hi & Hs & Hroot & H)]].
  - left. apply kin_lookup in Hn, Hn'. rewrite H, Hn in Hn'. congruence.
  - left. unfold create_node in Hn'. cbn [all_nodes] in Hn'.
    rewrite lookup_app_l in Hn' by (by eapply lookup_lt_Some).
    rewrite Hn in Hn'. by injection Hn' as <-.
  - destruct (link_senders w Hinv self m (DIO sender) sender) as [Hne _];
      [done|rewrite Hi; by apply elem_of_cons; left|done|].
    destruct (decide (self = i)) as [->|Hself].
    + right. rewrite Hn in Hm. injection Hm as <-.
      destruct (step_grows w _ sender s (step_inbox _ _ _ w i) Hs) as [s' Hs'].
      exists sender, rest, s, s'. repeat split; try done.
      * pose proof (kin_lookup _ _ _ Hs') as K. rewrite H in K.
        rewrite list_lookup_insert_ne in K by done.
        rewrite (kin_lookup _ _ _ Hs) in K. congruence.
      * pose proof (kin_lookup _ _ _ Hn') as K. rewrite H in K.
        rewrite list_lookup_insert_eq in K
          by (rewrite length_fmap; by eapply lookup_lt_Some).
        congruence.
    + left. pose proof (kin_lookup _ _ _ Hn') as K. rewrite H in K.
      rewrite list_lookup_insert_ne in K by done.
      rewrite (kin_lookup _ _ _ Hn) in K. congruence.
Qed.

(** The number of a node and its root flag never change. *)
Lemma step_identity w w' i n n' :
  step w w' → all_nodes w !! i = Some n → all_nodes w' !! i = Some n' →
  node_num n' = node_num n ∧ is_root n' = is_root n.
Proof.
  intros Hstep Hn Hn'.
  destruct (step_kin w w' Hstep)
    as [H|[(pos & u & ->)|(self & m & sender & rest & s & -> & Hm & Hi & Hs & Hroot & H)]].
  - apply kin_lookup in Hn, Hn'. rewrite H, Hn in Hn'.
    assert (E : kin n' = kin n) by congruence.
    by destruct (kin_parts _ _ _ _ _ E) as (-> & -> & _).
  - unfold create_node in Hn'. cbn [all_nodes] in Hn'.
    rewrite lookup_app_l in Hn' by (by eapply lookup_lt_Some).
    rewrite Hn in Hn'. by injection Hn' as <-.
  - pose proof (kin_lookup _ _ _ Hn') as K. rewrite H in K.
    destruct (decide (self = i)) as [->|Hself].
    + rewrite list_lookup_insert_eq in K
        by (rewrite length_fmap; by eapply lookup_lt_Some).
      rewrite Hn in Hm. injection Hm as <-.
      assert (E : kin n' = (node_num n, false, Some sender,
                            derive (prefix s) (node_num n))) by congruence.
      destruct (kin_parts _ _ _ _ _ E) as (-> & -> & _). by rewrite Hroot.
    + rewrite list_lookup_insert_ne in K by done.
      rewrite (kin_lookup _ _ _ Hn) in K.
      assert (E : kin n' = kin n) by congruence.
      by destruct (kin_parts _ _ _ _ _ E) as (-> & -> & _).
Qed.

Lemma steps_identity w w' :
  rtc step w w' →
  ∀ i n, all_nodes w !! i = Some n →
    ∃ n', all_nodes w' !! i = Some n'
          ∧ node_num n' = node_num n ∧ is_root n' = is_root n.
Proof.
  induction 1 as [w|w1 w2 w3 Hstep _ IH]; intros i n Hn; [by exists n|].
  destruct (step_grows w1 w2 i n Hstep Hn) as [n2 Hn2].
  destruct (step_identity w1 w2 i n n2 Hstep Hn Hn2) as [E1 E2].
  destruct (IH i n2 Hn2) as (n' & Hn' & E3 & E4).
  exists n'. split; [done|]. by rewrite E3, E4.
Qed.

(** Where a prefix comes from: a node with parent [p] took it when it
    handled a DIO of [p] at an earlier point of the run, and its prefix is the
    prefix [p] had at that point, extended by the node's suffix. *)
Lemma adoption_origin w :
  reachable w →
  ∀ i n p,
    all_nodes w !! i = Some n → parent n = Some p →
    ∃ w0 n0 s0 rest,
      reachable w0 ∧ rtc step (run_inbox w0 i) w
      ∧ all_nodes w0 !! i = Some n0 ∧ inbox n0 = DIO p :: rest
      ∧ all_nodes w0 !! p = Some s0
      ∧ prefix n = derive (prefix s0) (node_num n).
Proof.
  revert w.
  apply (rtc_ind_r (λ w, ∀ i n p,
    all_nodes w !! i = Some n → parent n = Some p →
    ∃ w0 n0 s0 rest,
      reachable w0 ∧ rtc step (run_inbox w0 i) w
      ∧ all_nodes w0 !! i = Some n0 ∧ inbox n0 = DIO p :: rest
      ∧ all_nodes w0 !! p = Some s0
      ∧ prefix n = derive (prefix s0) (node_num n))).
  - intros i n p Hn. done.
  - intros w1 w2 Hr Hstep IH i n' p Hn' Hp.
    destruct (all_nodes w1 !! i) as [n|] eqn:Hn.
    2:{ rewrite (step_fresh w1 w2 i n' Hstep Hn Hn') in Hp. done. }
    destruct (step_node w1 w2 i n n' (reachable_links w1 Hr) Hstep Hn Hn')
      as [E|(sender & rest & s & s' & -> & Hi & Hne & Hs & Hs' & Ks & Hroot & E)];
      destruct (kin_parts _ _ _ _ _ E) as (E1 & E2 & E3 & E4).
    + rewrite E3 in Hp.
      destruct (IH i n p Hn Hp) as (w0 & n0 & s0 & rest & Hr0 & Hrun & H0 & Hi & Hs & Hpre).
      exists w0, n0, s0, rest. split; [done|]. split; [by eapply rtc_r|].
      split; [done|]. split; [done|]. split; [done|]. by rewrite E4, E1.
    + rewrite E3 in Hp. injection Hp as <-.
      exists w1, n, s, rest. split; [done|]. split; [done|].
      split; [done|]. split; [done|]. split; [done|]. by rewrite E4, E1.
Qed.

(** The parent of a node is in the arena. *)
Lemma parent_exists w i n p :
  reachable w → all_nodes w !! i = Some n → parent n = Some p →
  is_Some (all_nodes w !! p).
Proof.
  intros Hr Hn Hp.
  destruct (adoption_origin w Hr i n p Hn Hp)
    as (w0 & n0 & s0 & rest & Hr0 & Hrun & H0 & Hi & Hs & Hpre).
  destruct (steps_identity w0 w (rtc_l _ _ _ _ (step_inbox _ _ _ w0 i) Hrun) p s0 Hs)
    as (np & Hnp & _). by exists np.
Qed.

(** The children of the root carry the root's prefix extended by their
    suffix, in every world of a run. *)
Lemma root_children w i n p np :
  reachable w →
  all_nodes w !! i = Some n → parent n = Some p →
  all_nodes w !! p = Some np → is_root np = true →
  prefix n = derive (prefix np) (node_num n).
Proof.
  intros Hr Hn Hp Hnp Hroot.
  destruct (adoption_origin w Hr i n p Hn Hp)
    as (w0 & n0 & s0 & rest & Hr0 & Hrun & H0 & Hi & Hs & Hpre).
  destruct (steps_identity w0 w (rtc_l _ _ _ _ (step_inbox _ _ _ w0 i) Hrun) p s0 Hs)
    as (np2 & Hnp2 & _ & E).
  rewrite Hnp in Hnp2. injection Hnp2 as <-.
  pose proof (reachable_nodes root_prefix_fixed w root_prefix_fixed_invariant Hr) as Hall.
  pose proof (reachable_nodes root_prefix_fixed w0 root_prefix_fixed_invariant Hr0) as Hall0.
  rewrite (Forall_lookup_1 _ _ _ _ Hall Hnp Hroot).
  rewrite Hpre. f_equal.
  apply (Forall_lookup_1 _ _ _ _ Hall0 Hs). by rewrite <- E.
Qed.

(** The relation at one node outlives every step that leaves the prefix
    of its parent as it is. *)
Lemma derivation_persists w w' i :
  reachable w → step w w' →
  derives_from_parent w i →
  (∀ n p np np',
     all_nodes w !! i = Some n → parent n = Some p →
     all_nodes w !! p = Some np → all_nodes w' !! p = Some np' →
     prefix np' = prefix np) →
  derives_from_parent w' i.
Proof.
  intros Hr Hstep (n & p & np & Hn & Hp & Hnp & Hrel) Hsame.
  destruct (step_grows w w' i n Hstep Hn) as [n' Hn'].
  destruct (step_grows w w' p np Hstep Hnp) as [np' Hnp'].
  destruct (step_node w w' i n n' (reachable_links w Hr) Hstep Hn Hn')
    as [E|(sender & rest & s & s' & -> & Hi & Hne & Hs & Hs' & Ks & Hroot & E)];
    destruct (kin_parts _ _ _ _ _ E) as (E1 & E2 & E3 & E4).
  - exists n', p, np'. split; [done|]. split; [by rewrite E3|]. split; [done|].
    by rewrite E4, E1, (Hsame n p np np').
  - exists n', sender, s'. split; [done|]. split; [done|]. split; [done|].
    destruct (kin_parts _ _ _ _ _ Ks) as (_ & _ & _ & K4). by rewrite E4, E1, K4.
Qed.

(** The relation at all nodes outlives every step in which no node that
    has a child takes another prefix. *)
Lemma settled_step_keeps w w' :
  reachable w → step w w' →
  prefix_invariant w → settled w w' → prefix_invariant w'.
Proof.
  intros Hr Hstep Hinv Hset i n' p np' Hn' Hroot' Hp' Hnp'.
  destruct (all_nodes w !! i) as [n|] eqn:Hn.
  2:{ rewrite (step_fresh w w' i n' Hstep Hn Hn') in Hp'. done. }
  destruct (step_node w w' i n n' (reachable_links w Hr) Hstep Hn Hn')
    as [E|(sender & rest & s & s' & -> & Hi & Hne & Hs & Hs' & Ks & Hroot & E)];
    destruct (kin_parts _ _ _ _ _ E) as (E1 & E2 & E3 & E4).
  - rewrite E3 in Hp'. rewrite E2 in Hroot'.
    destruct (parent_exists w i n p Hr Hn Hp') as [np Hnp].
    rewrite E4, E1, (Hset p np np' i n Hnp Hnp' Hn Hp').
    by apply (Hinv i n p np).
  - rewrite E3 in Hp'. injection Hp' as <-.
    rewrite Hs' in Hnp'. injection Hnp' as <-.
    destruct (kin_parts _ _ _ _ _ Ks) as (_ & _ & _ & K4). by rewrite E4, E1, K4.
Qed.

Lemma settled_run_keeps w :
  rtc (λ a b, step a b ∧ settled a b) initial_world w →
  reachable w ∧ prefix_invariant w.
Proof.
  revert w. apply (rtc_ind_r (λ w, reachable w ∧ prefix_invariant w)).
  - split; [apply rtc_refl|]. intros i n p np Hn. done.
  - intros w1 w2 _ [Hstep Hset] [Hr Hinv].
    split; [by eapply rtc_r|]. by apply (settled_step_keeps w1 w2).
Qed.

(** C1, as the code has it.  In every world of a run:
    the prefix of a root is the fixed root prefix;
    a node whose parent is the root carries the root's prefix extended by
    its own suffix;
    a node with a parent P handled a DIO of P at an earlier point of the run
    and carries the prefix P had at that point, extended by its own suffix.
    For every step of the run from there: a parent or a prefix changes only
    where a node handles a DIO, and that node then has the sender as parent
    and the sender's prefix extended by its own suffix as prefix; the
    relation at a node outlives the step when the prefix of the node's
    parent stays as it is; the relation at all nodes outlives the step when
    no node that has a child takes another prefix.
    So the relation holds in every world of a run in which no node took
    another prefix while it had a child. *)
Theorem prefix_since_adoption w :
  reachable w →
  (∀ i n, all_nodes w !! i = Some n → is_root n = true → prefix n = root_prefix)
  ∧ (∀ i n p np,
       all_nodes w !! i = Some n → parent n = Some p →
       all_nodes w !! p = Some np → is_root np = true →
       prefix n = derive (prefix np) (node_num n))
  ∧ (∀ i n p,
       all_nodes w !! i = Some n → parent n = Some p →
       ∃ w0 n0 s0 rest,
         reachable w0 ∧ rtc step (run_inbox w0 i) w
         ∧ all_nodes w0 !! i = Some n0 ∧ inbox n0 = DIO p :: rest
         ∧ all_nodes w0 !! p = Some s0
         ∧ prefix n = derive (prefix s0) (node_num n))
  ∧ (∀ w', step w w' →
       (∀ i n n',
          all_nodes w !! i = Some n → all_nodes w' !! i = Some n' →
          parent n' ≠ parent n ∨ prefix n' ≠ prefix n →
          ∃ sender rest s',
            w' = run_inbox w i ∧ inbox n = DIO sender :: rest
            ∧ all_nodes w' !! sender = Some s'
            ∧ parent n' = Some sender
            ∧ prefix n' = derive (prefix s') (node_num n'))
       ∧ (∀ i,
            derives_from_parent w i →
            (∀ n p np np',
               all_nodes w !! i = Some n → parent n = Some p →
               all_nodes w !! p = Some np → all_nodes w' !! p = Some np' →
               prefix np' = prefix np) →
            derives_from_parent w' i)
       ∧ (prefix_invariant w → settled w w' → prefix_invariant w'))
  ∧ (rtc (λ a b, step a b ∧ settled a b) initial_world w → prefix_invariant w).
Proof.
  intros Hr. split; [|split; [|split; [|split]]].
  - intros i n Hn.
    pose proof (reachable_nodes root_prefix_fixed w root_prefix_fixed_invariant Hr)
      as Hall.
    by apply (Forall_lookup_1 _ _ _ _ Hall Hn).
  - intros i n p np. by apply root_children.
  - by apply adoption_origin.
  - intros w' Hstep. split; [|split].
    + intros i n n' Hn Hn' Hch.
      destruct (step_node w w' i n n' (reachable_links w Hr) Hstep Hn Hn')
        as [E|(sender & rest & s & s' & -> & Hi & Hne & Hs & Hs' & Ks & Hroot & E)];
        destruct (kin_parts _ _ _ _ _ E) as (E1 & E2 & E3 & E4).
      * destruct Hch as [Hch|Hch]; by destruct Hch.
      * exists sender, rest, s'. split; [done|]. split; [done|]. split; [done|].
        split; [done|]. destruct (kin_parts _ _ _ _ _ Ks) as (_ & _ & _ & K4).
        by rewrite E4, E1, K4.
    + intros i. by apply derivation_persists.
    + by apply settled_step_keeps.
  - intros Hcalm. by apply settled_run_keeps.
Qed.

End Runs.

(** ** The sample run *)

Lemma line_created_reachable : reachable euclid 4 1 line_created.
Proof.
  unfold reachable, line_created. cbv zeta.
  eapply rtc_r; [|apply step_create; [reflexivity|apply Qle_refl|reflexivity]].
  eapply rtc_r; [|apply step_create; [reflexivity|apply Qle_refl|reflexivity]].
  eapply rtc_r; [|apply step_create; [reflexivity|apply Qle_refl|reflexivity]].
  apply rtc_refl.
Qed.

Lemma line_answered_reachable : reachable euclid 4 1 line_answered.
Proof.
  unfold reachable, line_answered. cbv zeta.
  eapply rtc_r; [|apply step_inbox].
  eapply rtc_r; [|apply step_discover].
  apply line_created_reachable.
Qed.

Lemma line_joined_reachable : reachable euclid 4 1 line_joined.
Proof.
  unfold reachable, line_joined. cbv zeta.
  eapply rtc_r; [|apply step_inbox].
  eapply rtc_r; [|apply step_inbox].
  apply line_answered_reachable.
Qed.

Lemma line_crossed_reachable : reachable euclid 4 1 line_crossed.
Proof.
  unfold reachable, line_crossed. cbv zeta.
  eapply rtc_r; [|apply step_inbox].
  eapply rtc_r; [|apply step_send_dio].
  apply line_joined_reachable.
Qed.

Example line_joined_prefixes :
  map prefix (all_nodes line_joined)
  = ["2001:db8::1"; "2001:db8::01"; "2001:db8::01:02"].
Proof. reflexivity. Qed.

Example line_crossed_prefixes :
  map prefix (all_nodes line_crossed)
  = ["2001:db8::1"; "2001:db8::01:02:01"; "2001:db8::01:02"].
Proof. reflexivity. Qed.

Example line_crossed_parents :
  map parent (all_nodes line_crossed) = [None; Some 2; Some 1].
Proof. reflexivity. Qed.

(** ** A run with a parent switch *)

Lemma tree_created_reachable : reachable euclid 6 1 tree_created.
Proof.
  unfold reachable, tree_created. cbv zeta.
  eapply rtc_r; [|apply step_create; [by vm_compute|apply Qle_refl|reflexivity]].
  eapply rtc_r; [|apply step_create; [by vm_compute|apply Qle_refl|reflexivity]].
  eapply rtc_r; [|apply step_create; [by vm_compute|apply Qle_refl|reflexivity]].
  eapply rtc_r; [|apply step_create; [by vm_compute|apply Qle_refl|reflexivity]].
  apply rtc_refl.
Qed.

Lemma tree_rooted_reachable : reachable euclid 6 1 tree_rooted.
Proof.
  unfold reachable, tree_rooted. cbv zeta.
  eapply rtc_r; [|apply step_inbox].
  eapply rtc_r; [|apply step_inbox].
  eapply rtc_r; [|apply step_send_dio].
  eapply rtc_r; [|apply step_inbox].
  eapply rtc_r; [|apply step_inbox].
  eapply rtc_r; [|apply step_discover].
  apply tree_created_reachable.
Qed.

Lemma tree_grown_reachable : reachable euclid 6 1 tree_grown.
Proof.
  unfold reachable, tree_grown. cbv zeta.
  eapply rtc_r; [|apply step_inbox].
  eapply rtc_r; [|apply step_inbox].
  eapply rtc_r; [|apply step_discover].
  apply tree_rooted_reachable.
Qed.

Lemma tree_offered_reachable : reachable euclid 6 1 tree_offered.
Proof.
  unfold reachable, tree_offered. cbv zeta.
  eapply rtc_r; [|apply step_send_dio].
  eapply rtc_r; [|apply step_inbox].
  eapply rtc_r; [|apply step_inbox].
  eapply rtc_r; [|apply step_discover].
  apply tree_grown_reachable.
Qed.

Lemma tree_switched_reachable : reachable euclid 6 1 tree_switched.
Proof.
  unfold reachable, tree_switched.
  eapply rtc_r; [|apply step_inbox]. apply tree_offered_reachable.
Qed.

Example tree_offered_parents :
  map parent (all_nodes tree_offered) = [None; Some 0; Some 0; Some 1]%nat.
Proof. by vm_compute. Qed.

Example tree_offered_prefixes :
  map prefix (all_nodes tree_offered)
  = ["2001:db8::1"; "2001:db8::1:01"; "2001:db8::1:02"; "2001:db8::1:01:03"].
Proof. by vm_compute. Qed.

Example tree_switched_parents :
  map parent (all_nodes tree_switched) = [None; Some 2; Some 0; Some 1]%nat.
Proof. by vm_compute. Qed.

Example tree_switched_prefixes :
  map prefix (all_nodes tree_switched)
  = ["2001:db8::1"; "2001:db8::1:02:01"; "2001:db8::1:02"; "2001:db8::1:01:03"].
Proof. by vm_compute. Qed.

(** C1 as stated fails.  Nodes 1 and 2 are children of the root and node 3
    is a child of node 1, each with the prefix derived from its parent's.
    Node 1 then hears node 2, which is closer than the root, and switches
    to it: it derives a new prefix, and node 3 keeps the prefix it derived
    from the old one.  The parents form a tree throughout. *)
Lemma prefix_invariant_counterexample :
  reachable euclid 6 1 tree_switched ∧ ¬ prefix_invariant tree_switched.
Proof.
  split; [apply tree_switched_reachable|].
  intros H.
  destruct (all_nodes tree_switched !! 3%nat) as [n3|] eqn:E3;
    [|vm_compute in E3; discriminate E3].
  destruct (all_nodes tree_switched !! 1%nat) as [n1|] eqn:E1;
    [|vm_compute in E1; discriminate E1].
  pose proof E3 as V3. vm_compute in V3. injection V3 as <-.
  pose proof E1 as V1. vm_compute in V1. injection V1 as <-.
  specialize (H 3%nat _ 1%nat _ E3 eq_refl eq_refl E1).
  vm_compute in H. discriminate H.
Qed.

(** Before the switch every node of the sample run carries the prefix
    derived from its parent's. *)
Example tree_offered_invariant : prefix_invariant tree_offered.
Proof.
  intros i n p np Hn _ Hp Hnp.
  destruct i as [|[|[|[|i]]]]; known Hn; known Hp; known Hnp; by vm_compute.
Qed.

Lemma prefix_since_adoption_witness :
  reachable euclid 6 1 tree_offered
  ∧ (∃ n np,
       all_nodes tree_offered !! 2%nat = Some n
       ∧ all_nodes tree_offered !! 0%nat = Some np
       ∧ prefix n = derive (prefix np) (node_num n))
  ∧ derives_from_parent (run_inbox euclid 6 tree_offered 2) 3
  ∧ prefix_invariant (run_inbox euclid 6 tree_offered 2)
  ∧ (∃ n' s',
       all_nodes tree_switched !! 1%nat = Some n'
       ∧ all_nodes tree_switched !! 2%nat = Some s'
       ∧ parent n' = Some 2%nat
       ∧ prefix n' = derive (prefix s') (node_num n')).
Proof.
  destruct (prefix_since_adoption euclid 6 1 tree_offered tree_offered_reachable)
    as (_ & Hroot & _ & Hstep & _).
  split; [apply tree_offered_reachable|].
  node_at tree_offered 0%nat n0 E0. node_at tree_offered 1%nat n1 E1.
  node_at tree_offered 2%nat n2 E2. node_at tree_offered 3%nat n3 E3.
  split.
  { eexists _, _. split; [done|]. split; [done|].
    by apply (Hroot 2%nat _ 0%nat _ E2 eq_refl E0 eq_refl). }
  destruct (Hstep (run_inbox euclid 6 tree_offered 2) (step_inbox _ _ _ _ _))
    as (_ & Hkeep & Hall).
  split.
  { apply Hkeep.
    - eexists _, 1%nat, _. split; [exact E3|]. split; [done|]. split; [exact E1|].
      by vm_compute.
    - intros n p np np' Hn Hp Hnp Hnp'.
      rewrite E3 in Hn. injection Hn as <-. injection Hp as <-.
      rewrite E1 in Hnp. injection Hnp as <-. known Hnp'. by vm_compute. }
  split.
  { apply Hall; [apply tree_offered_invariant|].
    intros p np np' c nc Hp Hp' _ _.
    destruct p as [|[|[|[|p]]]]; known Hp; known Hp'; by vm_compute. }
  destruct (Hstep tree_switched (step_inbox _ _ _ _ _)) as (Hchange & _).
  node_at tree_switched 1%nat m1 S1.
  destruct (Hchange 1%nat _ _ E1 S1) as (sender & rest & s' & _ & _ & Hs' & Hp & Hpre).
  { left. by vm_compute. }
  injection Hp as <-.
  eexists _, s'. split; [done|]. split; [done|]. split; [done|]. exact Hpre.
Defined.

Example adoption_in_sample_run :
  map (λ n, (parent n, prefix n)) (all_nodes (run_inbox euclid 4 line_answered 2))
  = [(None, "2001:db8::1"); (None, "2001:db8::01"); (Some 1, "2001:db8::01:02")].
Proof. reflexivity. Qed.

Lemma route_table_capacity_witness :
  (∀ i n, all_nodes line_joined !! i = Some n →
          (size (downward_routes n) ≤ max_downward_routes n)%nat)
  ∧ receive_dao full_world 1 route_b 3 = full_world
  ∧ (∃ n', all_nodes (receive_dao roomy_world 1 route_b 3) !! 1 = Some n'
           ∧ downward_routes n' !! route_b = Some 3
           ∧ size (downward_routes n') = max_downward_routes n'
           ∧ in_flight (receive_dao roomy_world 1 route_b 3)
             = (in_flight roomy_world ++ [(3, DAO_ACK 1 route_b 0)])%list).
Proof.
  destruct (route_table_capacity euclid 4 1) as (Hcap & Hfull & Hroom).
  split; [|split].
  - apply (Hcap line_joined). apply line_joined_reachable.
  - apply (Hfull full_world 1 (relay 1 1 {[route_a := 2]} (Some 0)));
      reflexivity.
  - apply (Hroom roomy_world 1 (relay 1 2 {[route_a := 2]} (Some 0)));
      reflexivity.
Defined.

(** Scenario B of the specification: capacity one, a second child is
    turned away and the table still holds only the first route. *)
Example second_child_rejected :
  map (λ n, map_to_list (downward_routes n))
      (all_nodes (receive_dao full_world 1 route_b 3))
  = [[]; [(route_a, 2)]; []; []].
Proof. reflexivity. Qed.

Lemma neighbors_mutual_witness :
  (∀ a b, neighbor_of line_joined a b ↔ neighbor_of line_joined b a)
  ∧ (∀ a, ¬ neighbor_of line_joined a a)
  ∧ (∀ self sender n s,
       all_nodes line_joined !! self = Some n →
       all_nodes line_joined !! sender = Some s →
       sender ∉ neighbors n →
       in_range euclid 4 n s = true →
       neighbor_of (receive_dis euclid 4 line_joined self sender) sender self
       ∧ neighbor_of (receive_dis euclid 4 line_joined self sender) self sender).
Proof.
  apply (neighbors_mutual euclid 4 1 line_joined).
  apply line_joined_reachable.
Defined.

Example handshake_in_sample_run :
  map neighbors (all_nodes line_created) = [[]; []; []]
  ∧ map neighbors (all_nodes line_answered) = [[]; [2]; [1]].
Proof. split; reflexivity. Qed.

Lemma trickle_timer_fire_witness :
  (∀ j nj, all_nodes line_created !! j = Some nj →
     ∃ nj', all_nodes (trickle_timer euclid 4 line_created 2 (1 # 2)) !! j = Some nj'
            ∧ inbox nj'
              = (inbox nj
                 ++ if bool_decide (neighbors (Node_init 2 (13, 0)%Q false 0) = [])
                       && bool_decide (j ≠ 2)
                       && in_range euclid 4 (Node_init 2 (13, 0)%Q false 0) nj
                    then [DIS 2] else [])%list)
  ∧ ∃ n', all_nodes (trickle_timer euclid 4 line_created 2 (1 # 2)) !! 2 = Some n'
          ∧ Imin n' = 1%Z ∧ Imax n' = 8%Z
          ∧ trickle_I n' = Z.min (1 * 2) 8
          ∧ trickle_t n' = uniform 1 (trickle_I n') (1 # 2)
          ∧ (Imin n' ≤ trickle_I n' ≤ Imax n')%Z
          ∧ (inject_Z (Imin n') <= trickle_t n')%Q
          ∧ (trickle_t n' <= inject_Z (trickle_I n'))%Q.
Proof.
  apply (trickle_timer_fire euclid 4 1 line_created 2
           (Node_init 2 (13, 0)%Q false 0) (1 # 2)).
  - apply line_created_reachable.
  - reflexivity.
  - discriminate.
  - reflexivity.
Defined.

Example trickle_in_sample_run :
  map (λ n, (inbox n, trickle_I n, Qred (trickle_t n)))
      (all_nodes (trickle_timer euclid 4 line_created 2 (1 # 2)))
  = [([], 1%Z, 1%Q); ([DIS 2], 1%Z, 1%Q); ([], 2%Z, (3 # 2)%Q)].
Proof. reflexivity. Qed.

Example trickle_with_neighbor :
  map inbox (all_nodes (trickle_timer euclid 4 line_joined 2 (1 # 2)))
  = map inbox (all_nodes line_joined).
Proof. vm_compute. reflexivity. Qed.

(** * Further properties of the code *)

(** ** Prefix derivation loses nothing *)

Lemma hex_int_hex n : hex_int (Fmt.hex n) = Some n.
Proof.
  unfold hex_int, Fmt.hex.
  rewrite HexadecimalString.NilZero.usu.
  - by rewrite HexadecimalN.Unsigned.of_to.
  - destruct n as [|p]; [done|]. apply HexadecimalPos.Unsigned.to_uint_nonnil.
Qed.

Lemma hex_int_zeros k s n : hex_int s = Some n → hex_int (Fmt.zeros k ++ s) = Some n.
Proof.
  intros Hs. induction k as [|k IH]; [done|].
  unfold hex_int in *. simpl.
  destruct (HexadecimalString.NilZero.uint_of_string (Fmt.zeros k ++ s)) as [d|] eqn:Hd;
    [|done].
  unfold HexadecimalString.NilZero.uint_of_string in *.
  destruct (Fmt.zeros k ++ s) as [|a r] eqn:Hr; [done|].
  simpl in *. by rewrite Hd.
Qed.

Lemma hex_int_x02 n : hex_int (Fmt.x02 n) = Some n.
Proof. unfold Fmt.x02, Fmt.pad. apply hex_int_zeros, hex_int_hex. Qed.

Lemma occurs_app c s t : occurs c (s ++ t) ↔ occurs c s ∨ occurs c t.
Proof. induction s as [|a s IH]; simpl; [tauto|]. rewrite IH. tauto. Qed.

Lemma no_colon_hex_digits d :
  ¬ occurs ":" (HexadecimalString.NilEmpty.string_of_uint d).
Proof.
  induction d; simpl; [by intros []|..];
    (intros [H|H]; [discriminate H|by apply IHd]).
Qed.

Lemma no_colon_x02 n : ¬ occurs ":" (Fmt.x02 n).
Proof.
  unfold Fmt.x02, Fmt.pad, Fmt.hex. rewrite occurs_app. intros [H|H].
  - induction (2 - _)%nat as [|k IH]; simpl in H; [done|].
    destruct H as [H|H]; [discriminate H|by apply IH].
  - unfold HexadecimalString.NilZero.string_of_uint in H.
    destruct (N.to_hex_uint n) eqn:Hn;
      try (rewrite <- Hn in H; by apply no_colon_hex_digits in H).
    simpl in H. destruct H as [H|H]; [discriminate H|done].
Qed.

(** A string is cut in one way only at its last colon. *)
Lemma split_last_colon p1 p2 t1 t2 :
  ¬ occurs ":" t1 → ¬ occurs ":" t2 →
  p1 ++ ":" ++ t1 = p2 ++ ":" ++ t2 → p1 = p2 ∧ t1 = t2.
Proof.
  intros H1 H2. revert p2.
  induction p1 as [|a p1 IH]; intros [|b p2] E; cbn [String.append] in E.
  - injection E as E. change (t1 = t2) in E. by subst.
  - injection E as _ E. change (t1 = p2 ++ ":" ++ t2) in E.
    destruct H1. rewrite E. apply occurs_app. right. by left.
  - injection E as _ E. change (p1 ++ ":" ++ t1 = t2) in E.
    destruct H2. rewrite <- E. apply occurs_app. right. by left.
  - injection E as -> E. by destruct (IH p2 E) as [-> ->].
Qed.

(** Two derived prefixes are equal only when they come from the same
    parent prefix and the same node number: distinct children of one parent
    never share a prefix.  ([receive_dio], the f-string of lines 183 and
    191.) *)
Theorem derive_injective p1 k1 p2 k2 :
  derive p1 k1 = derive p2 k2 → p1 = p2 ∧ k1 = k2.
Proof.
  unfold derive. intros E.
  apply split_last_colon in E as [-> E]; try apply no_colon_x02.
  split; [done|].
  pose proof (hex_int_x02 k1) as H1. rewrite E, hex_int_x02 in H1. congruence.
Qed.

Lemma derive_injective_witness :
  "2001:db8::1" = "2001:db8::1" ∧ 10%N = 10%N.
Proof. apply (derive_injective "2001:db8::1" 10 "2001:db8::1" 10). reflexivity. Defined.

(** ** Filling a table by forged announcements *)

Lemma flood_spec ps : ∀ w victim attacker n,
  all_nodes w !! victim = Some n →
  NoDup ps →
  (∀ p, p ∈ ps → downward_routes n !! p = None) →
  (size (downward_routes n) + length ps ≤ max_downward_routes n)%nat →
  ∃ n', all_nodes (flood w victim attacker ps) !! victim = Some n'
        ∧ max_downward_routes n' = max_downward_routes n
        ∧ (∀ q, downward_routes n' !! q
                = if bool_decide (q ∈ ps) then Some attacker
                  else downward_routes n !! q)
        ∧ size (downward_routes n') = (size (downward_routes n) + length ps)%nat.
Proof.
  induction ps as [|p ps IH]; intros w victim attacker n Hn Hnd Hfresh Hroom.
  { exists n. simpl. repeat split; try done; lia. }
  apply NoDup_cons in Hnd as [Hp Hnd]. simpl in Hroom.
  assert (Hnone : downward_routes n !! p = None).
  { apply Hfresh. by apply elem_of_cons; left. }
  destruct (receive_dao_store_spec w victim n p attacker)
    as ((n1 & Hn1 & Hr1 & Hmax1 & _) & _); [done|by rewrite Hnone|lia|].
  destruct (IH (receive_dao w victim p attacker) victim attacker n1)
    as (n' & Hn' & Hmax' & Hr' & Hsize'); [done|done| |..].
  - intros q Hq. rewrite Hr1. rewrite lookup_insert_ne by (intros ->; done).
    apply Hfresh. by apply elem_of_cons; right.
  - rewrite Hr1, Hmax1, map_size_insert_None by done. lia.
  - exists n'. split; [done|]. split; [congruence|]. split.
    + intros q. rewrite Hr', Hr1.
      destruct (decide (q = p)) as [->|Hne].
      * rewrite lookup_insert_eq.
        rewrite (bool_decide_eq_true_2 (p ∈ p :: ps)) by (by apply elem_of_cons; left).
        by case_bool_decide.
      * rewrite lookup_insert_ne by done.
        assert (Hiff : bool_decide (q ∈ p :: ps) = bool_decide (q ∈ ps)).
        { apply bool_decide_ext. rewrite elem_of_cons. tauto. }
        by rewrite Hiff.
    + rewrite Hsize', Hr1, map_size_insert_None by done. simpl. lia.
Qed.

(** The overload attack does what its name says.  Forged announcements
    for as many fresh, distinct prefixes as the victim has free slots are
    all stored; the routes the victim had are kept; the table is then
    full, and from there on every announcement that is not already
    installed is ignored, whoever sends it.  ([launch] of [malicious.py],
    [receive_dao].) *)
Theorem flood_overloads w victim attacker n ps :
  all_nodes w !! victim = Some n →
  NoDup ps →
  (∀ p, p ∈ ps → downward_routes n !! p = None) →
  (size (downward_routes n) + length ps)%nat = max_downward_routes n →
  ∃ n', all_nodes (flood w victim attacker ps) !! victim = Some n'
        ∧ (∀ p, p ∈ ps → downward_routes n' !! p = Some attacker)
        ∧ (∀ q c, downward_routes n !! q = Some c → downward_routes n' !! q = Some c)
        ∧ size (downward_routes n') = max_downward_routes n'
        ∧ (∀ p c, downward_routes n' !! p ≠ Some c →
                  receive_dao (flood w victim attacker ps) victim p c
                  = flood w victim attacker ps).
Proof.
  intros Hn Hnd Hfresh Hfull.
  destruct (flood_spec ps w victim attacker n)
    as (n' & Hn' & Hmax' & Hr' & Hsize'); [done|done|done|lia|].
  exists n'. split; [done|]. split; [|split; [|split]].
  - intros p Hp. by rewrite Hr', bool_decide_eq_true_2.
  - intros q c Hq. rewrite Hr'. case_bool_decide as Hin; [|done].
    apply Hfresh in Hin. congruence.
  - lia.
  - intros p c Hnew. apply (receive_dao_overloaded _ victim n'); [done|done|lia].
Qed.

Lemma flood_overloads_witness :
  ∃ n', all_nodes (flood roomy_world 1 3 [fake_prefix 4242]) !! 1 = Some n'
        ∧ (∀ p, p ∈ [fake_prefix 4242] → downward_routes n' !! p = Some 3)
        ∧ (∀ q c, downward_routes (relay 1 2 {[route_a := 2]} (Some 0)) !! q = Some c →
                  downward_routes n' !! q = Some c)
        ∧ size (downward_routes n') = max_downward_routes n'
        ∧ (∀ p c, downward_routes n' !! p ≠ Some c →
                  receive_dao (flood roomy_world 1 3 [fake_prefix 4242]) 1 p c
                  = flood roomy_world 1 3 [fake_prefix 4242]).
Proof.
  apply (flood_overloads roomy_world 1 3 (relay 1 2 {[route_a := 2]} (Some 0))).
  - reflexivity.
  - apply NoDup_singleton.
  - intros p Hp. apply list_elem_of_singleton in Hp. subst p. reflexivity.
  - reflexivity.
Defined.

(** ** Periodic advertisement: who receives a DIO *)

Lemma send_dio_loop self (l : list nat) :
  NoDup l →
  ∀ acc j nj,
    all_nodes acc !! j = Some nj →
    all_nodes
      (foldl (λ acc nbr,
                match all_nodes acc !! nbr with
                | Some m =>
                  if bool_decide (parent m ≠ Some self)
                  then push_inbox nbr (DIO self) (control_tx acc)
                  else acc
                | None => acc
                end) acc l) !! j
    = Some (if bool_decide (j ∈ l) && bool_decide (parent nj ≠ Some self)
            then append_inbox (DIO self) nj else nj).
Proof.
  induction 1 as [|a l Ha Hl IH]; intros acc j nj Hj; simpl.
  { done. }
  set (acc1 := match all_nodes acc !! a with
               | Some m =>
                 if bool_decide (parent m ≠ Some self)
                 then push_inbox a (DIO self) (control_tx acc)
                 else acc
               | None => acc
               end).
  destruct (decide (j = a)) as [->|Hne].
  - assert (Hacc1 : all_nodes acc1 !! a
                    = Some (if bool_decide (parent nj ≠ Some self)
                            then append_inbox (DIO self) nj else nj)).
    { unfold acc1. rewrite Hj.
      destruct (bool_decide (parent nj ≠ Some self)); [|done].
      erewrite lookup_push_inbox by (rewrite nodes_control_tx; done).
      by rewrite decide_True. }
    rewrite (IH acc1 a _ Hacc1).
    rewrite (bool_decide_eq_false_2 (a ∈ l)) by done.
    rewrite (bool_decide_eq_true_2 (a ∈ a :: l)) by (by apply elem_of_cons; left).
    done.
  - assert (Hacc1 : all_nodes acc1 !! j = Some nj).
    { unfold acc1. destruct (all_nodes acc !! a) as [m|]; [|done].
      destruct (bool_decide (parent m ≠ Some self)); [|done].
      erewrite lookup_push_inbox by (rewrite nodes_control_tx; done).
      by rewrite decide_False. }
    rewrite (IH acc1 j nj Hacc1).
    assert (Hiff : bool_decide (j ∈ a :: l) = bool_decide (j ∈ l)).
    { apply bool_decide_ext. rewrite elem_of_cons. tauto. }
    by rewrite Hiff.
Qed.

(** Neighbour lists never hold a node twice. *)
Lemma prim_keeps_nodup w w' :
  prim w w' →
  Forall (λ n, NoDup (neighbors n)) (all_nodes w) →
  Forall (λ n, NoDup (neighbors n)) (all_nodes w').
Proof.
  intros Hprim Hall.
  destruct Hprim
    as [j m w Hc | i n m rest w Hn Hi | self sender n s w Hn Hs Hne H1 H2
       | i n p pfx w Hn Hr | i n p c w Hn Hroom | i u w H0 H1 | f w
       | j m w Hm | j m rest w Hf | pos u w H0 H1]; simpl;
    try (apply Forall_alter; [done|]; by intros x _ Hx); try done.
  - apply Forall_alter; [apply Forall_alter; [done|]|].
    + intros x Hx Hnd. simplify_eq. simpl. apply NoDup_app.
      split; [done|]. split; [|apply NoDup_singleton].
      intros y Hy Hy'. apply list_elem_of_singleton in Hy'. by subst.
    + intros x Hx Hnd. rewrite list_lookup_alter_ne in Hx by done.
      simplify_eq. simpl. apply NoDup_app.
      split; [by apply (Forall_lookup_1 _ _ _ _ Hall Hs)|].
      split; [|apply NoDup_singleton].
      intros y Hy Hy'. apply list_elem_of_singleton in Hy'. by subst.
  - apply Forall_app. split; [done|]. constructor; [|done]. simpl. apply NoDup_nil_2.
Qed.

(** ** Who is who *)

Lemma identified_upd_node i f w :
  (∀ n, node_num (f n) = node_num n ∧ is_root (f n) = is_root n) →
  identified w → identified (upd_node i f w).
Proof.
  intros Hf Hid j n' Hj.
  apply lookup_upd_node_inv in Hj as (n & Hj & ->).
  destruct (Hid j n Hj) as [Hnum Hroot].
  destruct (decide (i = j)); [|by split]. destruct (Hf n) as [-> ->]. by split.
Qed.

Lemma prim_keeps_identified w w' : prim w w' → identified w → identified w'.
Proof.
  intros Hprim Hid.
  destruct Hprim
    as [j m w Hc | i n m rest w Hn Hi | self sender n s w Hn Hs Hne H1 H2
       | i n p pfx w Hn Hr | i n p c w Hn Hroom | i u w H0 H1 | f w
       | j m w Hm | j m rest w Hf | pos u w H0 H1];
    try (by apply identified_upd_node); try done.
  - apply identified_upd_node; [done|]. by apply identified_upd_node.
  - intros j n Hj. unfold create_node in Hj. simpl in Hj.
    apply lookup_app_Some in Hj as [Hj|[Hlen Hj]]; [by apply Hid|].
    apply list_lookup_singleton_Some in Hj as [Hj <-]. simpl.
    assert (j = length (all_nodes w)) as -> by lia. done.
Qed.

Lemma root_orphan_invariant : node_invariant root_orphan.
Proof.
  split; unfold root_orphan; simpl; try done.
  intros p pfx n Hroot _ Hr. congruence.
Qed.

Lemma node_id_injective n1 n2 : node_id n1 = node_id n2 → node_num n1 = node_num n2.
Proof.
  intros E. pose proof (node_id_suffix n1) as H1.
  rewrite E, node_id_suffix in H1. congruence.
Qed.

Section MoreRuns.

Variable calculate_distance : Position → Position → Q.
Variable CONNECTION_RANGE : Q.
Variable MINIMUM_DISTANCE : Q.

Local Abbreviation reachable :=
  (reachable calculate_distance CONNECTION_RANGE MINIMUM_DISTANCE).
Local Abbreviation receive_dis := (receive_dis calculate_distance CONNECTION_RANGE).
Local Abbreviation receive_dio := (receive_dio calculate_distance).
Local Abbreviation discover_neighbors :=
  (discover_neighbors calculate_distance CONNECTION_RANGE).
Local Abbreviation send_dis := (send_dis calculate_distance CONNECTION_RANGE).
Local Abbreviation trickle_timer :=
  (trickle_timer calculate_distance CONNECTION_RANGE).
Local Abbreviation in_range := (in_range calculate_distance CONNECTION_RANGE).

Lemma reachable_identified w : reachable w → identified w.
Proof.
  intros Hr. apply reachable_prims in Hr as [Hp _].
  assert (Hgen : ∀ w0 w1, rtc prim w0 w1 → identified w0 → identified w1).
  { induction 1; eauto using prim_keeps_identified. }
  apply (Hgen initial_world w Hp). intros i n Hi. by destruct i.
Qed.

Lemma reachable_nodup w : reachable w → Forall (λ n, NoDup (neighbors n)) (all_nodes w).
Proof.
  intros Hr. apply reachable_prims in Hr as [Hp _].
  assert (Hgen : ∀ w0 w1, rtc prim w0 w1 →
            Forall (λ n, NoDup (neighbors n)) (all_nodes w0) →
            Forall (λ n, NoDup (neighbors n)) (all_nodes w1)).
  { induction 1; eauto using prim_keeps_nodup. }
  apply (Hgen initial_world w Hp). constructor.
Qed.

(** In a run, the node at index [i] has number [i] and identifier
    [Node] followed by [i]; it is a root exactly when [i] is 0, and a root
    never has a parent.  Two nodes of the arena with the same identifier
    are the same node.  ([create_nodes] of [environment.py],
    [Node.__init__], the first test of [receive_dio].) *)
Theorem node_identity w :
  reachable w →
  (∀ i n, all_nodes w !! i = Some n →
     node_id n = "Node" ++ Fmt.d02 (N.of_nat i)
     ∧ (is_root n = true ↔ i = 0%nat)
     ∧ (is_root n = true → parent n = None))
  ∧ (∀ i j ni nj, all_nodes w !! i = Some ni → all_nodes w !! j = Some nj →
       node_id ni = node_id nj → i = j).
Proof.
  intros Hr. pose proof (reachable_identified w Hr) as Hid.
  pose proof (reachable_nodes calculate_distance CONNECTION_RANGE MINIMUM_DISTANCE
                root_orphan w root_orphan_invariant Hr) as Horph.
  split.
  - intros i n Hn. destruct (Hid i n Hn) as [Hnum Hroot].
    split; [unfold node_id; by rewrite Hnum|]. split.
    + rewrite Hroot. apply bool_decide_eq_true.
    + by apply (Forall_lookup_1 _ _ _ _ Horph Hn).
  - intros i j ni nj Hi Hj E. apply node_id_injective in E.
    destruct (Hid i ni Hi) as [Hni _], (Hid j nj Hj) as [Hnj _].
    rewrite Hni, Hnj in E. by apply Nat2N.inj in E.
Qed.

(** In a run, one round of [send_dio] puts exactly one DIO into the inbox
    of every neighbour that does not have the sender as parent, and leaves
    every other node, the sender's own children among them, as it was. *)
Theorem send_dio_recipients w self n :
  reachable w →
  all_nodes w !! self = Some n →
  ∀ j nj, all_nodes w !! j = Some nj →
    all_nodes (send_dio w self) !! j
    = Some (if bool_decide (j ∈ neighbors n) && bool_decide (parent nj ≠ Some self)
            then append_inbox (DIO self) nj else nj).
Proof.
  intros Hr Hn j nj Hj. unfold send_dio. rewrite Hn.
  apply send_dio_loop; [|done].
  by apply (Forall_lookup_1 _ _ _ _ (reachable_nodup w Hr) Hn).
Qed.

(** ** Repeated discovery and advertisement messages *)

(** A DIS from a node that is already a neighbour, or from a node out of
    range, changes nothing; so handling the same DIS twice is handling it
    once, and a repeated DIS is answered by one DIO only. *)
Theorem receive_dis_idempotent w self sender :
  receive_dis (receive_dis w self sender) self sender = receive_dis w self sender.
Proof.
  destruct (all_nodes w !! self) as [n|] eqn:Hn.
  2: { assert (E : receive_dis w self sender = w)
         by (unfold receive_dis; by rewrite Hn).
       by rewrite !E. }
  destruct (all_nodes w !! sender) as [s|] eqn:Hs.
  2: { assert (E : receive_dis w self sender = w)
         by (unfold receive_dis; by rewrite Hn, Hs).
       by rewrite !E. }
  destruct (decide (sender ∈ neighbors n)) as [Hin|Hnot].
  { assert (E : receive_dis w self sender = w).
    { unfold receive_dis. rewrite Hn, Hs. by rewrite bool_decide_eq_true_2. }
    by rewrite !E. }
  destruct (in_range n s) eqn:Hrange.
  - destruct (receive_dis_both calculate_distance CONNECTION_RANGE
                w self sender n s Hn Hs Hnot Hrange)
      as [(n' & Hn' & Hin') (s' & Hs' & _)].
    set (w' := receive_dis w self sender) in *.
    unfold receive_dis. rewrite Hn', Hs'.
    by rewrite bool_decide_eq_true_2.
  - assert (E : receive_dis w self sender = w).
    { unfold receive_dis. rewrite Hn, Hs, Hrange. by rewrite andb_false_r. }
    by rewrite !E.
Qed.

Lemma Qltb_irrefl x : Qltb x x = false.
Proof. unfold Qltb. rewrite (proj2 (Qle_bool_iff x x)); [done|apply Qle_refl]. Qed.

Lemma adopt_all_nodes w self sender n s :
  all_nodes w !! self = Some n → all_nodes w !! sender = Some s →
  all_nodes (adopt w self sender)
  = alter (append_inbox (DAO self (derive (prefix s) (node_num n)))) sender
      (alter (set_parent_prefix sender (derive (prefix s) (node_num n))) self
         (all_nodes w)).
Proof.
  intros Hn Hs. unfold adopt. rewrite Hn, Hs. unfold send_dao.
  by rewrite lookup_upd_node_eq, Hn.
Qed.

(** A DIO from the node that just became the parent changes nothing: the
    sender is not strictly closer than itself.  Handling the same DIO twice
    is handling it once. *)
Theorem receive_dio_idempotent w self sender :
  receive_dio (receive_dio w self sender) self sender = receive_dio w self sender.
Proof.
  destruct (all_nodes w !! self) as [n|] eqn:Hn.
  2: { assert (E : receive_dio w self sender = w)
         by (unfold receive_dio; by rewrite Hn).
       by rewrite !E. }
  destruct (all_nodes w !! sender) as [s|] eqn:Hs.
  2: { assert (E : receive_dio w self sender = w)
         by (unfold receive_dio; by rewrite Hn, Hs).
       by rewrite !E. }
  destruct (receive_dio_cases calculate_distance w self sender n Hn) as [E|[Hroot E]].
  { by rewrite !E. }
  rewrite E.
  pose proof (adopt_all_nodes w self sender n s Hn Hs) as Hall.
  set (pfx := derive (prefix s) (node_num n)) in *.
  set (m := DAO self pfx) in *.
  assert (Hself : ∃ n', all_nodes (adopt w self sender) !! self = Some n'
                        ∧ is_root n' = false ∧ parent n' = Some sender
                        ∧ position n' = position n).
  { rewrite Hall. rewrite list_lookup_alter.
    destruct (decide (sender = self)) as [->|Hne].
    - rewrite list_lookup_alter_eq, Hn. simpl. eauto.
    - rewrite list_lookup_alter_eq, Hn. simpl. eauto. }
  assert (Hsender : ∃ s', all_nodes (adopt w self sender) !! sender = Some s'
                          ∧ position s' = position s).
  { rewrite Hall. rewrite list_lookup_alter_eq, list_lookup_alter.
    destruct (decide (self = sender)) as [->|Hne].
    - rewrite Hs. simpl. eauto.
    - rewrite Hs. simpl. eauto. }
  destruct Hself as (n' & Hn' & Hroot' & Hpar' & Hpos').
  destruct Hsender as (s' & Hs' & Hpos'').
  unfold receive_dio. rewrite Hn', Hs', Hroot', Hpar', Hs'.
  unfold switch_guard. by rewrite Qltb_irrefl.
Qed.

(** ** The back-off schedule *)

Lemma trickle_level_invariant : node_invariant trickle_level.
Proof.
  split; unfold trickle_level; simpl; try done.
  - intros. split; [done|]. set_solver.
  - intros u n _ _ [Hmax Hi]. split; [done|]. rewrite Hmax.
    rewrite !elem_of_cons in Hi.
    destruct Hi as [->|[->|[->|[->|Hi]]]]; [set_solver..|by apply elem_of_nil in Hi].
Qed.

Lemma trickle_timer_self w self n u :
  all_nodes w !! self = Some n →
  all_nodes (trickle_timer w self u) !! self = Some (trickle_update u n).
Proof.
  intros Hn. unfold trickle_timer. rewrite Hn.
  assert (Hw1 : all_nodes (match neighbors n with
                           | [] => send_dis w self
                           | _ :: _ => w
                           end) !! self = Some n).
  { destruct (neighbors n); [|done].
    rewrite (send_dis_inboxes _ _ w self n self n) by done.
    by rewrite (bool_decide_eq_false_2 (self ≠ self)) by (intros H; by apply H). }
  erewrite lookup_upd_node by done. by rewrite decide_True.
Qed.

Lemma trickle_rounds self us : ∀ w n,
  all_nodes w !! self = Some n →
  (0 < trickle_I n ≤ Imax n)%Z →
  ∃ n', all_nodes (foldl (λ acc u, trickle_timer acc self u) w us) !! self = Some n'
        ∧ Imax n' = Imax n
        ∧ trickle_I n' = Z.min (trickle_I n * 2 ^ Z.of_nat (length us)) (Imax n).
Proof.
  induction us as [|u us IH]; intros w n Hn Hi.
  { exists n. simpl. split; [done|]. split; [done|]. lia. }
  destruct (IH (trickle_timer w self u) (trickle_update u n))
    as (n' & Hn' & Hmax' & Hi').
  { by apply trickle_timer_self. }
  { simpl. lia. }
  exists n'. split; [done|]. simpl in Hmax', Hi'. split; [done|].
  rewrite Hi'. cbn [length]. rewrite Nat2Z.inj_succ, Z.pow_succ_r by lia.
  assert (1 ≤ 2 ^ Z.of_nat (length us))%Z
    by (pose proof (Z.pow_pos_nonneg 2 (Z.of_nat (length us))); lia).
  destruct (Z.le_gt_cases (trickle_I n * 2) (Imax n)).
  - rewrite (Z.min_l (trickle_I n * 2)) by done. f_equal. lia.
  - rewrite (Z.min_r (trickle_I n * 2)) by lia.
    rewrite !Z.min_r by nia. done.
Qed.

(** The interval bound of a node in a run is 1, 2, 4 or 8.  [k] rounds
    of its timer take it from [I] to [min (I * 2 ^ k, 8)]; after three
    rounds at the latest it is 8, whatever the draws were.  (Nothing
    calls [reset_trickle], so the bound never goes down.) *)
Theorem trickle_backoff w self n us :
  reachable w →
  all_nodes w !! self = Some n →
  trickle_I n ∈ [1%Z; 2%Z; 4%Z; 8%Z]
  ∧ ∃ n', all_nodes (foldl (λ acc u, trickle_timer acc self u) w us) !! self
          = Some n'
          ∧ trickle_I n' = Z.min (trickle_I n * 2 ^ Z.of_nat (length us)) 8
          ∧ ((3 ≤ length us)%nat → trickle_I n' = 8%Z).
Proof.
  intros Hr Hn.
  pose proof (reachable_nodes calculate_distance CONNECTION_RANGE MINIMUM_DISTANCE
                trickle_level w trickle_level_invariant Hr) as Hall.
  destruct (Forall_lookup_1 _ _ _ _ Hall Hn) as [Hmax Hlev].
  split; [done|].
  assert (Hi : (1 ≤ trickle_I n ≤ 8)%Z).
  { rewrite !elem_of_cons in Hlev.
    destruct Hlev as [->|[->|[->|[->|Hi]]]]; [lia..|by apply elem_of_nil in Hi]. }
  destruct (trickle_rounds self us w n Hn) as (n' & Hn' & _ & Hi'); [lia|].
  exists n'. split; [done|]. rewrite Hmax in Hi'. split; [done|].
  intros Hlen. rewrite Hi'. apply Z.min_r.
  assert (2 ^ 3 ≤ 2 ^ Z.of_nat (length us))%Z by (apply Z.pow_le_mono_r; lia).
  nia.
Qed.

(** ** Neighbour discovery: who receives a DIS *)

Lemma broadcast_loop (cost : World → World) self n (l : list nat) :
  (∀ w, all_nodes (cost w) = all_nodes w) →
  NoDup l →
  ∀ acc j nj,
    all_nodes acc !! j = Some nj →
    all_nodes
      (foldl (λ acc j,
                match all_nodes acc !! j with
                | Some node =>
                  if bool_decide (j ≠ self) && in_range n node
                  then push_inbox j (DIS self) (cost acc)
                  else acc
                | None => acc
                end) acc l) !! j
    = Some (if bool_decide (j ∈ l) && bool_decide (j ≠ self) && in_range n nj
            then append_inbox (DIS self) nj else nj).
Proof.
  intros Hcost. induction 1 as [|a l Ha Hl IH]; intros acc j nj Hj; simpl.
  { done. }
  set (acc1 := match all_nodes acc !! a with
               | Some node =>
                 if bool_decide (a ≠ self) && in_range n node
                 then push_inbox a (DIS self) (cost acc)
                 else acc
               | None => acc
               end).
  destruct (decide (j = a)) as [->|Hne].
  - assert (Hacc1 : all_nodes acc1 !! a
                    = Some (if bool_decide (a ≠ self) && in_range n nj
                            then append_inbox (DIS self) nj else nj)).
    { unfold acc1. rewrite Hj.
      destruct (bool_decide (a ≠ self) && _); [|done].
      erewrite lookup_push_inbox by (rewrite Hcost; done).
      by rewrite decide_True. }
    rewrite (IH acc1 a _ Hacc1).
    rewrite (bool_decide_eq_false_2 (a ∈ l)) by done.
    rewrite (bool_decide_eq_true_2 (a ∈ a :: l)) by (by apply elem_of_cons; left).
    done.
  - assert (Hacc1 : all_nodes acc1 !! j = Some nj).
    { unfold acc1. destruct (all_nodes acc !! a); [|done].
      destruct (bool_decide (a ≠ self) && _); [|done].
      erewrite lookup_push_inbox by (rewrite Hcost; done).
      by rewrite decide_False. }
    rewrite (IH acc1 j nj Hacc1).
    assert (Hiff : bool_decide (j ∈ a :: l) = bool_decide (j ∈ l)).
    { apply bool_decide_ext. rewrite elem_of_cons. tauto. }
    by rewrite Hiff.
Qed.

Lemma broadcast_quiet self n (l : list nat) : ∀ acc,
  monitor
    (foldl (λ acc j,
              match all_nodes acc !! j with
              | Some node =>
                if bool_decide (j ≠ self) && in_range n node
                then push_inbox j (DIS self) acc
                else acc
              | None => acc
              end) acc l) = monitor acc
  ∧ in_flight
      (foldl (λ acc j,
                match all_nodes acc !! j with
                | Some node =>
                  if bool_decide (j ≠ self) && in_range n node
                  then push_inbox j (DIS self) acc
                  else acc
                | None => acc
                end) acc l) = in_flight acc.
Proof.
  induction l as [|a l IH]; intros acc; simpl; [done|].
  destruct (IH (match all_nodes acc !! a with
                | Some node =>
                  if bool_decide (a ≠ self) && in_range n node
                  then push_inbox a (DIS self) acc
                  else acc
                | None => acc
                end)) as [-> ->].
  destruct (all_nodes acc !! a); [|done].
  by destruct (bool_decide (a ≠ self) && _).
Qed.

(** [discover_neighbors] puts one DIS into the inbox of every node in
    range other than the sender and leaves every other node as it was;
    nothing is put in flight, and however many nodes are reached, the
    monitor counts one control packet and one transmission. *)
Theorem discover_neighbors_recipients w self n :
  all_nodes w !! self = Some n →
  (∀ j nj, all_nodes w !! j = Some nj →
     all_nodes (discover_neighbors w self) !! j
     = Some (if bool_decide (j ≠ self) && in_range n nj
             then append_inbox (DIS self) nj else nj))
  ∧ in_flight (discover_neighbors w self) = in_flight w
  ∧ monitor (discover_neighbors w self)
    = on_transmit (on_control_packet_sent (monitor w)).
Proof.
  intros Hn. unfold discover_neighbors. rewrite Hn.
  split.
  2: { destruct (broadcast_quiet self n (seq 0 (length (all_nodes w))) (control_tx w))
         as [Hm Hf].
       split; [by rewrite Hf|by rewrite Hm]. }
  intros j nj Hj.
  rewrite (broadcast_loop (λ w, w) self n _ (λ _, eq_refl) (NoDup_seq _ _)
             (control_tx w) j nj Hj).
  rewrite bool_decide_eq_true_2; [done|].
  apply elem_of_seq. split; [lia|]. apply lookup_lt_Some in Hj. lia.
Qed.

End MoreRuns.

Lemma node_identity_witness :
  (∀ i n, all_nodes line_joined !! i = Some n →
     node_id n = "Node" ++ Fmt.d02 (N.of_nat i)
     ∧ (is_root n = true ↔ i = 0%nat)
     ∧ (is_root n = true → parent n = None))
  ∧ (∀ i j ni nj, all_nodes line_joined !! i = Some ni →
       all_nodes line_joined !! j = Some nj →
       node_id ni = node_id nj → i = j).
Proof.
  apply (node_identity euclid 4 1 line_joined). apply line_joined_reachable.
Defined.

Example node_ids_in_sample_run :
  map node_id (all_nodes line_joined) = ["Node00"; "Node01"; "Node02"].
Proof. vm_compute. reflexivity. Qed.

Lemma send_dio_recipients_witness :
  ∃ n1, all_nodes line_joined !! 1 = Some n1
        ∧ all_nodes (send_dio line_joined 2) !! 1 = Some (append_inbox (DIO 2) n1)
        ∧ all_nodes (send_dio line_joined 1) !! 2 = all_nodes line_joined !! 2.
Proof.
  assert (H1 : ∃ n, all_nodes line_joined !! 1 = Some n
                    ∧ neighbors n = [2] ∧ parent n = None).
  { eexists. repeat split; vm_compute; reflexivity. }
  assert (H2 : ∃ n, all_nodes line_joined !! 2 = Some n
                    ∧ neighbors n = [1] ∧ parent n = Some 1).
  { eexists. repeat split; vm_compute; reflexivity. }
  destruct H1 as (n1 & Hn1 & Hnb1 & Hp1), H2 as (n2 & Hn2 & Hnb2 & Hp2).
  exists n1. split; [exact Hn1|]. split.
  - rewrite (send_dio_recipients euclid 4 1 line_joined 2 n2
               line_joined_reachable Hn2 1 n1 Hn1).
    rewrite Hnb2, Hp1. reflexivity.
  - rewrite (send_dio_recipients euclid 4 1 line_joined 1 n1
               line_joined_reachable Hn1 2 n2 Hn2).
    rewrite Hnb1, Hp2, Hn2. reflexivity.
Defined.

(** Node 1 does not advertise itself to its child, node 2; node 2 does
    advertise itself to node 1, which is not its child. *)
Example send_dio_in_sample_run :
  map inbox (all_nodes (send_dio line_joined 1)) = [[]; []; []]
  ∧ map inbox (all_nodes (send_dio line_joined 2)) = [[]; [DIO 2]; []].
Proof. vm_compute. split; reflexivity. Qed.

Lemma trickle_backoff_witness :
  trickle_I (Node_init 2 (13, 0)%Q false 0) ∈ [1%Z; 2%Z; 4%Z; 8%Z]
  ∧ ∃ n', all_nodes (foldl (λ acc u, trickle_timer euclid 4 acc 2 u) line_created
                       [0; 1 # 2; 0; 1 # 3]%Q) !! 2
          = Some n'
          ∧ trickle_I n' = Z.min (1 * 2 ^ Z.of_nat 4) 8
          ∧ ((3 ≤ 4)%nat → trickle_I n' = 8%Z).
Proof.
  apply (trickle_backoff euclid 4 1 line_created 2 (Node_init 2 (13, 0)%Q false 0)
           [0; 1 # 2; 0; 1 # 3]%Q).
  - apply line_created_reachable.
  - reflexivity.
Defined.

Lemma discover_neighbors_recipients_witness :
  (∀ j nj, all_nodes line_created !! j = Some nj →
     all_nodes (discover_neighbors euclid 4 line_created 2) !! j
     = Some (if bool_decide (j ≠ 2) && in_range euclid 4 (Node_init 2 (13, 0)%Q false 0) nj
             then append_inbox (DIS 2) nj else nj))
  ∧ in_flight (discover_neighbors euclid 4 line_created 2) = in_flight line_created
  ∧ monitor (discover_neighbors euclid 4 line_created 2)
    = on_transmit (on_control_packet_sent (monitor line_created)).
Proof.
  apply (discover_neighbors_recipients euclid 4 line_created 2
           (Node_init 2 (13, 0)%Q false 0)).
  reflexivity.
Defined.

Example discover_in_sample_run :
  map inbox (all_nodes (discover_neighbors euclid 4 line_created 2)) = [[]; [DIS 2]; []]
  ∧ map inbox (all_nodes (discover_neighbors euclid 4 line_created 0)) = [[]; []; []].
Proof. vm_compute. split; reflexivity. Qed.

Example repeated_dis_in_sample_run :
  receive_dis euclid 4 line_joined 1 2 = line_joined.
Proof. vm_compute. reflexivity. Qed.

(** * Runs, seen through the closer list of elementary updates *)

Lemma rtc_foldl {A} (R : relation World) (g : World → A → World)
    (Q : World → Prop) (l : list A) :
  (∀ w a, a ∈ l → Q w → rtc R w (g w a) ∧ Q (g w a)) →
  ∀ w, Q w → rtc R w (foldl g w l).
Proof.
  induction l as [|a l IH]; intros Hg w Hw; simpl; [done|].
  destruct (Hg w a) as [Hstep Hq]; [by apply elem_of_cons; left|done|].
  etrans; [exact Hstep|]. apply IH; [|done].
  intros w' a' Ha'. apply Hg. by apply elem_of_cons; right.
Qed.

Lemma handle_packet_nodes w self pkt :
  all_nodes (handle_packet w self pkt) = all_nodes w.
Proof.
  unfold handle_packet. destruct (all_nodes w !! self) as [n|]; [|done].
  case_bool_decide; [done|].
  destruct (downward_routes n !! dst_prefix pkt); [done|].
  by destruct (parent n).
Qed.

Section RefinedRuns.

Variable calculate_distance : Position → Position → Q.
Variable CONNECTION_RANGE : Q.
Variable MINIMUM_DISTANCE : Q.

Local Abbreviation eprim := (eprim calculate_distance MINIMUM_DISTANCE).
Local Abbreviation step :=
  (step calculate_distance CONNECTION_RANGE MINIMUM_DISTANCE).
Local Abbreviation reachable :=
  (reachable calculate_distance CONNECTION_RANGE MINIMUM_DISTANCE).
Local Abbreviation receive_dis := (receive_dis calculate_distance CONNECTION_RANGE).
Local Abbreviation receive_dio := (receive_dio calculate_distance).
Local Abbreviation discover_neighbors :=
  (discover_neighbors calculate_distance CONNECTION_RANGE).
Local Abbreviation send_dis := (send_dis calculate_distance CONNECTION_RANGE).
Local Abbreviation trickle_timer :=
  (trickle_timer calculate_distance CONNECTION_RANGE).
Local Abbreviation run_inbox := (run_inbox calculate_distance CONNECTION_RANGE).

(** Each update of the closer list is made of updates of the first list. *)
Lemma eprim_prims w w' : link_inv w → eprim w w' → rtc prim w w'.
Proof.
  intros Hinv Hp.
  destruct Hp
    as [w | j s w Hne Hlt | j s w Hnb | j c p w | i n m rest w Hn Hi Hm
       | self sender n s w Hn Hs Hne H1 H2 | i n p pfx w Hn Hr Hp
       | i n p c w Hn Hroom | i u w H0 H1 | j f p st w | j m rest w Hf
       | pos u w Hv H0 H1 | pkt src w | i n pkt rest w Hn Hi].
  - apply prims_control_tx.
  - apply rtc_once, prim_push. by intros s0 [= <-].
  - apply rtc_once, prim_push. intros s0 [= <-].
    destruct Hnb as (nj & Hj & Hin).
    destruct (link_mutual w Hinv j nj s Hj Hin) as (Hne & ns & Hs & _).
    split; [done|]. by eapply lookup_lt_Some.
  - by apply rtc_once, prim_push.
  - by apply rtc_once, (prim_pop i n m rest).
  - by apply rtc_once, (prim_handshake self sender n s).
  - by apply rtc_once, (prim_parent i n).
  - by apply rtc_once, (prim_route i n).
  - by apply rtc_once, prim_trickle.
  - by apply rtc_once, prim_transmit.
  - by apply rtc_once, (prim_land j m rest).
  - by apply rtc_once, prim_create.
  - eapply rtc_l; [apply prim_monitor|]. apply prims_send_packet.
  - eapply rtc_l; [by apply (prim_pop i n (DATA pkt) rest)|].
    eapply rtc_l; [apply prim_monitor|]. apply prims_handle_packet.
Qed.

Lemma eprims_push_dao j c p w : rtc eprim w (push_inbox j (DAO c p) (control_tx w)).
Proof. eapply rtc_l; [apply e_control|]. apply rtc_once, e_push_dao. Qed.

Lemma eprims_send_dao_ack w self c p status :
  rtc eprim w (send_dao_ack w self c p status).
Proof.
  unfold send_dao_ack. eapply rtc_l; [apply e_control|]. apply rtc_once, e_ack.
Qed.

Lemma eprims_receive_dao w self p c : rtc eprim w (receive_dao w self p c).
Proof.
  unfold receive_dao. destruct (all_nodes w !! self) as [n|] eqn:Hn; [|done].
  case_bool_decide; [done|]. case_bool_decide; [done|].
  eapply rtc_l; [apply (e_route _ _ self n); [done|lia]|].
  etrans; [|apply eprims_send_dao_ack].
  destruct (parent n); [|done]. apply eprims_push_dao.
Qed.

Lemma eprims_send_dao w self : rtc eprim w (send_dao w self).
Proof.
  unfold send_dao. destruct (all_nodes w !! self) as [n|]; [|done].
  destruct (parent n); [|done]. apply eprims_push_dao.
Qed.

Lemma eprims_adopt w self sender n :
  all_nodes w !! self = Some n → is_root n = false → sender ∈ neighbors n →
  rtc eprim w (adopt w self sender).
Proof.
  intros Hn Hroot Hnb. unfold adopt. rewrite Hn.
  destruct (all_nodes w !! sender) as [s|]; [|done].
  eapply rtc_l; [by apply (e_parent _ _ self n)|]. apply eprims_send_dao.
Qed.

Lemma eprims_receive_dio w self sender :
  (∀ n, all_nodes w !! self = Some n → sender ∈ neighbors n) →
  rtc eprim w (receive_dio w self sender).
Proof.
  intros Hnb. unfold receive_dio.
  destruct (all_nodes w !! self) as [n|] eqn:Hn; [|done].
  destruct (all_nodes w !! sender) as [s|] eqn:Hs; [|done].
  destruct (is_root n) eqn:Hroot; [done|].
  destruct (parent n) as [p|]; [|by apply (eprims_adopt w self sender n); auto].
  destruct (all_nodes w !! p) as [cur|]; [|done].
  destruct (switch_guard _ _ _ _ _); [|done].
  by apply (eprims_adopt w self sender n); auto.
Qed.

Lemma eprims_broadcast (cost : World → World) w0 self n :
  (∀ w, rtc eprim w (cost w)) →
  (∀ w, length (all_nodes (cost w)) = length (all_nodes w)) →
  (self < length (all_nodes w0))%nat →
  rtc eprim w0
    (foldl (λ acc j,
              match all_nodes acc !! j with
              | Some node =>
                if bool_decide (j ≠ self)
                   && in_range calculate_distance CONNECTION_RANGE n node
                then push_inbox j (DIS self) (cost acc)
                else acc
              | None => acc
              end) w0 (seq 0 (length (all_nodes w0)))).
Proof.
  intros Hcost Hlen Hself.
  apply (rtc_foldl _ _ (λ acc, self < length (all_nodes acc))%nat); [|done].
  intros acc j _ Hacc. destruct (all_nodes acc !! j); [|done].
  destruct (bool_decide (j ≠ self) && _) eqn:Hc; [|done].
  apply andb_true_iff in Hc as [Hj _]. apply bool_decide_eq_true in Hj.
  split.
  - etrans; [apply Hcost|]. apply rtc_once, e_push_dis; [done|]. by rewrite Hlen.
  - unfold push_inbox. by rewrite length_upd_node, Hlen.
Qed.

Lemma eprims_discover_neighbors w self : rtc eprim w (discover_neighbors w self).
Proof.
  unfold discover_neighbors.
  destruct (all_nodes w !! self) as [n|] eqn:Hn; [|done].
  eapply rtc_l; [apply e_control|].
  apply (eprims_broadcast (λ w, w) (control_tx w) self n); [done|done|].
  by eapply lookup_lt_Some.
Qed.

Lemma eprims_send_dis w self : rtc eprim w (send_dis w self).
Proof.
  unfold send_dis.
  destruct (all_nodes w !! self) as [n|] eqn:Hn; [|done].
  apply (eprims_broadcast control_tx w self n);
    [intros; apply rtc_once, e_control|done|by eapply lookup_lt_Some].
Qed.

Lemma eprims_trickle_timer w self u :
  (0 <= u)%Q → (u < 1)%Q → rtc eprim w (trickle_timer w self u).
Proof.
  intros H0 H1. unfold trickle_timer.
  destruct (all_nodes w !! self) as [n|]; [|done].
  eapply rtc_r; [|by apply e_trickle].
  destruct (neighbors n); [apply eprims_send_dis|done].
Qed.

Lemma eprims_send_dio w self : link_inv w → rtc eprim w (send_dio w self).
Proof.
  intros Hinv. unfold send_dio.
  destruct (all_nodes w !! self) as [n|] eqn:Hn; [|done].
  apply (rtc_foldl _ _ (λ acc, ∀ nbr, nbr ∈ neighbors n → neighbor_of acc self nbr)).
  - intros acc nbr Hnbr Hacc.
    destruct (all_nodes acc !! nbr); [|done].
    case_bool_decide; [|done]. split.
    + eapply rtc_l; [apply e_control|]. apply rtc_once, e_push_dio.
      by apply Hacc.
    + intros nbr' Hnbr'. apply neighbor_of_upd_node; [done|]. by apply Hacc.
  - intros nbr Hnbr. by destruct (link_mutual w Hinv self n nbr Hn Hnbr).
Qed.

Lemma eprims_receive_dis w self sender :
  link_inv w → self ≠ sender → rtc eprim w (receive_dis w self sender).
Proof.
  intros Hinv Hne.
  destruct (all_nodes w !! self) as [n|] eqn:Hn;
    [|by unfold receive_dis; rewrite Hn].
  destruct (all_nodes w !! sender) as [s|] eqn:Hs;
    [|by unfold receive_dis; rewrite Hn, Hs].
  destruct (decide (sender ∈ neighbors n)) as [Hin|Hnot].
  { unfold receive_dis. rewrite Hn, Hs. by rewrite bool_decide_eq_true_2. }
  destruct (in_range calculate_distance CONNECTION_RANGE n s) eqn:Hrange.
  - destruct (receive_dis_handshake calculate_distance CONNECTION_RANGE
                w self sender n s) as [Hnot' ->]; [done..|].
    eapply rtc_l; [by apply (e_handshake _ _ self sender n s)|].
    eapply rtc_l; [apply e_control|]. apply rtc_once, e_push_dio.
    apply (neighbor_of_append self sender s). by rewrite lookup_upd_node_ne.
  - unfold receive_dis. rewrite Hn, Hs, Hrange. by rewrite andb_false_r.
Qed.

Lemma eprims_run_inbox w self :
  link_inv w → Forall attached (all_nodes w) → rtc eprim w (run_inbox w self).
Proof.
  intros Hinv Hatt. unfold run_inbox.
  destruct (all_nodes w !! self) as [n|] eqn:Hn; [|done].
  destruct (inbox n) as [|item rest] eqn:Hi; [done|].
  destruct item as [sender|sender|c p|f p st|pkt].
  - eapply rtc_l; [by apply (e_pop _ _ self n (DIS sender) rest)|].
    apply eprims_receive_dis.
    + eapply prim_keeps_links; [by apply (prim_pop self n (DIS sender) rest)|done].
    + destruct (link_senders w Hinv self n (DIS sender) sender) as [Hne _];
        [done|rewrite Hi; by apply elem_of_cons; left|done|done].
  - eapply rtc_l; [by apply (e_pop _ _ self n (DIO sender) rest)|].
    apply eprims_receive_dio. intros n1 Hn1.
    rewrite lookup_upd_node_eq, Hn in Hn1. injection Hn1 as <-. simpl.
    destruct (Forall_lookup_1 _ _ _ _ Hatt Hn) as [Hdio _].
    apply Hdio. rewrite Hi. by apply elem_of_cons; left.
  - eapply rtc_l; [by apply (e_pop _ _ self n (DAO c p) rest)|].
    apply eprims_receive_dao.
  - by apply rtc_once, (e_pop _ _ self n (DAO_ACK f p st) rest).
  - by apply rtc_once, (e_data _ _ self n pkt rest).
Qed.

Lemma step_eprims w w' :
  link_inv w → Forall attached (all_nodes w) → step w w' → rtc eprim w w'.
Proof.
  intros Hinv Hatt Hstep.
  destruct Hstep
    as [w pos u Hv H0 H1 | w self | w self | w | w self | w self u H0 H1
       | w attacker k fake_num count _ _ | w src dst pid].
  - by apply rtc_once, e_create.
  - apply eprims_discover_neighbors.
  - by apply eprims_run_inbox.
  - unfold deliver. destruct (in_flight w) as [|[j m] rest] eqn:Hf; [done|].
    by apply rtc_once, (e_land _ _ j m rest).
  - by apply eprims_send_dio.
  - by apply eprims_trickle_timer.
  - unfold launch_round. destruct (possible_victims w attacker); [done|].
    destruct (_ !! _); [apply eprims_receive_dao|done].
  - unfold generate_traffic.
    destruct (all_nodes w !! src), (all_nodes w !! dst); try done.
    case_bool_decide; [done|]. case_bool_decide; [done|].
    apply rtc_once, e_traffic.
Qed.

(** ** Parents are neighbours *)

Lemma attached_append m n :
  (∀ s, m = DIO s → s ∈ neighbors n) → attached n → attached (append_inbox m n).
Proof.
  intros Hm [Hdio Hpar]. split; [|done]. simpl. intros s Hs.
  apply elem_of_app in Hs as [Hs|Hs]; [by apply Hdio|].
  apply list_elem_of_singleton in Hs. by apply Hm.
Qed.

Lemma attached_neighbor a n : attached n → attached (append_neighbor a n).
Proof.
  intros [Hdio Hpar]. split; simpl.
  - intros s Hs. apply elem_of_app. left. by apply Hdio.
  - intros p Hp. apply elem_of_app. left. by apply Hpar.
Qed.

Lemma eprim_keeps_attached w w' :
  link_inv w → eprim w w' →
  Forall attached (all_nodes w) → Forall attached (all_nodes w').
Proof.
  intros Hinv Hp Hall.
  destruct Hp
    as [w | j s w Hne Hlt | j s w Hnb | j c p w | i n m rest w Hn Hi Hm
       | self sender n s w Hn Hs Hne H1 H2 | i n p pfx w Hn Hr Hp
       | i n p c w Hn Hroom | i u w H0 H1 | j f p st w | j m rest w Hf
       | pos u w Hv H0 H1 | pkt src w | i n pkt rest w Hn Hi].
  - done.
  - apply Forall_alter; [done|]. intros x _ Hx. by apply attached_append.
  - apply Forall_alter; [done|]. intros x Hj Hx. apply attached_append; [|done].
    intros s0 [= <-]. destruct Hnb as (nj & Hj' & Hin). by simplify_eq.
  - apply Forall_alter; [done|]. intros x _ Hx. by apply attached_append.
  - apply Forall_alter; [done|]. intros x Hx [Hdio Hpar]. simplify_eq.
    split; [|done]. simpl. intros s Hs. apply Hdio. rewrite Hi.
    by apply elem_of_cons; right.
  - apply Forall_alter; [apply Forall_alter; [done|]|];
      intros x _ Hx; by apply attached_neighbor.
  - apply Forall_alter; [done|]. intros x Hx [Hdio Hpar]. simplify_eq.
    split; [done|]. simpl. by intros p0 [= <-].
  - apply Forall_alter; [done|]. by intros x _ Hx.
  - apply Forall_alter; [done|]. by intros x _ Hx.
  - done.
  - apply Forall_alter; [done|]. intros x _ Hx. apply attached_append; [|done].
    intros s ->.
    assert (Hno : announced_sender (DIO s) = None).
    { apply (link_flight w Hinv j). rewrite Hf. by apply elem_of_cons; left. }
    done.
  - apply Forall_app. split; [done|]. constructor; [|done].
    split; simpl; [intros s Hs; by apply elem_of_nil in Hs|done].
  - done.
  - rewrite handle_packet_nodes. simpl.
    apply Forall_alter; [done|]. intros x Hx [Hdio Hpar]. simplify_eq.
    split; [|done]. simpl. intros s Hs. apply Hdio. rewrite Hi.
    by apply elem_of_cons; right.
Qed.

(** ** Positions *)

Lemma positions_upd_node i f w :
  (∀ n, position (f n) = position n) →
  position <$> all_nodes (upd_node i f w) = position <$> all_nodes w.
Proof.
  intros Hf. simpl. apply list_eq. intros j.
  rewrite !list_lookup_fmap, list_lookup_alter.
  destruct (decide (i = j)) as [->|]; [|done].
  destruct (all_nodes w !! j); simpl; [by rewrite Hf|done].
Qed.

Lemma eprim_positions w w' :
  eprim w w' →
  position <$> all_nodes w' = position <$> all_nodes w
  ∨ ∃ pos, valid_pos calculate_distance MINIMUM_DISTANCE w pos = true
           ∧ position <$> all_nodes w' = ((position <$> all_nodes w) ++ [pos])%list.
Proof.
  intros Hp.
  destruct Hp
    as [w | j s w Hne Hlt | j s w Hnb | j c p w | i n m rest w Hn Hi Hm
       | self sender n s w Hn Hs Hne H1 H2 | i n p pfx w Hn Hr Hp
       | i n p c w Hn Hroom | i u w H0 H1 | j f p st w | j m rest w Hf
       | pos u w Hv H0 H1 | pkt src w | i n pkt rest w Hn Hi];
    try (left; done); try (left; by apply positions_upd_node).
  - left. by rewrite !positions_upd_node.
  - left. by apply (positions_upd_node j (append_inbox m)
                       (mkWorld (all_nodes w) rest (monitor w))).
  - right. exists pos. split; [done|]. unfold create_node. simpl.
    by rewrite fmap_app.
  - left. rewrite handle_packet_nodes.
    by apply (positions_upd_node i (set_inbox rest)).
Qed.

Lemma eprim_keeps_separated w w' :
  eprim w w' →
  separated calculate_distance MINIMUM_DISTANCE w →
  separated calculate_distance MINIMUM_DISTANCE w'.
Proof.
  intros Hp Hsep. destruct (eprim_positions w w' Hp) as [E|(pos & Hv & E)];
    unfold separated; rewrite E; [done|].
  intros i j pi pj Hij Hi Hj.
  apply lookup_app_Some in Hj as [Hj|[Hlen Hj]].
  - apply lookup_app_Some in Hi as [Hi|[Hlen' Hi]]; [by eapply Hsep|].
    apply lookup_lt_Some in Hj. lia.
  - apply list_lookup_singleton_Some in Hj as [Hj0 <-].
    apply lookup_app_Some in Hi as [Hi|[Hlen' Hi]]; [|lia].
    apply list_lookup_fmap_Some in Hi as (ni & -> & Hni).
    unfold valid_pos in Hv. rewrite forallb_forall in Hv.
    specialize (Hv ni). rewrite negb_true_iff in Hv. apply Hv.
    apply list_elem_of_In, list_elem_of_lookup. eauto.
Qed.

(** ** Packets and counters *)

Lemma sum_alter (g : Node → nat) f i (l : list Node) n :
  l !! i = Some n →
  (sum_list (g <$> alter f i l) + g n = sum_list (g <$> l) + g (f n))%nat.
Proof.
  revert i. induction l as [|a l IH]; intros [|i] Hi; simplify_eq/=.
  - lia.
  - specialize (IH i Hi). lia.
Qed.

Lemma sum_alter_same (g : Node → nat) f i (l : list Node) :
  (∀ n, g (f n) = g n) → sum_list (g <$> alter f i l) = sum_list (g <$> l).
Proof.
  intros Hf. revert i. induction l as [|a l IH]; intros [|i]; simpl; try done.
  - by rewrite Hf.
  - f_equal. apply IH.
Qed.

Lemma data_in_snoc q m :
  data_in (q ++ [m]) = (data_in q + if carries_data m then 1 else 0)%nat.
Proof.
  unfold data_in. rewrite List.filter_app, length_app. simpl.
  by destruct (carries_data m).
Qed.

Lemma data_in_inboxes_push j m w :
  carries_data m = false → data_in_inboxes (push_inbox j m w) = data_in_inboxes w.
Proof.
  intros Hm. unfold data_in_inboxes. simpl. apply sum_alter_same.
  intros n. simpl. rewrite data_in_snoc, Hm. lia.
Qed.

Lemma data_in_inboxes_pop i n m rest w :
  all_nodes w !! i = Some n → inbox n = m :: rest →
  (data_in_inboxes (upd_node i (set_inbox rest) w)
   + (if carries_data m then 1 else 0) = data_in_inboxes w)%nat.
Proof.
  intros Hn Hi. unfold data_in_inboxes. simpl.
  pose proof (sum_alter (λ n, data_in (inbox n)) (set_inbox rest) i _ n Hn) as E.
  simpl in E. rewrite Hi in E. unfold data_in in E at 2. simpl in E.
  unfold data_in in *. destruct (carries_data m); simpl in E; lia.
Qed.

Lemma data_in_inboxes_same i f w :
  (∀ n, inbox (f n) = inbox n) →
  data_in_inboxes (upd_node i f w) = data_in_inboxes w.
Proof.
  intros Hf. unfold data_in_inboxes. simpl. apply sum_alter_same.
  intros n. by rewrite Hf.
Qed.

Lemma alter_missing (f : Node → Node) i (l : list Node) :
  l !! i = None → alter f i l = l.
Proof.
  revert i. induction l as [|a l IH]; intros [|i] Hi; simplify_eq/=; [done..|].
  f_equal. by apply IH.
Qed.

Lemma data_in_inboxes_land j m w0 :
  (data_in_inboxes (push_inbox j m w0)
   ≤ data_in_inboxes w0 + if carries_data m then 1 else 0)%nat.
Proof.
  unfold data_in_inboxes. simpl.
  destruct (all_nodes w0 !! j) as [n|] eqn:Hj.
  - pose proof (sum_alter (λ n, data_in (inbox n)) (append_inbox m) j _ n Hj) as E.
    simpl in E. rewrite data_in_snoc in E. lia.
  - rewrite alter_missing by done. lia.
Qed.

(** What [handle_packet] does to the monitor and to the packets in flight. *)
Lemma handle_packet_counts w self pkt :
  total_data_sent (monitor (handle_packet w self pkt)) = total_data_sent (monitor w)
  ∧ control_packets_sent (monitor (handle_packet w self pkt))
    = control_packets_sent (monitor w)
  ∧ (energy_used (monitor w) <= energy_used (monitor (handle_packet w self pkt)))%Q
  ∧ (total_data_delivered (monitor (handle_packet w self pkt))
     + data_in_flight (handle_packet w self pkt)
     ≤ total_data_delivered (monitor w) + data_in_flight w + 1)%nat.
Proof.
  assert (Hsend : ∀ hop,
    total_data_sent (monitor (send_packet w pkt hop)) = total_data_sent (monitor w)
    ∧ control_packets_sent (monitor (send_packet w pkt hop))
      = control_packets_sent (monitor w)
    ∧ (energy_used (monitor w) <= energy_used (monitor (send_packet w pkt hop)))%Q
    ∧ (total_data_delivered (monitor (send_packet w pkt hop))
       + data_in_flight (send_packet w pkt hop)
       ≤ total_data_delivered (monitor w) + data_in_flight w + 1)%nat).
  { intros hop. unfold send_packet, data_in_flight. simpl.
    rewrite List.filter_app, length_app. simpl.
    repeat split; try lia. lra. }
  assert (Hsame :
    total_data_sent (monitor w) = total_data_sent (monitor w)
    ∧ control_packets_sent (monitor w) = control_packets_sent (monitor w)
    ∧ (energy_used (monitor w) <= energy_used (monitor w))%Q
    ∧ (total_data_delivered (monitor w) + data_in_flight w
       ≤ total_data_delivered (monitor w) + data_in_flight w + 1)%nat).
  { repeat split; try lia. apply Qle_refl. }
  unfold handle_packet. destruct (all_nodes w !! self) as [n|]; [|done].
  case_bool_decide.
  { unfold data_in_flight. simpl. repeat split; try lia. apply Qle_refl. }
  destruct (downward_routes n !! dst_prefix pkt); [done|].
  by destruct (parent n).
Qed.

Lemma eprim_keeps_accounted w w' : eprim w w' → accounted w → accounted w'.
Proof.
  intros Hp Hacc. unfold accounted in *.
  destruct Hp
    as [w | j s w Hne Hlt | j s w Hnb | j c p w | i n m rest w Hn Hi Hm
       | self sender n s w Hn Hs Hne H1 H2 | i n p pfx w Hn Hr Hp
       | i n p c w Hn Hroom | i u w H0 H1 | j f p st w | j m rest w Hf
       | pos u w Hv H0 H1 | pkt src w | i n pkt rest w Hn Hi].
  - done.
  - by rewrite data_in_inboxes_push.
  - by rewrite data_in_inboxes_push.
  - by rewrite data_in_inboxes_push.
  - pose proof (data_in_inboxes_pop i n m rest w Hn Hi) as E.
    rewrite Hm in E. change (data_in_flight (upd_node i (set_inbox rest) w))
      with (data_in_flight w). simpl. lia.
  - rewrite !data_in_inboxes_same by done. done.
  - by rewrite data_in_inboxes_same.
  - by rewrite data_in_inboxes_same.
  - by rewrite data_in_inboxes_same.
  - unfold data_in_flight in *. simpl. rewrite List.filter_app, length_app.
    simpl. change (data_in_inboxes (transmit_later j (DAO_ACK f p st) w))
      with (data_in_inboxes w). lia.
  - pose proof (data_in_inboxes_land j m (mkWorld (all_nodes w) rest (monitor w)))
      as E.
    change (data_in_inboxes (mkWorld (all_nodes w) rest (monitor w)))
      with (data_in_inboxes w) in E.
    unfold data_in_flight in *. rewrite Hf in Hacc. simpl in *.
    destruct (carries_data m); simpl in *; lia.
  - unfold data_in_inboxes, data_in_flight in *. simpl.
    rewrite fmap_app, sum_list_with_app. simpl. lia.
  - unfold send_packet, data_in_flight, data_in_inboxes in *. simpl.
    rewrite List.filter_app, length_app. simpl. lia.
  - set (w1 := upd_monitor on_receive (upd_node i (set_inbox rest) w)).
    destruct (handle_packet_counts w1 i pkt) as (Hs & _ & _ & Hd).
    pose proof (data_in_inboxes_pop i n (DATA pkt) rest w Hn Hi) as E.
    simpl in E.
    assert (Hn1 : data_in_inboxes (handle_packet w1 i pkt)
                  = data_in_inboxes (upd_node i (set_inbox rest) w)).
    { unfold data_in_inboxes. by rewrite handle_packet_nodes. }
    rewrite Hn1, Hs.
    change (total_data_sent (monitor w1)) with (total_data_sent (monitor w)).
    change (total_data_delivered (monitor w1))
      with (total_data_delivered (monitor w)) in Hd.
    change (data_in_flight w1) with (data_in_flight w) in Hd.
    lia.
Qed.

Lemma charged_control m : charged m → charged (on_transmit (on_control_packet_sent m)).
Proof.
  unfold charged.
  cbn [on_transmit on_control_packet_sent control_packets_sent total_data_sent
       energy_used].
  intros H.
  assert (E : Z.of_nat (S (control_packets_sent m) + total_data_sent m)
              = (Z.of_nat (control_packets_sent m + total_data_sent m) + 1)%Z) by lia.
  rewrite E, inject_Z_plus. change (inject_Z 1) with 1%Q. lra.
Qed.

Lemma charged_created m : charged m → charged (on_transmit (on_data_packet_created m)).
Proof.
  unfold charged.
  cbn [on_transmit on_data_packet_created control_packets_sent total_data_sent
       energy_used].
  intros H.
  assert (E : Z.of_nat (control_packets_sent m + S (total_data_sent m))
              = (Z.of_nat (control_packets_sent m + total_data_sent m) + 1)%Z) by lia.
  rewrite E, inject_Z_plus. change (inject_Z 1) with 1%Q. lra.
Qed.

Lemma eprim_keeps_charged w w' :
  eprim w w' → charged (monitor w) → charged (monitor w').
Proof.
  intros Hp Hch.
  destruct Hp
    as [w | j s w Hne Hlt | j s w Hnb | j c p w | i n m rest w Hn Hi Hm
       | self sender n s w Hn Hs Hne H1 H2 | i n p pfx w Hn Hr Hp
       | i n p c w Hn Hroom | i u w H0 H1 | j f p st w | j m rest w Hf
       | pos u w Hv H0 H1 | pkt src w | i n pkt rest w Hn Hi];
    try done.
  - by apply charged_control.
  - by apply charged_created.
  - set (w1 := upd_monitor on_receive (upd_node i (set_inbox rest) w)).
    destruct (handle_packet_counts w1 i pkt) as (Hs & Hc & He & _).
    unfold charged in *. rewrite Hs, Hc. simpl in *. lra.
Qed.

(** ** The invariants hold in every world of a run *)

Lemma eprims_keep_attached w w' :
  rtc eprim w w' → link_inv w → Forall attached (all_nodes w) →
  link_inv w' ∧ Forall attached (all_nodes w').
Proof.
  induction 1 as [|w1 w2 w3 Hp _ IH]; intros Hinv Hatt; [done|].
  apply IH.
  - eapply prims_keep_links; [by apply eprim_prims|done].
  - by eapply eprim_keeps_attached.
Qed.

Lemma reachable_eprims w :
  reachable w →
  rtc eprim initial_world w ∧ link_inv w ∧ Forall attached (all_nodes w).
Proof.
  revert w.
  apply (rtc_ind_r (λ w, rtc eprim initial_world w ∧ link_inv w
                         ∧ Forall attached (all_nodes w))).
  - split; [done|]. split; [apply link_inv_initial|constructor].
  - intros w1 w2 Hr Hstep (IH1 & IH2 & IH3).
    pose proof (step_eprims w1 w2 IH2 IH3 Hstep) as Hp.
    split; [by etrans|]. by apply (eprims_keep_attached w1 w2).
Qed.

Lemma eprims_invariant (P : World → Prop) w :
  P initial_world → (∀ w1 w2, eprim w1 w2 → P w1 → P w2) →
  reachable w → P w.
Proof.
  intros Hinit Hkeep Hr. apply reachable_eprims in Hr as [Hp _].
  revert w Hp. apply (rtc_ind_r P initial_world Hinit).
  intros w1 w2 _ Hstep IH. by apply (Hkeep w1 w2).
Qed.

(** In a run, a parent is always a neighbour.  The parent of a node is
    another node of the arena, it is in the node's neighbour list and has
    the node in its own, and the node is not a root: the sender of every
    DIO was registered by the discovery handshake before.  ([receive_dio],
    [receive_dis], [send_dio].) *)
Theorem parent_is_neighbor w :
  reachable w →
  ∀ i n p, all_nodes w !! i = Some n → parent n = Some p →
    p ≠ i ∧ p ∈ neighbors n ∧ neighbor_of w i p ∧ is_root n = false.
Proof.
  intros Hr i n p Hn Hp.
  destruct (reachable_eprims w Hr) as (_ & Hinv & Hatt).
  destruct (Forall_lookup_1 _ _ _ _ Hatt Hn) as [_ Hpar].
  pose proof (Hpar p Hp) as Hin.
  destruct (link_mutual w Hinv i n p Hn Hin) as [Hne Hback].
  split; [done|]. split; [done|]. split; [done|].
  pose proof (reachable_nodes calculate_distance CONNECTION_RANGE MINIMUM_DISTANCE
                root_orphan w root_orphan_invariant Hr) as Horph.
  pose proof (Forall_lookup_1 _ _ _ _ Horph Hn) as Ho. unfold root_orphan in Ho.
  destruct (is_root n); [|done]. rewrite Ho in Hp by done. done.
Qed.

Lemma eprims_positions w w' :
  rtc eprim w w' →
  ∀ i pi, (position <$> all_nodes w) !! i = Some pi →
          (position <$> all_nodes w') !! i = Some pi.
Proof.
  induction 1 as [|w1 w2 w3 Hp _ IH]; intros i pi Hi; [done|].
  apply IH. destruct (eprim_positions w1 w2 Hp) as [->|(pos & _ & ->)]; [done|].
  by apply lookup_app_l_Some.
Qed.

(** In a run, no two nodes are closer than the minimum distance (measured
    from the node created first, as the placement loop does), and a node
    stays where it was created: in every later world of the run the node
    at the same index has the same position.  ([create_nodes] of
    [environment.py]; no handler of [node.py] writes [position].) *)
Theorem nodes_keep_distance w :
  reachable w →
  (∀ i j ni nj, (i < j)%nat →
     all_nodes w !! i = Some ni → all_nodes w !! j = Some nj →
     ¬ (calculate_distance (position ni) (position nj) < MINIMUM_DISTANCE)%Q)
  ∧ (∀ w' i n, rtc step w w' → all_nodes w !! i = Some n →
       ∃ n', all_nodes w' !! i = Some n' ∧ position n' = position n).
Proof.
  intros Hr. split.
  - assert (Hsep : separated calculate_distance MINIMUM_DISTANCE w).
    { apply (eprims_invariant (separated calculate_distance MINIMUM_DISTANCE));
        [|apply eprim_keeps_separated|done].
      intros i j pi pj _ Hi. by destruct i. }
    intros i j ni nj Hij Hi Hj Hlt. apply Qltb_lt in Hlt.
    rewrite (Hsep i j (position ni) (position nj)) in Hlt; [done|done|..];
      by rewrite list_lookup_fmap, ?Hi, ?Hj.
  - intros w' i n Hsteps Hn.
    assert (Hp : rtc eprim w w').
    { clear i n Hn. induction Hsteps as [|w1 w2 w3 Hstep Hrest IH]; [done|].
      destruct (reachable_eprims w1 Hr) as (_ & Hinv & Hatt).
      etrans; [by apply step_eprims|]. apply IH.
      by eapply rtc_r. }
    pose proof (eprims_positions w w' Hp i (position n)) as Hpos.
    rewrite !list_lookup_fmap, Hn in Hpos. specialize (Hpos eq_refl).
    destruct (all_nodes w' !! i) as [n'|]; [|done].
    exists n'. split; [done|]. by injection Hpos.
Qed.

Lemma get_pdr_bounds m :
  (total_data_delivered m ≤ total_data_sent m)%nat →
  (0 <= get_pdr m)%Q ∧ (get_pdr m <= 1)%Q.
Proof.
  intros Hle. unfold get_pdr.
  destruct (total_data_sent m) as [|s] eqn:Hs; cbn [Nat.eqb].
  { split; [apply Qle_refl|discriminate]. }
  assert (E : Z.pos (Pos.of_nat (S s)) = Z.of_nat (S s)).
  { rewrite <- positive_nat_Z, Nat2Pos.id by done. done. }
  unfold Qle. cbn [Qnum Qden]. rewrite E. lia.
Qed.

(** In a run, the packets delivered, those waiting in inboxes and those
    in flight together never outnumber the packets created: no packet is
    delivered twice or out of nothing.  So the delivery ratio reported by
    [get_pdr] lies between 0 and 1, and it is 0 as long as nothing was
    sent.  ([handle_packet], [send_packet], [run_inbox],
    [generate_traffic], [performance.py].) *)
Theorem delivery_accounting w :
  reachable w →
  (total_data_delivered (monitor w) + data_in_inboxes w + data_in_flight w
   ≤ total_data_sent (monitor w))%nat
  ∧ (0 <= get_pdr (monitor w))%Q ∧ (get_pdr (monitor w) <= 1)%Q
  ∧ (total_data_sent (monitor w) = 0%nat → get_pdr (monitor w) = 0%Q).
Proof.
  intros Hr.
  assert (Hacc : accounted w).
  { apply (eprims_invariant accounted); [|apply eprim_keeps_accounted|done].
    unfold accounted, data_in_inboxes, data_in_flight. simpl. lia. }
  unfold accounted in Hacc. split; [done|].
  destruct (get_pdr_bounds (monitor w)) as [H0 H1]; [lia|].
  split; [done|]. split; [done|].
  intros Hs. unfold get_pdr. by rewrite Hs.
Qed.

(** In a run, the energy on the monitor covers one transmission (0.75)
    for every control packet counted and every data packet created.
    (Every [on_control_packet_sent] of [node.py] is followed by
    [on_transmit]; [generate_traffic] sends what it creates.) *)
Theorem energy_covers_packets w :
  reachable w →
  ((3 # 4) * inject_Z (Z.of_nat (get_overhead_packets (monitor w)
                                 + total_data_sent (monitor w)))
   <= get_energy_used (monitor w))%Q.
Proof.
  intros Hr.
  apply (eprims_invariant (λ w, charged (monitor w))); [|apply eprim_keeps_charged|done].
  unfold charged. simpl. discriminate.
Qed.

End RefinedRuns.

(** ** More on the sample run *)

Lemma line_delivered_reachable : reachable euclid 4 1 line_delivered.
Proof.
  unfold reachable, line_delivered, line_traffic. cbv zeta.
  eapply rtc_r; [|apply step_inbox].
  eapply rtc_r; [|apply step_deliver].
  eapply rtc_r; [|apply step_inbox].
  eapply rtc_r; [|apply step_inbox].
  eapply rtc_r; [|apply step_deliver].
  eapply rtc_r; [|apply step_deliver].
  eapply rtc_r; [|apply step_traffic].
  apply line_joined_reachable.
Qed.

Example line_delivered_monitor :
  total_data_sent (monitor line_delivered) = 1%nat
  ∧ total_data_delivered (monitor line_delivered) = 1%nat
  ∧ get_overhead_packets (monitor line_delivered) = 4%nat
  ∧ Qred (get_energy_used (monitor line_delivered)) = 5%Q
  ∧ get_pdr (monitor line_delivered) = 1%Q.
Proof. vm_compute. repeat split. Qed.

Lemma parent_is_neighbor_witness :
  ∃ n, all_nodes line_joined !! 2 = Some n ∧ parent n = Some 1
       ∧ 1 ≠ 2 ∧ 1 ∈ neighbors n ∧ neighbor_of line_joined 2 1
       ∧ is_root n = false.
Proof.
  assert (H2 : ∃ n, all_nodes line_joined !! 2 = Some n ∧ parent n = Some 1).
  { eexists. split; vm_compute; reflexivity. }
  destruct H2 as (n & Hn & Hp). exists n. split; [exact Hn|]. split; [exact Hp|].
  apply (parent_is_neighbor euclid 4 1 line_joined line_joined_reachable 2 n 1 Hn Hp).
Defined.

Lemma nodes_keep_distance_witness :
  (∀ i j ni nj, (i < j)%nat →
     all_nodes line_joined !! i = Some ni → all_nodes line_joined !! j = Some nj →
     ¬ (euclid (position ni) (position nj) < 1)%Q)
  ∧ (∀ w' i n, rtc (step euclid 4 1) line_joined w' →
       all_nodes line_joined !! i = Some n →
       ∃ n', all_nodes w' !! i = Some n' ∧ position n' = position n).
Proof.
  apply (nodes_keep_distance euclid 4 1 line_joined). apply line_joined_reachable.
Defined.

Lemma delivery_accounting_witness :
  (total_data_delivered (monitor line_delivered) + data_in_inboxes line_delivered
   + data_in_flight line_delivered ≤ total_data_sent (monitor line_delivered))%nat
  ∧ (0 <= get_pdr (monitor line_delivered))%Q
  ∧ (get_pdr (monitor line_delivered) <= 1)%Q
  ∧ (total_data_sent (monitor line_delivered) = 0%nat →
     get_pdr (monitor line_delivered) = 0%Q).
Proof.
  apply (delivery_accounting euclid 4 1 line_delivered).
  apply line_delivered_reachable.
Defined.

Lemma energy_covers_packets_witness :
  ((3 # 4) * inject_Z (Z.of_nat (get_overhead_packets (monitor line_delivered)
                                 + total_data_sent (monitor line_delivered)))
   <= get_energy_used (monitor line_delivered))%Q.
Proof.
  apply (energy_covers_packets euclid 4 1 line_delivered).
  apply line_delivered_reachable.
Defined.

(** ** Identifiers and suffixes are read back *)

(** The number of a node survives its two formats, whatever its size: the
    decimal one of the identifier, [f"Node{i:02d}"], from which
    [int(node_id[4:])] reads it back, and the hexadecimal one of the prefix
    suffix, [f"{i:02x}"]. *)
Theorem node_number_round_trip i :
  Fmt.int (Fmt.drop_prefix 4 ("Node" ++ Fmt.d02 i)) = Some i
  ∧ hex_int (Fmt.x02 i) = Some i.
Proof.
  split; [|apply hex_int_x02].
  unfold Fmt.d02, Fmt.pad. simpl. apply int_zeros, int_dec.
Qed.

(** ** Routes in use *)

(** An accepted announcement decides where data goes: once a node has
    accepted a DAO for a prefix other than its own, it forwards every packet
    for that prefix to the announced child, whatever it had stored for the
    prefix before.  With the attacker as child, this is how a forged
    announcement draws traffic.  ([receive_dao], [handle_packet].) *)
Theorem accepted_route_is_used w self n p c pkt :
  all_nodes w !! self = Some n →
  dst_prefix pkt = p → p ≠ prefix n →
  downward_routes n !! p ≠ Some c →
  (size (downward_routes n) < max_downward_routes n)%nat →
  shows (receive_dao w self p c)
        (handle_packet (receive_dao w self p c) self pkt) pkt (ForwardedTo c).
Proof.
  intros Hn Hdst Hown Hnew Hroom.
  destruct (receive_dao_store_spec w self n p c)
    as ((n' & Hn' & Hr & _ & _ & Hpfx) & _); [done..|].
  pose proof (handle_packet_shows (receive_dao w self p c) self n' pkt Hn') as Hs.
  unfold forwarding_priority in Hs.
  rewrite bool_decide_eq_false_2 in Hs by (rewrite Hdst, Hpfx; done).
  by rewrite Hdst, Hr, lookup_insert_eq in Hs.
Qed.

Lemma accepted_route_is_used_witness :
  shows (receive_dao roomy_world 1 route_a 3)
        (handle_packet (receive_dao roomy_world 1 route_a 3) 1
           (mkPacket "Node00" route_a 64 0))
        (mkPacket "Node00" route_a 64 0) (ForwardedTo 3).
Proof.
  apply (accepted_route_is_used roomy_world 1 (relay 1 2 {[route_a := 2]} (Some 0))
           route_a 3 (mkPacket "Node00" route_a 64 0)).
  - reflexivity.
  - reflexivity.
  - discriminate.
  - vm_compute. discriminate.
  - vm_compute. lia.
Defined.

Section Climb.

Variable calculate_distance : Position → Position → Q.
Variable CONNECTION_RANGE : Q.

Local Abbreviation run_inbox := (run_inbox calculate_distance CONNECTION_RANGE).
Local Abbreviation receive_dio := (receive_dio calculate_distance).

(** Upstream propagation keeps the pair as it is.  When a node with a
    parent accepts a DAO and the parent, whose inbox was empty, handles its
    next message, the parent stores the same prefix for the same child: the
    announcing node itself, not the node that forwarded the DAO, becomes the
    parent's next hop for the prefix. *)
Theorem dao_climbs w self n q nq p c :
  all_nodes w !! self = Some n → parent n = Some q → q ≠ self →
  all_nodes w !! q = Some nq → inbox nq = [] →
  downward_routes n !! p ≠ Some c →
  (size (downward_routes n) < max_downward_routes n)%nat →
  downward_routes nq !! p ≠ Some c →
  (size (downward_routes nq) < max_downward_routes nq)%nat →
  ∃ nq', all_nodes (run_inbox (receive_dao w self p c) q) !! q = Some nq'
         ∧ downward_routes nq' !! p = Some c.
Proof.
  intros Hn Hpar Hne Hq Hempty Hnew Hroom Hnewq Hroomq.
  assert (Hq1 : all_nodes (receive_dao w self p c) !! q
                = Some (append_inbox (DAO c p) nq)).
  { rewrite (receive_dao_store w self n p c) by done. rewrite Hpar.
    unfold send_dao_ack. rewrite nodes_transmit_later, nodes_control_tx.
    erewrite lookup_push_inbox;
      [|rewrite nodes_control_tx; by rewrite lookup_upd_node_ne].
    by rewrite decide_True. }
  unfold run_inbox. rewrite Hq1. simpl. rewrite Hempty. simpl.
  set (w2 := upd_node q (set_inbox []) (receive_dao w self p c)).
  assert (Hq2 : all_nodes w2 !! q = Some (set_inbox [] (append_inbox (DAO c p) nq))).
  { unfold w2. by rewrite lookup_upd_node_eq, Hq1. }
  destruct (receive_dao_store_spec w2 q _ p c Hq2) as ((nq' & Hnq' & Hr & _) & _);
    [done|done|].
  exists nq'. split; [done|]. rewrite Hr. apply lookup_insert_eq.
Qed.

(** The test against two-node cycles, [sender.parent != self], is made
    only when the node already has a parent.  A node without a parent takes
    the sender of a DIO even when that sender's parent is this very node;
    the two nodes are then each other's parent. *)
Theorem parentless_adoption_closes_cycle w self sender n s :
  all_nodes w !! self = Some n → all_nodes w !! sender = Some s →
  self ≠ sender → is_root n = false → parent n = None →
  parent s = Some self →
  ∃ n' s', all_nodes (receive_dio w self sender) !! self = Some n'
           ∧ all_nodes (receive_dio w self sender) !! sender = Some s'
           ∧ parent n' = Some sender ∧ parent s' = Some self.
Proof.
  intros Hn Hs Hne Hroot Hpar Hspar.
  assert (E : receive_dio w self sender = adopt w self sender).
  { unfold receive_dio. by rewrite Hn, Hs, Hroot, Hpar. }
  rewrite E. destruct (adopt_nodes w self sender n s Hn Hs Hne) as [-> ->].
  do 2 eexists. split; [done|]. split; [done|]. done.
Qed.

End Climb.

Lemma dao_climbs_witness :
  ∃ nq', all_nodes (run_inbox euclid 4 (receive_dao roomy_world 1 route_b 3) 0) !! 0
         = Some nq'
         ∧ downward_routes nq' !! route_b = Some 3.
Proof.
  apply (dao_climbs euclid 4 roomy_world 1 (relay 1 2 {[route_a := 2]} (Some 0))
           0 (Node_init 0 (0, 0)%Q true 0) route_b 3).
  - reflexivity.
  - reflexivity.
  - discriminate.
  - reflexivity.
  - reflexivity.
  - vm_compute. discriminate.
  - vm_compute. lia.
  - vm_compute. discriminate.
  - vm_compute. lia.
Defined.

(** In the sample run the situation arises: node 2 has node 1 as parent
    and advertises itself to node 1, which has none. *)
Lemma parentless_adoption_closes_cycle_witness :
  reachable euclid 4 1 line_joined
  ∧ ∃ n' s', all_nodes (receive_dio euclid line_joined 1 2) !! 1 = Some n'
             ∧ all_nodes (receive_dio euclid line_joined 1 2) !! 2 = Some s'
             ∧ parent n' = Some 2 ∧ parent s' = Some 1.
Proof.
  split; [apply line_joined_reachable|].
  assert (H1 : ∃ n, all_nodes line_joined !! 1 = Some n
                    ∧ is_root n = false ∧ parent n = None).
  { eexists. repeat split; vm_compute; reflexivity. }
  assert (H2 : ∃ s, all_nodes line_joined !! 2 = Some s ∧ parent s = Some 1).
  { eexists. repeat split; vm_compute; reflexivity. }
  destruct H1 as (n & Hn & Hroot & Hpar), H2 as (s & Hs & Hspar).
  apply (parentless_adoption_closes_cycle euclid line_joined 1 2 n s);
    [exact Hn|exact Hs|discriminate|exact Hroot|exact Hpar|exact Hspar].
Defined.
